(** * Legal-document ingestion core: segmentation, normalisation, reconciliation

    A shallow embedding of
      - backend/data/shared/text_processing.py   (the text normaliser),
      - backend/data/pdf/pdf_processing.py       (extraction, segmentation, length filter),
      - backend/service/file_processing_service.py (process_file, embedding_data),
      - backend/app/vector/dbs/weaviate_db.py    (insert_objects),
      - backend/service/worker_update.py         (the reconciliation worker),
    followed by the properties of these functions.

    Python strings are sequences of Unicode code points: a string is a
    [list Z].  Python dictionaries keep insertion order: a dictionary is an
    association list whose keys are pairwise distinct.  Exceptions are values
    of the type [exn]; a function that can raise returns [exn + A]. *)

From Stdlib Require Import ZArith QArith Lia.
From Stdlib Require Ascii String.
From stdpp Require Import base numbers option list.
Import String.StringSyntax.
Delimit Scope string_scope with string.

Open Scope Z_scope.

(** ** Strings *)

Abbreviation char := Z (only parsing).
Abbreviation str := (list Z) (only parsing).

(** Decoding of UTF-8 string literals, so that texts can be written as they
    appear in the sources. *)
Definition byte_of (a : Ascii.ascii) : Z := Z.of_N (Ascii.N_of_ascii a).

Definition cont (b : Z) : Z := Z.land b 63.

Fixpoint decode_utf8 (bs : list Z) : str :=
  match bs with
  | [] => []
  | b1 :: r1 =>
    if b1 <? 128 then b1 :: decode_utf8 r1
    else match r1 with
    | [] => [b1]
    | b2 :: r2 =>
      if b1 <? 224 then (Z.shiftl (Z.land b1 31) 6 + cont b2) :: decode_utf8 r2
      else match r2 with
      | [] => [b1; b2]
      | b3 :: r3 =>
        if b1 <? 240
        then (Z.shiftl (Z.land b1 15) 12 + Z.shiftl (cont b2) 6 + cont b3) :: decode_utf8 r3
        else match r3 with
        | [] => [b1; b2; b3]
        | b4 :: r4 =>
          (Z.shiftl (Z.land b1 7) 18 + Z.shiftl (cont b2) 12
           + Z.shiftl (cont b3) 6 + cont b4) :: decode_utf8 r4
        end
      end
    end
  end.

Definition text_of (s : String.string) : str :=
  decode_utf8 (map byte_of (String.list_ascii_of_string s)).

Notation "'u' s" := (text_of s%string) (at level 1, s at level 0, only parsing).

(** [str.isspace]: the characters that [str.split()] and [str.strip()] treat
    as white space. *)
Definition isspace (c : char) : bool :=
  ((9 <=? c) && (c <=? 13)) || ((28 <=? c) && (c <=? 32))
  || (c =? 133) || (c =? 160) || (c =? 5760)
  || ((8192 <=? c) && (c <=? 8202)) || (c =? 8232) || (c =? 8233)
  || (c =? 8239) || (c =? 8287) || (c =? 12288).

(** [text.split()]: the maximal runs of characters that are not white space. *)
Fixpoint split (text : str) : list str :=
  match text with
  | [] => []
  | c :: rest =>
    if isspace c then split rest
    else match rest with
         | [] => [[c]]
         | c' :: _ =>
           if isspace c' then [c] :: split rest
           else match split rest with
                | w :: ws => (c :: w) :: ws
                | [] => [[c]]
                end
         end
  end.

Fixpoint lstrip (text : str) : str :=
  match text with
  | [] => []
  | c :: rest => if isspace c then lstrip rest else text
  end.

(** [text.strip()] *)
Definition strip (text : str) : str := rev (lstrip (rev (lstrip text))).

(** [sep.join(words)] *)
Fixpoint join (sep : str) (words : list str) : str :=
  match words with
  | [] => []
  | [w] => w
  | w :: ws => w ++ sep ++ join sep ws
  end.

(** ** Dictionaries *)

Definition dict (V : Type) := list (Z * V).

(** [d.get(k)]; [k in d] is [is_Some (dict_get k d)] and [d[k]] raises
    [KeyError] where this is [None]. *)
Fixpoint dict_get {V} (k : Z) (d : dict V) : option V :=
  match d with
  | [] => None
  | (k', v) :: d' => if k' =? k then Some v else dict_get k d'
  end.

(** [d[k] = v]: an existing key keeps its place, a new key goes last. *)
Fixpoint dict_set {V} (k : Z) (v : V) (d : dict V) : dict V :=
  match d with
  | [] => [(k, v)]
  | (k', v') :: d' => if k' =? k then (k, v) :: d' else (k', v') :: dict_set k v d'
  end.

Definition dict_keys {V} (d : dict V) : list Z := d.*1.

(** ** Exceptions *)

Inductive exn :=
| ValueError (message : String.string)
| KeyError (key : Z)
| LookupError
| ZeroDivisionError
| RuntimeError (cause : exn).

(** [try: body except Exception as e: raise RuntimeError(f"...{e}")] *)
Definition reraise {A} (r : exn + A) : exn + A :=
  match r with
  | inl e => inl (RuntimeError e)
  | inr a => inr a
  end.

(** ** backend/service/worker_update.py *)

(** [rapidfuzz.distance.Levenshtein.distance] with its default weights: the
    least number of single-character insertions, deletions and substitutions
    that turn one string into the other.  The table of Wagner and Fischer is
    computed one row per character of [s]; [prev] is the row above,
    [left] the entry to the left. *)
Fixpoint next_row (a : char) (t : str) (prev : list nat) (left : nat) : list nat :=
  match t, prev with
  | b :: t', diag :: ((up :: _) as prev') =>
    let cur := Nat.min (Nat.min (S up) (S left))
                       (if a =? b then diag else S diag) in
    cur :: next_row a t' prev' cur
  | _, _ => []
  end.

Definition levenshtein_rows (s t : str) : list nat :=
  fold_left (λ row a, S (List.hd O row) :: next_row a t row (S (List.hd O row)))
            s (seq 0 (S (length t))).

Definition levenshtein (s t : str) : nat := List.last (levenshtein_rows s t) O.

(** [get_similarity].  Python evaluates the quotient and the difference in
    binary64; the model keeps the exact rational.  The one use that
    [update_laws] makes of the result is the comparison with the literal
    [0.85], and there the two give the same answer on strings of fewer than
    10^15 characters.  When [distance / longest] is at least 3/20, the rounded
    quotient is at least the double of 0.15, and 1 minus that double rounds to
    the double of 0.85.  When it is less, it is less by 1/(20 * longest) or
    more, which is more than the two roundings can make up for. *)
Definition get_similarity (old_content new_content : str) : exn + Q :=
  let distance := levenshtein old_content new_content in
  let longest := Nat.max (length new_content) (length old_content) in
  if (longest =? 0)%nat then inl ZeroDivisionError
  else inr (1 - inject_Z (Z.of_nat distance) / inject_Z (Z.of_nat longest))%Q.

(** The similarity threshold, the literal [0.85]. *)
Definition threshold : Q := 85 # 100.

(** The calls that the worker makes on the vector store adapter
    ([self.weaviate_instance]): [delete_law_number(law_number)] and
    [append([(law_number, embedding, text)])], where the embedding is that of
    [content].  The adapter and the embedding model are collaborators: the
    model records the calls and takes them to return normally. *)
Inductive store_call :=
| delete_law_number (law_number : Z)
| append (law_number : Z) (content text : str).

(** A [WorkerUpdate] object: the list [self.low_similarity_laws], and the calls
    its store adapter has received so far, oldest first. *)
Record WorkerUpdate := {
  low_similarity_laws : list Z;
  weaviate_instance : list store_call
}.

(** [WorkerUpdate.__init__] *)
Definition __init__ : WorkerUpdate :=
  {| low_similarity_laws := []; weaviate_instance := [] |}.

(** Methods run in a state-and-exception monad over the object: a raised
    exception leaves the mutations made so far in place. *)
Definition M (A : Type) : Type := WorkerUpdate → (exn + A) * WorkerUpdate.

#[global] Instance M_ret : MRet M := λ A a self, (inr a, self).
#[global] Instance M_bind : MBind M := λ A B f m self,
  match m self with
  | (inl e, self') => (inl e, self')
  | (inr a, self') => f a self'
  end.

Definition raise {A} (e : exn) : M A := λ self, (inl e, self).

Definition lift {A} (r : exn + A) : M A := λ self, (r, self).

Definition try_reraise {A} (body : M A) : M A := λ self,
  let (r, self') := body self in (reraise r, self').

Definition call (c : store_call) : M unit := λ self,
  (inr (), {| low_similarity_laws := low_similarity_laws self;
              weaviate_instance := weaviate_instance self ++ [c] |}).

(** [self.low_similarity_laws.append(law_number)] *)
Definition mark (law_number : Z) : M unit := λ self,
  (inr (), {| low_similarity_laws := low_similarity_laws self ++ [law_number];
              weaviate_instance := weaviate_instance self |}).

Definition get_low_similarity_laws : M (list Z) := λ self,
  (inr (low_similarity_laws self), self).

Fixpoint for_each {A} (l : list A) (body : A → M unit) : M unit :=
  match l with
  | [] => mret ()
  | x :: l' => body x ;; for_each l' body
  end.

(** One object of the class [Document] as the store returns it:
    [doc.get("law_number")] and [doc.get("text")], [None] when missing. *)
Record document := { doc_law_number : option Z; doc_text : option str }.

(** [get_existing_laws], on the objects that the query returned.  An entry is
    recorded when [law_number and text] is true: neither is [None], the number
    is not 0 and the text is not empty. *)
Definition get_existing_laws (documents : list document) : dict str :=
  fold_left
    (λ existing_laws doc,
       match doc_law_number doc, doc_text doc with
       | Some law_number, Some text =>
         if negb (law_number =? 0) && negb (bool_decide (text = []))
         then dict_set law_number text existing_laws
         else existing_laws
       | _, _ => existing_laws
       end)
    documents [].

(** [embed_and_save] *)
Definition embed_and_save (law_number : Z) (content : str) : M unit :=
  try_reraise
    (if bool_decide (strip content = [])
     then raise (ValueError "No content provided for embedding"%string)
     else call (append law_number content (strip content))).

(** [delete_low_similarity_laws] *)
Definition delete_low_similarity_laws : M unit :=
  try_reraise
    (laws ← get_low_similarity_laws;
     for_each laws (λ law_number, call (delete_law_number law_number))).

(** [d[k]] *)
Definition subscript {V} (d : dict V) (k : Z) : exn + V :=
  match dict_get k d with
  | Some v => inr v
  | None => inl (KeyError k)
  end.

(** The body of the comparison loop of [update_laws]. *)
Definition compare_law (existing_laws : dict str) (item : Z * str) : M unit :=
  let '(law_number, new_content) := item in
  match dict_get law_number existing_laws with
  | Some old_content =>
    similarity ← lift (get_similarity old_content new_content);
    if Qle_bool similarity threshold then mark law_number else mret ()
  | None => embed_and_save law_number new_content
  end.

(** The body of the last loop of [update_laws]:
    [self.embed_and_save(law_number, new_laws[law_number])]. *)
Definition reinsert (new_laws : dict str) (law_number : Z) : M unit :=
  content ← lift (subscript new_laws law_number);
  embed_and_save law_number content.

(** [update_laws]; [documents] is what the store returns to the query of
    [get_existing_laws]. *)
Definition update_laws (documents : list document) (new_laws : dict str) : M unit :=
  try_reraise
    (let existing_laws := get_existing_laws documents in
     for_each new_laws (compare_law existing_laws);;
     delete_low_similarity_laws;;
     laws ← get_low_similarity_laws;
     for_each laws (reinsert new_laws)).

(** ** backend/data/shared/text_processing.py

    The module matches with the third-party [regex] package.  What its class
    [\w] contains is decided by the Unicode character database that the package
    ships; the embedding takes that class as the parameter [word]. *)

Section text_processing.

Variable word : char → bool.

(** [remove_html_tags]: [re.sub(r"<[^>]*>", "", text)].  A match starts at a
    [<] that has a [>] somewhere after it and runs to the first such [>]. *)
Fixpoint remove_tags (in_tag : bool) (text : str) : str :=
  match text with
  | [] => []
  | c :: rest =>
    if in_tag then remove_tags (negb (c =? 62)) rest
    else if (c =? 60) && bool_decide (62 ∈ rest) then remove_tags true rest
    else c :: remove_tags false rest
  end.

Definition remove_html_tags (text : str) : str := remove_tags false text.

(** The two tables of [convert_unicode] after [split("|")]: in [char1252] a
    base letter followed by a combining tone mark (U+0300 grave, U+0301 acute,
    U+0309 hook above, U+0303 tilde, U+0323 dot below), in [charutf8] the
    single precomposed letter. *)
Definition char1252 : list str :=
  [
   [97; 768]; [97; 769]; [97; 777]; [97; 771]; [97; 803]; [226; 768]; [226; 769]; [226;
   777]; [226; 771]; [226; 803]; [259; 768]; [259; 769]; [259; 777]; [259; 771]; [259;
   803]; [101; 768]; [101; 769]; [101; 777]; [101; 771]; [101; 803]; [234; 768]; [234;
   769]; [234; 777]; [234; 771]; [234; 803]; [105; 768]; [105; 769]; [105; 777]; [105;
   771]; [105; 803]; [111; 768]; [111; 769]; [111; 777]; [111; 771]; [111; 803]; [244;
   768]; [244; 769]; [244; 777]; [244; 771]; [244; 803]; [417; 768]; [417; 769]; [417;
   777]; [417; 771]; [417; 803]; [117; 768]; [117; 769]; [117; 777]; [117; 771]; [117;
   803]; [432; 768]; [432; 769]; [432; 777]; [432; 771]; [432; 803]; [121; 768]; [121;
   769]; [121; 777]; [121; 771]; [121; 803]; [65; 768]; [65; 769]; [65; 777]; [65; 771];
   [65; 803]; [194; 768]; [194; 769]; [194; 777]; [194; 771]; [194; 803]; [258; 768];
   [258; 769]; [258; 777]; [258; 771]; [258; 803]; [69; 768]; [69; 769]; [69; 777]; [69;
   771]; [69; 803]; [202; 768]; [202; 769]; [202; 777]; [202; 771]; [202; 803]; [73;
   768]; [73; 769]; [73; 777]; [73; 771]; [73; 803]; [79; 768]; [79; 769]; [79; 777];
   [79; 771]; [79; 803]; [212; 768]; [212; 769]; [212; 777]; [212; 771]; [212; 803];
   [416; 768]; [416; 769]; [416; 777]; [416; 771]; [416; 803]; [85; 768]; [85; 769];
   [85; 777]; [85; 771]; [85; 803]; [431; 768]; [431; 769]; [431; 777]; [431; 771];
   [431; 803]; [89; 768]; [89; 769]; [89; 777]; [89; 771]; [89; 803]
  ].

Definition charutf8 : list str :=
  [
   [224]; [225]; [7843]; [227]; [7841]; [7847]; [7845]; [7849]; [7851]; [7853]; [7857];
   [7855]; [7859]; [7861]; [7863]; [232]; [233]; [7867]; [7869]; [7865]; [7873]; [7871];
   [7875]; [7877]; [7879]; [236]; [237]; [7881]; [297]; [7883]; [242]; [243]; [7887];
   [245]; [7885]; [7891]; [7889]; [7893]; [7895]; [7897]; [7901]; [7899]; [7903];
   [7905]; [7907]; [249]; [250]; [7911]; [361]; [7909]; [7915]; [7913]; [7917]; [7919];
   [7921]; [7923]; [253]; [7927]; [7929]; [7925]; [192]; [193]; [7842]; [195]; [7840];
   [7846]; [7844]; [7848]; [7850]; [7852]; [7856]; [7854]; [7858]; [7860]; [7862];
   [200]; [201]; [7866]; [7868]; [7864]; [7872]; [7870]; [7874]; [7876]; [7878]; [204];
   [205]; [7880]; [296]; [7882]; [210]; [211]; [7886]; [213]; [7884]; [7890]; [7888];
   [7892]; [7894]; [7896]; [7900]; [7898]; [7902]; [7904]; [7906]; [217]; [218]; [7910];
   [360]; [7908]; [7914]; [7912]; [7916]; [7918]; [7920]; [7922]; [221]; [7926]; [7928];
   [7924]
  ].

(** [{char1252[i]: charutf8[i] for i in range(len(char1252))}]; the keys are
    pairwise distinct, so the first entry of a key is its only one. *)
Definition conversion_dict : list (str * str) := zip char1252 charutf8.

Fixpoint starts_with (key text : str) : bool :=
  match key, text with
  | [], _ => true
  | k :: key', c :: text' => (k =? c) && starts_with key' text'
  | _ :: _, [] => false
  end.

(** [re.sub("|".join(keys), lambda x: conversion_dict[x.group()], text)]: at
    each position the first key that the text continues with is replaced by
    its entry, and matching resumes behind the key; [skip] counts the
    characters of a matched key that are still to be passed over. *)
Fixpoint convert_from (skip : nat) (text : str) : str :=
  match text with
  | [] => []
  | c :: rest =>
    match skip with
    | S n => convert_from n rest
    | O =>
      match find (λ entry, starts_with entry.1 text) conversion_dict with
      | Some (key, value) => value ++ convert_from (length key - 1) rest
      | None => c :: convert_from 0 rest
      end
    end
  end.

Definition convert_unicode (text : str) : str := convert_from 0 text.

(** [vowels_table]: each row holds a vowel, its five toned forms (grave,
    acute, hook, tilde, dot below) and, last, its Telex spelling.  The row is
    kept as the pair of [row[:-1]] and [row[-1]]. *)
Definition vowels_table : list (list char * str) :=
  [
    ([97; 224; 225; 7843; 227; 7841], u"a");
    ([259; 7857; 7855; 7859; 7861; 7863], u"aw");
    ([226; 7847; 7845; 7849; 7851; 7853], u"aa");
    ([101; 232; 233; 7867; 7869; 7865], u"e");
    ([234; 7873; 7871; 7875; 7877; 7879], u"ee");
    ([105; 236; 237; 7881; 297; 7883], u"i");
    ([111; 242; 243; 7887; 245; 7885], u"o");
    ([244; 7891; 7889; 7893; 7895; 7897], u"oo");
    ([417; 7901; 7899; 7903; 7905; 7907], u"ow");
    ([117; 249; 250; 7911; 361; 7909], u"u");
    ([432; 7915; 7913; 7917; 7919; 7921], u"uw");
    ([121; 7923; 253; 7927; 7929; 7925], u"y")
  ].

Fixpoint index_of (c : char) (l : list char) : option nat :=
  match l with
  | [] => None
  | x :: l' => if x =? c then Some O else S <$> index_of c l'
  end.

Fixpoint find_vowel (c : char) (rows : list (list char * str)) : option (nat * nat) :=
  match rows with
  | [] => None
  | row :: rows' =>
    match index_of c row.1 with
    | Some j => Some (O, j)
    | None => (λ ij, (S ij.1, ij.2)) <$> find_vowel c rows'
    end
  end.

(** [vowels_to_ids]: [None] stands for a character that is not a key (the
    vowels of the table are pairwise distinct, so each has one entry). *)
Definition vowels_to_ids (c : char) : option (nat * nat) := find_vowel c vowels_table.

(** [vowels_table[row][col]] for a column of [row[:-1]]; [None] is an
    [IndexError]. *)
Definition table_at (row col : nat) : option char :=
  r ← vowels_table !! row; r.1 !! col.

(** [chars[idx] = c]; [None] is an [IndexError]. *)
Definition set_item (chars : str) (idx : nat) (c : char) : option str :=
  if (idx <? length chars)%nat then Some (<[idx := c]> chars) else None.

(** The first loop of [standardize_word_typing], from index [idx] on.  The
    loop reads [chars[idx]] before it writes that one item, so it reads the
    characters of the word. *)
Fixpoint scan_vowels (idx : nat) (todo : str)
    (chars : str) (tone_mark : nat) (vowel_positions : list nat)
    : option (str * nat * list nat) :=
  match todo with
  | [] => Some (chars, tone_mark, vowel_positions)
  | char :: todo' =>
    match vowels_to_ids char with
    | Some (row, col) =>
      if (col =? 0)%nat
      then scan_vowels (S idx) todo' chars tone_mark (vowel_positions ++ [idx])
      else
        base ← table_at row 0;
        chars' ← set_item chars idx base;
        scan_vowels (S idx) todo' chars' col (vowel_positions ++ [idx])
    | None => scan_vowels (S idx) todo' chars tone_mark vowel_positions
    end
  end.

(** [row, col = vowels_to_ids[chars[pos]]; chars[pos] = vowels_table[row][tone_mark]] *)
Definition put_tone (chars : str) (pos tone_mark : nat) : option str :=
  c ← chars !! pos;
  ids ← vowels_to_ids c;
  toned ← table_at ids.1 tone_mark;
  set_item chars pos toned.

(** The second loop: the first vowel of row 4 or 8 takes the tone mark and the
    function returns ([Some (Some _)]); [Some None] when the loop ends. *)
Fixpoint prioritize (chars : str) (tone_mark : nat) (positions : list nat)
    : option (option str) :=
  match positions with
  | [] => Some None
  | pos :: rest =>
    c ← chars !! pos;
    ids ← vowels_to_ids c;
    if (ids.1 =? 4)%nat || (ids.1 =? 8)%nat
    then Some <$> put_tone chars pos tone_mark
    else prioritize chars tone_mark rest
  end.

(** [standardize_word_typing]; [None] is a [KeyError] or an [IndexError]. *)
Definition standardize_word_typing (word0 : str) : option str :=
  st ← scan_vowels 0 word0 word0 0 [];
  let '(chars, tone_mark, vowel_positions) := st in
  if (length vowel_positions <? 2)%nat then
    match vowel_positions with
    | pos :: _ => put_tone chars pos tone_mark
    | [] => Some chars
    end
  else
    early ← prioritize chars tone_mark vowel_positions;
    match early with
    | Some result => Some result
    | None => pos ← vowel_positions !! 1%nat; put_tone chars pos tone_mark
    end.

(** [standardize_sentence_typing] *)
Definition standardize_sentence_typing (text : str) : option str :=
  standardized_words ← mapM standardize_word_typing (split text);
  Some (join (u" ") standardized_words).

(** [\s] of the [regex] package: the characters with the Unicode property
    White_Space.  They are among those of [isspace]; the four others (U+001C
    to U+001F) never reach the step that uses this class, because
    [standardize_sentence_typing] has split the text at them before. *)
Definition regex_space (c : char) : bool :=
  ((9 <=? c) && (c <=? 13)) || (c =? 32)
  || (c =? 133) || (c =? 160) || (c =? 5760)
  || ((8192 <=? c) && (c <=? 8202)) || (c =? 8232) || (c =? 8233)
  || (c =? 8239) || (c =? 8287) || (c =? 12288).

(** The letters that the class of [remove_unnecessary_characters] lists after
    [\s\w]: the lower-case Vietnamese letters with a diacritic, and [đ]. *)
Definition listed_letters : str :=
  [
   225; 224; 7843; 227; 7841; 259; 7855; 7857; 7859; 7861; 7863; 226; 7845; 7847; 7849;
   7851; 7853; 233; 232; 7867; 7869; 7865; 234; 7871; 7873; 7875; 7877; 7879; 243; 242;
   7887; 245; 7885; 244; 7889; 7891; 7893; 7895; 7897; 417; 7899; 7901; 7903; 7905;
   7907; 237; 236; 7881; 297; 7883; 250; 249; 7911; 361; 7909; 432; 7913; 7915; 7917;
   7919; 7921; 253; 7923; 7927; 7929; 7925; 273
  ].

(** A character outside the class [[^\s\w...đ_]], one that stays. *)
Definition kept (c : char) : bool :=
  regex_space c || word c || bool_decide (c ∈ listed_letters) || (c =? 95).

(** [re.sub(r"\s+", " ", text)] *)
Fixpoint squeeze (in_run : bool) (text : str) : str :=
  match text with
  | [] => []
  | c :: rest =>
    if regex_space c
    then (if in_run then squeeze true rest else 32 :: squeeze true rest)
    else c :: squeeze false rest
  end.

(** [remove_unnecessary_characters] *)
Definition remove_unnecessary_characters (text : str) : str :=
  let text := map (λ c, if kept c then c else 32) text in
  strip (squeeze false text).

(** [text_preprocess] *)
Definition text_preprocess (text : str) : option str :=
  let text := remove_html_tags text in
  let text := convert_unicode text in
  text ← standardize_sentence_typing text;
  Some (remove_unnecessary_characters text).

End text_processing.

(** ** backend/data/pdf/pdf_processing.py

    A PDF file is the list of the texts of its pages.  The class [\d] of [re]
    and the digits that [int] reads are the characters of the Unicode category
    Nd; [decimal c] is the value of such a character and [None] for any other
    character. *)

Section pdf_processing.

Variable word : char → bool.
Variable decimal : char → option Z.

(** [range(a, b)] *)
Definition range (a b : Z) : list Z :=
  map (λ i, a + Z.of_nat i) (seq 0 (Z.to_nat (b - a))).

Fixpoint pages_from (pageno : Z) (pages : list str) (pagenos : list Z) : str :=
  match pages with
  | [] => []
  | page :: rest =>
    (if bool_decide (pageno ∈ pagenos) then page else [])
    ++ pages_from (pageno + 1) rest pagenos
  end.

(** [pdfminer.high_level.extract_text(pdf_file, page_numbers=...)]: the text
    of the pages whose zero-based index is in [page_numbers], in the order of
    the file.  The library skips a page under the test
    [pagenos and (pageno not in pagenos)], so that [None] and an empty
    collection both select every page. *)
Definition pdfminer_extract_text (pdf_file : list str) (page_numbers : option (list Z)) : str :=
  match page_numbers with
  | Some (p :: ps) => pages_from 0 pdf_file (p :: ps)
  | _ => concat pdf_file
  end.

(** The truth value of an optional integer argument. *)
Definition truthy (n : option Z) : bool :=
  match n with
  | Some v => negb (v =? 0)
  | None => false
  end.

(** [extract_text_from_pdf] *)
Definition extract_text_from_pdf (pdf_file : list str) (start_page end_page : option Z) : str :=
  pdfminer_extract_text pdf_file
    (match start_page, end_page with
     | Some s, Some e => if truthy start_page && truthy end_page then Some (range s e) else None
     | _, _ => None
     end).

(** [is_pdf_scanned]: [not bool(text.strip())] on the text of the whole file. *)
Definition is_pdf_scanned (pdf_file : list str) : bool :=
  let text := pdfminer_extract_text pdf_file None in
  bool_decide (strip text = []).

(** [extract_text_by_page].  [len(PdfReader(pdf_file).pages)] is the number of
    pages of the file; [end_page or total_pages] replaces an end that is [None]
    or 0.  The library call in the loop is taken to return normally, as in
    [extract_text_from_pdf], so that the handler that records an error text
    for a page is not entered. *)
Definition extract_text_by_page (pdf_file : list str) (start_page : Z) (end_page : option Z)
    : exn + list str :=
  let total_pages := Z.of_nat (length pdf_file) in
  let end_page := if truthy end_page then default 0 end_page else total_pages in
  if (start_page <? 1) || (end_page <? start_page)
  then inl (ValueError "Invalid page range."%string)
  else inr (map (λ page_num, pdfminer_extract_text pdf_file (Some [page_num - 1]))
                (range start_page (end_page + 1))).

(** The literal head of a boundary marker, with its blank. *)
Definition marker_head : str := u"Điều ".

(** [\d+] at the start of [text]: the values of the longest run of digits. *)
Fixpoint digits (text : str) : list Z :=
  match text with
  | [] => []
  | c :: rest =>
    match decimal c with
    | Some v => v :: digits rest
    | None => []
    end
  end.

(** [\d+\.] with its backtracking: the longest run of at least one and at
    most [n] digits at the start of [rest] that a full stop follows. *)
Fixpoint digits_then_stop (n : nat) (rest : str) : option nat :=
  match n with
  | O => None
  | S k =>
    if bool_decide (rest !! n = Some 46) then Some n else digits_then_stop k rest
  end.

(** The length of the match of [Điều \d+\.] at the start of [text]. *)
Definition marker (text : str) : option nat :=
  if starts_with marker_head text then
    let rest := drop (length marker_head) text in
    n ← digits_then_stop (length (digits rest)) rest;
    Some (length marker_head + n + 1)%nat
  else None.

(** [re.finditer(r"(Điều \d+\..*?)(?=(Điều \d+\.|\Z))", text, flags=re.DOTALL)],
    as the list of the [match.group(0)].  A match opens at a marker; behind
    the marker ([inside] counts what is left of it) the lazy [.*?] takes one
    character at a time until a marker or the end of the text follows.  The
    search for the next match resumes where the last one ended.  [current] is
    the open match, latest character first. *)
Fixpoint finditer (current : option str) (inside : nat) (text : str) : list str :=
  match text with
  | [] =>
    match current with
    | Some acc => [rev acc]
    | None => []
    end
  | c :: rest =>
    match current with
    | None =>
      match marker text with
      | Some n => finditer (Some [c]) (n - 1) rest
      | None => finditer None 0 rest
      end
    | Some acc =>
      match inside with
      | S n => finditer (Some (c :: acc)) n rest
      | O =>
        match marker text with
        | Some n => rev acc :: finditer (Some [c]) (n - 1) rest
        | None => finditer (Some (c :: acc)) 0 rest
        end
      end
    end
  end.

(** [int(digits)] from the values of the digits *)
Definition int (values : list Z) : Z := fold_left (λ n v, 10 * n + v) values 0.

(** The number that [int(re.match(r"Điều (\d+)", group).group(1))] returns on
    a match of [finditer] when it returns one: the value of the run of digits
    behind the head of the marker. *)
Definition law_number_of (group : str) : Z :=
  int (digits (drop (length marker_head) group)).

(** [sys.get_int_max_str_digits()]: CPython refuses to convert a string of
    more decimal digits than this to an integer.  The limit is 4300 unless
    the interpreter is configured otherwise; it counts every digit of the
    string, leading zeros included. *)
Definition int_max_str_digits : Z := 4300.

(** The assignment [law_number = int(re.match(...).group(1))] of the loop:
    the number of the match, or the [ValueError] of the conversion when the
    run of digits is longer than the limit.  The pattern of [re.match] always
    matches a match of [finditer], which begins with a marker. *)
Definition read_law_number (group : str) : exn + Z :=
  let run := digits (drop (length marker_head) group) in
  if int_max_str_digits <? Z.of_nat (length run)
  then inl (ValueError "Exceeds the limit (4300 digits) for integer string conversion"%string)
  else inr (int run).

(** The loop of [extract_laws_from_text] over the matches. *)
Fixpoint collect_laws (matches : list str) (law_dict : dict str) : exn + dict str :=
  match matches with
  | [] => inr law_dict
  | group :: rest =>
    match read_law_number group with
    | inl e => inl e
    | inr law_number => collect_laws rest (dict_set law_number (strip group) law_dict)
    end
  end.

(** [extract_laws_from_text]: when the loop raises, the handler returns the
    empty dictionary. *)
Definition extract_laws_from_text (text : str) : dict str :=
  match collect_laws (finditer None 0 text) [] with
  | inr law_dict => law_dict
  | inl _ => []
  end.

(** [count_words_in_text], on a string *)
Definition count_words_in_text (text : str) : Z := Z.of_nat (length (split text)).

(** The dictionary comprehension of [filter_laws_by_length], item by item;
    [None] is an exception raised by [text_preprocess]. *)
Fixpoint filter_items (items : list (Z * str)) (min_length : Z) (filtered : dict str)
    : option (dict str) :=
  match items with
  | [] => Some filtered
  | (number, content) :: rest =>
    if min_length <=? count_words_in_text content
    then text ← text_preprocess word content;
         filter_items rest min_length (dict_set number text filtered)
    else filter_items rest min_length filtered
  end.

(** [filter_laws_by_length] *)
Definition filter_laws_by_length (laws : dict str) (min_length : Z) : option (dict str) :=
  filter_items laws min_length [].

(** ** backend/service/file_processing_service.py *)

Inductive FileType := PDF | SCANNED.

(** The first step of [process_file]: the text of the file, from its text
    layer or by recognition according to the file type.  [ocr_text] is what
    the conversion to images followed by [perform_ocr_on_directory] returns
    for the file and the page window: rendering and recognition are
    collaborators. *)
Definition extract_text (pdf_file : list str) (ocr_text : str) (file_type : FileType)
    (start_page end_page : option Z) : str :=
  match file_type with
  | PDF => extract_text_from_pdf pdf_file start_page end_page
  | SCANNED => ocr_text
  end.

(** [process_file], on a saved file.  [LookupError] stands for an exception
    out of [text_preprocess]. *)
Definition process_file (pdf_file : list str) (ocr_text : str) (file_type : FileType)
    (start_page end_page : option Z) (min_word : Z) : exn + dict str :=
  reraise
    (let extracted_text := extract_text pdf_file ocr_text file_type start_page end_page in
     if bool_decide (extracted_text = [])
     then inl (ValueError "No text could be extracted from the file"%string)
     else
       let split_content := extract_laws_from_text extracted_text in
       if bool_decide (split_content = [])
       then inl (ValueError "Failed to split content from the extracted text"%string)
       else
         match filter_laws_by_length split_content min_word with
         | Some filtered_text => inr filtered_text
         | None => inl LookupError
         end).

End pdf_processing.

(** ** backend/app/vector/dbs/weaviate_db.py *)

(** One call [batch.add_object(properties=obj, uuid=obj_uuid, vector=vector)]:
    the properties [law_number], [text] and [doc_id] of the object; the
    identifier is [generate_uuid5(obj['doc_id'])], a function of [doc_id]; the
    vector, when there is one, is the embedding of [vector]. *)
Record batch_call := add_object {
  obj_law_number : Z;
  obj_text : str;
  obj_doc_id : Z;
  obj_vector : option str
}.

(** A [WeaviateClient] object: [self.offset], and the calls that the batch of
    its collection has received so far, oldest first. *)
Record WeaviateClient := {
  offset : Z;
  batch : list batch_call
}.

(** What [WeaviateClient.__init__] leaves: [self.offset = 0]. *)
Definition WeaviateClient__init__ : WeaviateClient := {| offset := 0; batch := [] |}.

(** The loop of [insert_objects], from index [i] on; [vectors[i]] raises an
    [IndexError] ([LookupError]) behind the end of a list that is not empty. *)
Fixpoint add_objects (i : nat) (objects : list (Z * str)) (vectors : list str)
    (self : WeaviateClient) : (exn + unit) * WeaviateClient :=
  match objects with
  | [] => (inr (), self)
  | (law_number, text) :: rest =>
    let doc_id := offset self + Z.of_nat i + 1 in
    match (if bool_decide (vectors = []) then Some None else Some <$> vectors !! i) with
    | Some vector =>
      add_objects (S i) rest vectors
        {| offset := offset self;
           batch := batch self ++ [add_object law_number text doc_id vector] |}
    | None => (inl LookupError, self)
    end
  end.

(** [insert_objects]: both handlers raise the exception again. *)
Definition insert_objects (objects : list (Z * str)) (vectors : list str)
    (self : WeaviateClient) : (exn + unit) * WeaviateClient :=
  add_objects 0 objects vectors self.

(** ** backend/service/file_processing_service.py, the storing half

    The service holds the client as [self.weaviate_instance]; the embedding
    model is a collaborator, and a vector is stood for by the content it is
    the embedding of. *)

(** [save_data] *)
Definition save_data (objects : list (Z * str)) (embeddings : list str)
    (self : WeaviateClient) : (exn + unit) * WeaviateClient :=
  let (r, self') :=
    if bool_decide (embeddings = []) || bool_decide (objects = [])
    then (inl (ValueError "No embeddings or objects provided for saving."%string), self)
    else insert_objects objects embeddings self in
  (reraise r, self').

(** [embedding_data]: the loop keeps the entries whose content has a character
    that is not white space. *)
Definition embedding_data (filtered_text : dict str)
    (self : WeaviateClient) : (exn + unit) * WeaviateClient :=
  let (r, self') :=
    if bool_decide (filtered_text = [])
    then (inl (ValueError "No text provided for embedding"%string), self)
    else
      let objects :=
        List.filter (λ item, negb (bool_decide (strip item.2 = []))) filtered_text in
      let vectors := map snd objects in
      save_data objects vectors self in
  (reraise r, self').

(** The decimal digits of ASCII, the digits of the texts written below. *)
Definition ascii_decimal (c : char) : option Z :=
  if (48 <=? c) && (c <=? 57) then Some (c - 48) else None.

(** A word class for the texts written below: the letters and digits of
    ASCII, the underscore, and the letters of the Latin blocks that Vietnamese
    is written with (U+00C0 to U+024F but the two operators, and U+1E00 to
    U+1EFF). *)
Definition latin_word (c : char) : bool :=
  ((48 <=? c) && (c <=? 57)) || ((65 <=? c) && (c <=? 90))
  || ((97 <=? c) && (c <=? 122)) || (c =? 95)
  || ((192 <=? c) && (c <=? 591) && negb (c =? 215) && negb (c =? 247))
  || ((7680 <=? c) && (c <=? 7935)).

(** ** Vocabulary of the statements *)

(** The object after further marks and further store calls. *)
Definition extend (self : WorkerUpdate) (marks : list Z) (cs : list store_call) : WorkerUpdate :=
  {| low_similarity_laws := low_similarity_laws self ++ marks;
     weaviate_instance := weaviate_instance self ++ cs |}.

(** Whether the comparison loop marks an item of the new laws: its key has
    an entry in the snapshot and the similarity is at most the threshold. *)
Definition is_marked (existing_laws : dict str) (item : Z * str) : bool :=
  match dict_get item.1 existing_laws with
  | Some old_content =>
    match get_similarity old_content item.2 with
    | inr similarity => Qle_bool similarity threshold
    | inl _ => false
    end
  | None => false
  end.

(** The keys that the comparison loop marks, in the order of the items. *)
Fixpoint marks (existing_laws : dict str) (items : list (Z * str)) : list Z :=
  match items with
  | [] => []
  | item :: rest =>
    if is_marked existing_laws item
    then item.1 :: marks existing_laws rest
    else marks existing_laws rest
  end.

(** The store calls of the comparison loop: one for each item whose key the
    snapshot lacks. *)
Fixpoint inserts (existing_laws : dict str) (items : list (Z * str)) : list store_call :=
  match items with
  | [] => []
  | (k, v) :: rest =>
    match dict_get k existing_laws with
    | None => append k v (strip v) :: inserts existing_laws rest
    | Some _ => inserts existing_laws rest
    end
  end.

Definition deletions (laws : list Z) : list store_call := map delete_law_number laws.

(** The store calls of the last loop when every key has an entry in the new
    laws. *)
Fixpoint reinserts (new_laws : dict str) (laws : list Z) : list store_call :=
  match laws with
  | [] => []
  | k :: rest =>
    match dict_get k new_laws with
    | Some v => append k v (strip v) :: reinserts new_laws rest
    | None => reinserts new_laws rest
    end
  end.

(** The key that a store call is about. *)
Definition call_key (c : store_call) : Z :=
  match c with
  | delete_law_number k => k
  | append k _ _ => k
  end.

Definition is_delete (c : store_call) : bool :=
  match c with
  | delete_law_number _ => true
  | append _ _ _ => false
  end.

(** The store calls that a run of a method added to the log. *)
Definition issued (before after : WorkerUpdate) : list store_call :=
  drop (length (weaviate_instance before)) (weaviate_instance after).

(** The exception that [embed_and_save] raises on a content without a
    character that is not white space. *)
Definition no_content : exn :=
  RuntimeError (ValueError "No content provided for embedding"%string).

(** The order of a batch in two phases: every [delete_law_number] is issued
    before every [append]. *)
Definition deletions_first (cs : list store_call) : Prop :=
  ∀ i j ci cj,
    cs !! i = Some ci → cs !! j = Some cj →
    is_delete ci = true → is_delete cj = false → (i < j)%nat.

(** A stored object with both properties. *)
Definition stored (law_number : Z) (text : str) : document :=
  {| doc_law_number := Some law_number; doc_text := Some text |}.

(** Texts of the examples. *)
Definition law5_old : str := u"Điều 5. Nội dung A".
Definition law5_new : str := u"Điều 5. Hoàn toàn khác".
Definition law6_old : str := u"Điều 6. Nội dung B".
Definition law6_new : str := u"Điều 6. Hoàn toàn khác".
Definition law7 : str := u"Điều 7. Quy định mới".

(** The text of the pages [first] to [last] of a file, both included, when
    pages are numbered from 1. *)
Definition page_window (pdf_file : list str) (first last : Z) : str :=
  concat (take (Z.to_nat (last - first + 1)) (drop (Z.to_nat (first - 1)) pdf_file)).

(** A file of three pages. *)
Definition three_pages : list str := [u"Điều 1. A "; u"Điều 2. B "; u"Điều 3. C"].

(** Whether a boundary marker [Điều <digits>.] starts somewhere in a text. *)
Fixpoint contains_marker (decimal : char → option Z) (text : str) : bool :=
  match text with
  | [] => false
  | _ :: rest => bool_decide (is_Some (marker decimal text)) || contains_marker decimal rest
  end.

(** A match whose run of digits is too long for [int]. *)
Definition overlong (decimal : char → option Z) (group : str) : bool :=
  int_max_str_digits <? Z.of_nat (length (digits decimal (drop (length marker_head) group))).

(** A match of [finditer]: from a position where a marker starts, to a
    position behind that marker. *)
Definition is_group (decimal : char → option Z) (text group : str) : Prop :=
  ∃ i n m, marker decimal (drop i text) = Some n ∧ (n ≤ m)%nat
    ∧ group = take m (drop i text).

(** *** The normaliser, word by word *)

(** A vowel without its tone mark, any other character as it is. *)
Definition base (c : char) : char :=
  match vowels_to_ids c with
  | Some (row, _) => default c (table_at row 0)
  | None => c
  end.

Definition is_vowel (c : char) : bool := bool_decide (is_Some (vowels_to_ids c)).

(** The tone mark that the first loop of [standardize_word_typing] leaves:
    that of the last vowel that bears one. *)
Fixpoint tone_after (tone_mark : nat) (word0 : str) : nat :=
  match word0 with
  | [] => tone_mark
  | c :: rest =>
    match vowels_to_ids c with
    | Some (_, S col) => tone_after (S col) rest
    | _ => tone_after tone_mark rest
    end
  end.

(** The indices of the vowels of a word whose first character has index
    [idx]. *)
Fixpoint positions_from (idx : nat) (word0 : str) : list nat :=
  match word0 with
  | [] => []
  | c :: rest =>
    if is_vowel c then idx :: positions_from (S idx) rest
    else positions_from (S idx) rest
  end.

(** Whether the character at a position is a vowel of row 4 or 8. *)
Definition has_priority (chars : str) (pos : nat) : bool :=
  match chars !! pos ≫= vowels_to_ids with
  | Some (row, _) => (row =? 4)%nat || (row =? 8)%nat
  | None => false
  end.

(** The position that takes the tone mark: the only vowel; among several, the
    first of row 4 or 8, or else the second vowel. *)
Definition tone_position (chars : str) (positions : list nat) : option nat :=
  if (length positions <? 2)%nat then head positions
  else match find (has_priority chars) positions with
       | Some pos => Some pos
       | None => positions !! 1%nat
       end.

(** The characters with the tone mark put on the vowel at a position. *)
Definition toned (chars : str) (pos tone_mark : nat) : str :=
  match chars !! pos ≫= vowels_to_ids with
  | Some (row, _) =>
    match table_at row tone_mark with
    | Some c => <[pos := c]> chars
    | None => chars
    end
  | None => chars
  end.

(** What [standardize_word_typing] returns. *)
Definition standardized (word0 : str) : str :=
  match tone_position (map base word0) (positions_from 0 word0) with
  | Some pos => toned (map base word0) pos (tone_after 0 word0)
  | None => map base word0
  end.

(** The vowels of the table, with and without tone mark. *)
Definition table_chars : list char := concat (map fst vowels_table).

(** The five combining tone marks, the second characters of the keys of
    [conversion_dict]. *)
Definition tone_marks : list char := [768; 769; 777; 771; 803].

(** A word of [split]: not empty, without white space. *)
Definition word_like (w : str) : Prop := w ≠ [] ∧ Forall (λ c, isspace c = false) w.



(** *** Further vocabulary *)

(** The text from its first boundary marker on; empty when it has none. *)
Fixpoint from_first_marker (decimal : char → option Z) (text : str) : str :=
  match text with
  | [] => []
  | _ :: rest =>
    if bool_decide (is_Some (marker decimal text)) then text
    else from_first_marker decimal rest
  end.

(** A vowel that bears a tone mark: a character of one of the columns 1 to 5
    of [vowels_table]. *)
Definition is_toned (c : char) : bool :=
  match vowels_to_ids c with
  | Some (_, S _) => true
  | _ => false
  end.

(** The calls that [insert_objects] makes for a list of objects with their
    own texts as vectors, the first object under the identifier [doc_id], the
    next ones under the identifiers that follow. *)
Fixpoint numbered (doc_id : Z) (objects : list (Z * str)) : list batch_call :=
  match objects with
  | [] => []
  | (law_number, text) :: rest =>
    add_object law_number text doc_id (Some text) :: numbered (doc_id + 1) rest
  end.

(** Whether a content has a character that is not white space. *)
Definition not_blank (item : Z * str) : bool := negb (bool_decide (strip item.2 = [])).

(** *** Words that one pass of the normaliser settles *)

(** A word without a vowel of the table. *)
Definition vowel_free (w : str) : Prop := Forall (λ c, is_vowel c = false) w.

(** A word from its first vowel on. *)
Fixpoint from_first_vowel (w : str) : str :=
  match w with
  | [] => []
  | c :: rest => if is_vowel c then w else from_first_vowel rest
  end.

(** The part of a word from its first vowel to its last one; empty when the
    word has no vowel. *)
Definition vowel_span (w : str) : str :=
  rev (from_first_vowel (rev (from_first_vowel w))).

(** Whether some vowel of the table is directly followed by a combining tone
    mark. *)
Fixpoint mark_after_vowel (w : str) : bool :=
  match w with
  | [] => false
  | c :: rest =>
    (is_vowel c
     && match rest with
        | c2 :: _ => bool_decide (c2 ∈ tone_marks)
        | [] => false
        end)
    || mark_after_vowel rest
  end.

(** A word in which [remove_unnecessary_characters] replaces nothing between
    the first vowel and the last one, so that the vowels stay in one word,
    and in which no vowel is followed by a combining tone mark, so that
    moving a tone mark makes no new key of [conversion_dict]. *)
Definition settled_word (word : char → bool) (w : str) : bool :=
  forallb (kept word) (vowel_span w) && negb (mark_after_vowel w).

(** A text whose words are all of this kind. *)
Definition settled (word : char → bool) (text : str) : bool :=
  forallb (settled_word word) (split text).

(** Whether two characters make a key of [conversion_dict]. *)
Definition key_pair (c1 c2 : char) : bool :=
  existsb (λ entry : str * str, starts_with entry.1 [c1; c2]) conversion_dict.

(** A text in which no key of [conversion_dict] occurs. *)
Fixpoint key_free (text : str) : bool :=
  match text with
  | [] => true
  | c :: rest =>
    negb match rest with
         | c2 :: _ => key_pair c c2
         | [] => false
         end
    && key_free rest
  end.

(** * Properties *)

(** ** Dictionaries *)

Lemma dict_get_set {V} (k k' : Z) (v : V) (d : dict V) :
  dict_get k (dict_set k' v d) = if k' =? k then Some v else dict_get k d.
Proof.
  induction d as [|[k0 v0] d IH]; simpl.
  - reflexivity.
  - destruct (k0 =? k') eqn:E0; simpl.
    + apply Z.eqb_eq in E0. subst k0. destruct (k' =? k); reflexivity.
    + destruct (k0 =? k) eqn:E1; [|exact IH].
      apply Z.eqb_eq in E1. subst k0. rewrite Z.eqb_sym, E0. reflexivity.
Qed.

Lemma dict_get_Some_elem {V} (k : Z) (v : V) (d : dict V) :
  dict_get k d = Some v → (k, v) ∈ d.
Proof.
  induction d as [|[k0 v0] d IH]; simpl; [discriminate|].
  destruct (k0 =? k) eqn:E.
  - apply Z.eqb_eq in E. intros [= ->]. subst. left.
  - intros H. right. auto.
Qed.

Lemma dict_get_None_keys {V} (k : Z) (d : dict V) :
  dict_get k d = None ↔ k ∉ dict_keys d.
Proof.
  unfold dict_keys. induction d as [|[k0 v0] d IH]; simpl.
  - split; [intros _; apply not_elem_of_nil | reflexivity].
  - rewrite not_elem_of_cons. destruct (k0 =? k) eqn:E.
    + apply Z.eqb_eq in E. split; [discriminate | intros [? _]; congruence].
    + apply Z.eqb_neq in E. rewrite IH. split; [intros ?; split; [congruence | assumption] | intros [_ ?]; assumption].
Qed.

Lemma dict_get_elem_NoDup {V} (k : Z) (v : V) (d : dict V) :
  NoDup (dict_keys d) → (k, v) ∈ d → dict_get k d = Some v.
Proof.
  unfold dict_keys. induction d as [|[k0 v0] d IH]; simpl.
  - intros _ H. inversion H.
  - rewrite NoDup_cons. intros [Hk Hd] H. apply elem_of_cons in H as [H|H].
    + injection H as -> ->. rewrite Z.eqb_refl. reflexivity.
    + destruct (k0 =? k) eqn:E; [|auto].
      apply Z.eqb_eq in E. subst k0. exfalso. apply Hk.
      apply list_elem_of_fmap. exists (k, v). auto.
Qed.

(** ** The reconciliation worker *)

Lemma extend_nil self : extend self [] [] = self.
Proof. destruct self. unfold extend. simpl. rewrite !app_nil_r. reflexivity. Qed.

Lemma extend_extend self m1 c1 m2 c2 :
  extend (extend self m1 c1) m2 c2 = extend self (m1 ++ m2) (c1 ++ c2).
Proof. unfold extend. simpl. rewrite !app_assoc. reflexivity. Qed.

Lemma embed_and_save_run k v self :
  strip v ≠ [] →
  embed_and_save k v self = (inr (), extend self [] [append k v (strip v)]).
Proof.
  intros H. unfold embed_and_save, try_reraise.
  rewrite bool_decide_eq_false_2 by exact H.
  unfold call, extend. simpl. rewrite app_nil_r. reflexivity.
Qed.

Lemma embed_and_save_blank k v self :
  strip v = [] →
  embed_and_save k v self
  = (inl (RuntimeError (ValueError "No content provided for embedding"%string)), self).
Proof.
  intros H. unfold embed_and_save, try_reraise.
  rewrite bool_decide_eq_true_2 by exact H. reflexivity.
Qed.

Lemma issued_extend self m cs : issued self (extend self m cs) = cs.
Proof. unfold issued, extend. simpl. apply drop_app_length. Qed.

Lemma bind_run {A B} (m : M A) (f : A → M B) self :
  (m ≫= f) self
  = match m self with
    | (inl e, self') => (inl e, self')
    | (inr a, self') => f a self'
    end.
Proof. reflexivity. Qed.

Lemma for_each_cons {A} (x : A) (l : list A) (body : A → M unit) self :
  for_each (x :: l) body self
  = match body x self with
    | (inl e, self') => (inl e, self')
    | (inr _, self') => for_each l body self'
    end.
Proof. reflexivity. Qed.

Lemma for_each_app {A} (l1 l2 : list A) (body : A → M unit) self :
  for_each (l1 ++ l2) body self
  = match for_each l1 body self with
    | (inl e, self') => (inl e, self')
    | (inr _, self') => for_each l2 body self'
    end.
Proof.
  revert self. induction l1 as [|x l1 IH]; intros self.
  - reflexivity.
  - rewrite <- app_comm_cons, !for_each_cons. destruct (body x self) as [[e|[]] self']; [reflexivity|].
    apply IH.
Qed.

Lemma get_similarity_defined (old_content new_content : str) :
  old_content ≠ [] →
  get_similarity old_content new_content
  = inr (1 - inject_Z (Z.of_nat (levenshtein old_content new_content))
             / inject_Z (Z.of_nat (Nat.max (length new_content) (length old_content))))%Q.
Proof.
  intros H. unfold get_similarity.
  destruct (Nat.max (length new_content) (length old_content) =? 0)%nat eqn:E; [|reflexivity].
  apply Nat.eqb_eq in E. destruct old_content; [congruence|]. simpl in E. lia.
Qed.

Lemma get_existing_laws_nonempty documents k (old_content : str) :
  dict_get k (get_existing_laws documents) = Some old_content → old_content ≠ [].
Proof.
  unfold get_existing_laws.
  assert (G : ∀ acc : dict str,
    (∀ k v, dict_get k acc = Some v → v ≠ []) →
    ∀ k v, dict_get k (fold_left
      (λ existing_laws doc,
         match doc_law_number doc, doc_text doc with
         | Some law_number, Some text =>
           if negb (law_number =? 0) && negb (bool_decide (text = []))
           then dict_set law_number text existing_laws
           else existing_laws
         | _, _ => existing_laws
         end) documents acc) = Some v → v ≠ []).
  { induction documents as [|doc documents IH]; intros acc Hacc; simpl; [exact Hacc|].
    apply IH. destruct (doc_law_number doc) as [n|], (doc_text doc) as [t|]; try exact Hacc.
    destruct (negb (n =? 0) && negb (bool_decide (t = []))) eqn:E; [|exact Hacc].
    intros k' v'. rewrite dict_get_set. destruct (n =? k').
    - intros [= <-]. apply andb_true_iff in E as [_ E].
      apply negb_true_iff, bool_decide_eq_false in E. exact E.
    - apply Hacc. }
  apply G. intros ? ?. discriminate.
Qed.

Lemma get_existing_laws_nonzero documents (old_content : str) :
  dict_get 0 (get_existing_laws documents) = Some old_content → False.
Proof.
  unfold get_existing_laws.
  assert (G : ∀ acc : dict str,
    dict_get 0 acc = None →
    dict_get 0 (fold_left
      (λ existing_laws doc,
         match doc_law_number doc, doc_text doc with
         | Some law_number, Some text =>
           if negb (law_number =? 0) && negb (bool_decide (text = []))
           then dict_set law_number text existing_laws
           else existing_laws
         | _, _ => existing_laws
         end) documents acc) = None).
  { induction documents as [|doc documents IH]; intros acc Hacc; simpl; [exact Hacc|].
    apply IH. destruct (doc_law_number doc) as [n|], (doc_text doc) as [t|]; try exact Hacc.
    destruct (negb (n =? 0) && negb (bool_decide (t = []))) eqn:E; [|exact Hacc].
    rewrite dict_get_set. destruct (n =? 0) eqn:En; [|exact Hacc].
    simpl in E. discriminate. }
  rewrite G by reflexivity. discriminate.
Qed.

Lemma mark_run k self : mark k self = (inr (), extend self [k] []).
Proof. unfold mark, extend. rewrite app_nil_r. reflexivity. Qed.

Lemma call_run c self : call c self = (inr (), extend self [] [c]).
Proof. unfold call, extend. rewrite app_nil_r. reflexivity. Qed.

Lemma marks_cons (existing_laws : dict str) (item : Z * str) rest :
  marks existing_laws (item :: rest) = marks existing_laws [item] ++ marks existing_laws rest.
Proof. simpl. destruct (is_marked existing_laws item); reflexivity. Qed.

Lemma inserts_cons (existing_laws : dict str) (item : Z * str) rest :
  inserts existing_laws (item :: rest)
  = inserts existing_laws [item] ++ inserts existing_laws rest.
Proof. destruct item as [k v]. simpl. destruct (dict_get k existing_laws); reflexivity. Qed.

(** One turn of the comparison loop that raises nothing. *)
Lemma compare_law_run (existing_laws : dict str) (k : Z) (v : str) self :
  (∀ old_content : str, dict_get k existing_laws = Some old_content → old_content ≠ []) →
  (dict_get k existing_laws = None → strip v ≠ []) →
  compare_law existing_laws (k, v) self
  = (inr (), extend self (marks existing_laws [(k, v)]) (inserts existing_laws [(k, v)])).
Proof.
  intros Hex Hne. unfold compare_law, marks, inserts, is_marked. cbn [fst snd].
  destruct (dict_get k existing_laws) as [old_content|] eqn:Ek.
  - unfold mbind, M_bind, lift.
    rewrite (get_similarity_defined _ v (Hex _ eq_refl)).
    destruct (Qle_bool _ threshold).
    + apply mark_run.
    + unfold mret, M_ret. rewrite extend_nil. reflexivity.
  - apply embed_and_save_run. auto.
Qed.

(** The comparison loop on items that raise nothing. *)
Lemma compare_loop_run (existing_laws : dict str) (items : list (Z * str)) self :
  (∀ k (old_content : str), dict_get k existing_laws = Some old_content → old_content ≠ []) →
  (∀ k v, (k, v) ∈ items → strip v ≠ []) →
  for_each items (compare_law existing_laws) self
  = (inr (), extend self (marks existing_laws items) (inserts existing_laws items)).
Proof.
  intros Hex. revert self. induction items as [|[k v] items IH]; intros self Hne.
  - simpl. rewrite extend_nil. reflexivity.
  - rewrite for_each_cons, compare_law_run.
    + rewrite IH, extend_extend, <- marks_cons, <- inserts_cons; [reflexivity|].
      intros k' v' H. apply (Hne k' v'). right. exact H.
    + intros old_content. apply Hex.
    + intros _. apply (Hne k v). left.
Qed.

Lemma delete_loop_run (laws : list Z) self :
  for_each laws (λ law_number, call (delete_law_number law_number)) self
  = (inr (), extend self [] (deletions laws)).
Proof.
  revert self. induction laws as [|k laws IH]; intros self.
  - simpl. rewrite extend_nil. reflexivity.
  - rewrite for_each_cons, call_run, IH, extend_extend. reflexivity.
Qed.

Lemma delete_low_similarity_laws_run self :
  delete_low_similarity_laws self
  = (inr (), extend self [] (deletions (low_similarity_laws self))).
Proof.
  unfold delete_low_similarity_laws, try_reraise. rewrite bind_run.
  unfold get_low_similarity_laws. rewrite delete_loop_run. reflexivity.
Qed.

Lemma reinsert_run (new_laws : dict str) k v self :
  dict_get k new_laws = Some v → strip v ≠ [] →
  reinsert new_laws k self = (inr (), extend self [] [append k v (strip v)]).
Proof.
  intros Hk Hv. unfold reinsert. rewrite bind_run. unfold lift, subscript.
  rewrite Hk. apply embed_and_save_run, Hv.
Qed.

Lemma reinsert_missing (new_laws : dict str) k self :
  dict_get k new_laws = None →
  reinsert new_laws k self = (inl (KeyError k), self).
Proof.
  intros Hk. unfold reinsert. rewrite bind_run. unfold lift, subscript.
  rewrite Hk. reflexivity.
Qed.

Lemma reinsert_loop_run (new_laws : dict str) (laws : list Z) self :
  (∀ k, k ∈ laws → ∃ v, dict_get k new_laws = Some v ∧ strip v ≠ []) →
  for_each laws (reinsert new_laws) self
  = (inr (), extend self [] (reinserts new_laws laws)).
Proof.
  revert self. induction laws as [|k laws IH]; intros self H.
  - simpl. rewrite extend_nil. reflexivity.
  - destruct (H k) as (v & Hk & Hv); [left|].
    rewrite for_each_cons, (reinsert_run _ _ _ _ Hk Hv), IH, extend_extend.
    + simpl. rewrite Hk. reflexivity.
    + intros k' Hk'. apply H. right. exact Hk'.
Qed.

Lemma reinsert_loop_missing (new_laws : dict str) (before after : list Z) k self :
  (∀ k', k' ∈ before → ∃ v, dict_get k' new_laws = Some v ∧ strip v ≠ []) →
  dict_get k new_laws = None →
  for_each (before ++ k :: after) (reinsert new_laws) self
  = (inl (KeyError k), extend self [] (reinserts new_laws before)).
Proof.
  intros Hb Hk. rewrite for_each_app, (reinsert_loop_run _ _ _ Hb).
  rewrite for_each_cons, (reinsert_missing _ _ _ Hk). reflexivity.
Qed.

Lemma update_laws_unfold documents new_laws self :
  update_laws documents new_laws self
  = let (r, self') :=
      match for_each new_laws (compare_law (get_existing_laws documents)) self with
      | (inl e, self1) => (inl e, self1)
      | (inr _, self1) =>
        match delete_low_similarity_laws self1 with
        | (inl e, self2) => (inl e, self2)
        | (inr _, self2) =>
          for_each (low_similarity_laws self2) (reinsert new_laws) self2
        end
      end in
    (reraise r, self').
Proof. reflexivity. Qed.

Lemma elem_of_marks (existing_laws : dict str) (items : list (Z * str)) k :
  k ∈ marks existing_laws items ↔
  ∃ v, (k, v) ∈ items ∧ is_marked existing_laws (k, v) = true.
Proof.
  induction items as [|[k0 v0] items IH]; simpl.
  - split; [intros H; inversion H | intros (v & H & _); inversion H].
  - destruct (is_marked existing_laws (k0, v0)) eqn:E; simpl.
    + rewrite elem_of_cons, IH. split.
      * intros [->|(v & H & Hm)]; [exists v0; split; [left|exact E]|].
        exists v. split; [right; exact H|exact Hm].
      * intros (v & H & Hm). apply elem_of_cons in H as [H|H].
        -- injection H as -> ->. left. reflexivity.
        -- right. exists v. auto.
    + rewrite IH. split.
      * intros (v & H & Hm). exists v. split; [right; exact H|exact Hm].
      * intros (v & H & Hm). apply elem_of_cons in H as [H|H].
        -- injection H as -> ->. congruence.
        -- exists v. auto.
Qed.

Lemma dict_get_elem_some {V} (k : Z) (v : V) (d : dict V) :
  (k, v) ∈ d → ∃ v', dict_get k d = Some v' ∧ (k, v') ∈ d.
Proof.
  induction d as [|[k0 v0] d IH]; intros H; [inversion H|].
  simpl. destruct (k0 =? k) eqn:E.
  - apply Z.eqb_eq in E. subst k0. exists v0. split; [reflexivity|left].
  - apply elem_of_cons in H as [H|H].
    + injection H as -> ->. rewrite Z.eqb_refl in E. discriminate.
    + destruct (IH H) as (v' & H1 & H2). exists v'. split; [exact H1|right; exact H2].
Qed.

(** A batch in which nothing raises: every content has a character that is
    not white space, and every key marked before the batch has an entry in
    the new laws. *)
Lemma update_laws_run documents (new_laws : dict str) self :
  (∀ k v, (k, v) ∈ new_laws → strip v ≠ []) →
  (∀ k, k ∈ low_similarity_laws self → is_Some (dict_get k new_laws)) →
  let existing_laws := get_existing_laws documents in
  let laws := low_similarity_laws self ++ marks existing_laws new_laws in
  update_laws documents new_laws self
  = (inr (),
     extend self (marks existing_laws new_laws)
       (inserts existing_laws new_laws ++ deletions laws ++ reinserts new_laws laws)).
Proof.
  intros Hne Hlow existing_laws laws. rewrite update_laws_unfold.
  fold existing_laws. rewrite compare_loop_run.
  - rewrite delete_low_similarity_laws_run. rewrite !extend_extend.
    change (low_similarity_laws (extend self (marks existing_laws new_laws ++ [])
              (inserts existing_laws new_laws ++ deletions
                 (low_similarity_laws (extend self (marks existing_laws new_laws)
                    (inserts existing_laws new_laws))))))
      with (low_similarity_laws self ++ (marks existing_laws new_laws ++ [])).
    change (low_similarity_laws (extend self (marks existing_laws new_laws)
              (inserts existing_laws new_laws)))
      with laws.
    rewrite !app_nil_r. fold laws. rewrite reinsert_loop_run.
    + rewrite extend_extend, app_nil_r, <- app_assoc. reflexivity.
    + intros k Hk. apply elem_of_app in Hk as [Hk|Hk].
      * destruct (Hlow k Hk) as [v Hv]. exists v. split; [exact Hv|].
        apply (Hne k). apply dict_get_Some_elem, Hv.
      * apply elem_of_marks in Hk as (v & Hv & _).
        destruct (dict_get_elem_some _ _ _ Hv) as (v' & H1 & H2).
        exists v'. split; [exact H1|]. apply (Hne k), H2.
  - intros k old_content. apply get_existing_laws_nonempty.
  - exact Hne.
Qed.

(** ** Every run of the worker, also one that raises *)

Lemma embed_and_save_any k v self :
  (strip v ≠ [] ∧ embed_and_save k v self = (inr (), extend self [] [append k v (strip v)]))
  ∨ (strip v = [] ∧ embed_and_save k v self = (inl no_content, self)).
Proof.
  destruct (decide (strip v = [])) as [H|H].
  - right. split; [exact H|]. apply embed_and_save_blank, H.
  - left. split; [exact H|]. apply embed_and_save_run, H.
Qed.

(** The comparison loop goes through a first part of the items and either
    reaches their end or stops at an item whose content cannot be embedded. *)
Lemma compare_loop_any (existing_laws : dict str) (items : list (Z * str)) self :
  (∀ k (old_content : str), dict_get k existing_laws = Some old_content → old_content ≠ []) →
  ∃ done rest,
    items = done ++ rest
    ∧ (for_each items (compare_law existing_laws) self).2
      = extend self (marks existing_laws done) (inserts existing_laws done)
    ∧ ((for_each items (compare_law existing_laws) self).1 = inr () ∧ rest = []
       ∨ ∃ k v rest', rest = (k, v) :: rest' ∧ strip v = []
           ∧ (for_each items (compare_law existing_laws) self).1 = inl no_content).
Proof.
  intros Hex. revert self. induction items as [|[k v] items IH]; intros self.
  - exists [], []. simpl. rewrite extend_nil. auto.
  - rewrite for_each_cons.
    destruct (dict_get k existing_laws) as [old_content|] eqn:Ek.
    + rewrite compare_law_run; [|intros o; rewrite Ek; intros [= <-]; eapply Hex, Ek|congruence].
      destruct (IH (extend self (marks existing_laws [(k, v)]) (inserts existing_laws [(k, v)])))
        as (done & rest & -> & Hs & Hr).
      exists ((k, v) :: done), rest. split; [reflexivity|].
      rewrite Hs, extend_extend, <- marks_cons, <- inserts_cons. auto.
    + destruct (embed_and_save_any k v self) as [[Hv He]|[Hv He]].
      * rewrite compare_law_run; [|intros o; rewrite Ek; discriminate|intros _; exact Hv].
        destruct (IH (extend self (marks existing_laws [(k, v)]) (inserts existing_laws [(k, v)])))
          as (done & rest & -> & Hs & Hr).
        exists ((k, v) :: done), rest. split; [reflexivity|].
        rewrite Hs, extend_extend, <- marks_cons, <- inserts_cons. auto.
      * exists [], ((k, v) :: items). split; [reflexivity|].
        unfold compare_law. rewrite Ek, He. simpl. rewrite extend_nil.
        split; [reflexivity|]. right. exists k, v, items. auto.
Qed.

Lemma reinserts_app (new_laws : dict str) (l1 l2 : list Z) :
  reinserts new_laws (l1 ++ l2) = reinserts new_laws l1 ++ reinserts new_laws l2.
Proof.
  induction l1 as [|k l1 IH]; simpl; [reflexivity|].
  destruct (dict_get k new_laws); simpl; rewrite IH; reflexivity.
Qed.

(** The last loop goes through a first part of the marked keys and either
    reaches their end, or stops at a key whose content cannot be embedded, or
    stops at a key that the new laws lack. *)
Lemma reinsert_loop_any (new_laws : dict str) (laws : list Z) self :
  ∃ done rest,
    laws = done ++ rest
    ∧ (∀ k, k ∈ done → is_Some (dict_get k new_laws))
    ∧ (for_each laws (reinsert new_laws) self).2 = extend self [] (reinserts new_laws done)
    ∧ ((for_each laws (reinsert new_laws) self).1 = inr () ∧ rest = []
       ∨ (∃ k v rest', rest = k :: rest' ∧ dict_get k new_laws = Some v ∧ strip v = []
           ∧ (for_each laws (reinsert new_laws) self).1 = inl no_content)
       ∨ ∃ k rest', rest = k :: rest' ∧ dict_get k new_laws = None
           ∧ (for_each laws (reinsert new_laws) self).1 = inl (KeyError k)).
Proof.
  revert self. induction laws as [|k laws IH]; intros self.
  - exists [], []. simpl. rewrite extend_nil. split; [reflexivity|].
    split; [intros k H; inversion H|]. auto.
  - rewrite for_each_cons. destruct (dict_get k new_laws) as [v|] eqn:Ek.
    + destruct (embed_and_save_any k v self) as [[Hv He]|[Hv He]].
      * rewrite (reinsert_run _ _ _ _ Ek Hv).
        destruct (IH (extend self [] [append k v (strip v)])) as (done & rest & -> & Hd & Hs & Hr).
        exists (k :: done), rest. split; [reflexivity|]. split.
        { intros k' H. apply elem_of_cons in H as [->|H]; [rewrite Ek; eauto|auto]. }
        rewrite Hs, extend_extend. simpl. rewrite Ek. auto.
      * exists [], (k :: laws). split; [reflexivity|]. split; [intros k' H; inversion H|].
        unfold reinsert. rewrite bind_run. unfold lift, subscript. rewrite Ek, He.
        simpl. rewrite extend_nil. split; [reflexivity|].
        right. left. exists k, v, laws. auto.
    + exists [], (k :: laws). split; [reflexivity|]. split; [intros k' H; inversion H|].
      rewrite (reinsert_missing _ _ _ Ek). simpl. rewrite extend_nil.
      split; [reflexivity|]. right. right. exists k, laws. auto.
Qed.

(** The shape of every run of [update_laws]: it stops in the comparison loop
    at a content that cannot be embedded, before any deletion; or it makes
    the inserts of the new keys, then every deletion, then goes through a
    first part of the marked keys. *)
Lemma update_laws_any documents (new_laws : dict str) self :
  let existing_laws := get_existing_laws documents in
  let laws := low_similarity_laws self ++ marks existing_laws new_laws in
  (∃ done k v rest,
     new_laws = done ++ (k, v) :: rest ∧ strip v = []
     ∧ update_laws documents new_laws self
       = (inl (RuntimeError no_content),
          extend self (marks existing_laws done) (inserts existing_laws done)))
  ∨ (∃ done rest,
       laws = done ++ rest
       ∧ (∀ k, k ∈ done → is_Some (dict_get k new_laws))
       ∧ (update_laws documents new_laws self).2
         = extend self (marks existing_laws new_laws)
             (inserts existing_laws new_laws ++ deletions laws ++ reinserts new_laws done)
       ∧ ((update_laws documents new_laws self).1 = inr () ∧ rest = []
          ∨ (∃ k v rest', rest = k :: rest' ∧ dict_get k new_laws = Some v ∧ strip v = []
              ∧ (update_laws documents new_laws self).1 = inl (RuntimeError no_content))
          ∨ ∃ k rest', rest = k :: rest' ∧ dict_get k new_laws = None
              ∧ (update_laws documents new_laws self).1 = inl (RuntimeError (KeyError k)))).
Proof.
  intros existing_laws laws. rewrite update_laws_unfold. fold existing_laws.
  destruct (compare_loop_any existing_laws new_laws self) as (done & rest & Hn & Hs & Hr).
  { intros k old_content. apply get_existing_laws_nonempty. }
  destruct (for_each new_laws (compare_law existing_laws) self) as [r1 self1].
  simpl in Hs, Hr. destruct Hr as [[-> ->] | (k0 & v0 & rest0 & -> & Hv0 & ->)].
  - right. rewrite app_nil_r in Hn. subst done self1.
    rewrite delete_low_similarity_laws_run, extend_extend, app_nil_r.
    change (low_similarity_laws (extend self (marks existing_laws new_laws)
              (inserts existing_laws new_laws)))
      with laws.
    set (self2 := extend self _ _).
    change (low_similarity_laws self2) with laws.
    destruct (reinsert_loop_any new_laws laws self2) as (done & rest & Hl & Hd & Hs & Hr).
    exists done, rest. split; [exact Hl|]. split; [exact Hd|].
    destruct (for_each laws (reinsert new_laws) self2) as [r3 self3].
    simpl in Hs, Hr. simpl. subst self3. unfold self2.
    rewrite extend_extend, app_nil_r, <- app_assoc. split; [reflexivity|].
    destruct Hr as [[-> ->] | [(k & v & rest' & -> & Hk & Hv & ->) | (k & rest' & -> & Hk & ->)]];
      simpl; eauto 12.
  - left. exists done, k0, v0, rest0. split; [exact Hn|]. subst self1. auto.
Qed.

Lemma elem_of_deletions k (laws : list Z) :
  delete_law_number k ∈ deletions laws ↔ k ∈ laws.
Proof.
  unfold deletions. rewrite list_elem_of_fmap. split.
  - intros (k' & [= ->] & H). exact H.
  - intros H. exists k. auto.
Qed.

Lemma elem_of_reinserts (new_laws : dict str) (laws : list Z) k c :
  k ∈ laws → dict_get k new_laws = Some c →
  append k c (strip c) ∈ reinserts new_laws laws.
Proof.
  intros Hk Hc. induction laws as [|k0 laws IH]; [inversion Hk|].
  simpl. apply elem_of_cons in Hk as [<-|Hk].
  - rewrite Hc. left.
  - destruct (dict_get k0 new_laws); [right|]; auto.
Qed.

Lemma inserts_absent (existing_laws : dict str) (items : list (Z * str)) c :
  c ∈ inserts existing_laws items →
  ∃ k v, c = append k v (strip v) ∧ (k, v) ∈ items ∧ dict_get k existing_laws = None.
Proof.
  induction items as [|[k v] items IH]; simpl; [intros H; inversion H|].
  destruct (dict_get k existing_laws) eqn:Ek.
  - intros H. destruct (IH H) as (k' & v' & ? & ? & ?). exists k', v'.
    split; [assumption|]. split; [right|]; assumption.
  - intros H. apply elem_of_cons in H as [->|H].
    + exists k, v. split; [reflexivity|]. split; [left|exact Ek].
    + destruct (IH H) as (k' & v' & ? & ? & ?). exists k', v'.
      split; [assumption|]. split; [right|]; assumption.
Qed.

Lemma elem_of_inserts (existing_laws : dict str) (items : list (Z * str)) k v :
  (k, v) ∈ items → dict_get k existing_laws = None →
  append k v (strip v) ∈ inserts existing_laws items.
Proof.
  intros H Hk. induction items as [|[k0 v0] items IH]; [inversion H|].
  simpl. apply elem_of_cons in H as [H|H].
  - injection H as <- <-. rewrite Hk. left.
  - destruct (dict_get k0 existing_laws); [|right]; auto.
Qed.

Lemma reinserts_marked (new_laws : dict str) (laws : list Z) c :
  c ∈ reinserts new_laws laws →
  ∃ k v, c = append k v (strip v) ∧ k ∈ laws ∧ dict_get k new_laws = Some v.
Proof.
  induction laws as [|k laws IH]; simpl; [intros H; inversion H|].
  destruct (dict_get k new_laws) as [v|] eqn:Ek.
  - intros H. apply elem_of_cons in H as [->|H].
    + exists k, v. split; [reflexivity|]. split; [left|exact Ek].
    + destruct (IH H) as (k' & v' & ? & ? & ?). exists k', v'.
      split; [assumption|]. split; [right|]; assumption.
  - intros H. destruct (IH H) as (k' & v' & ? & ? & ?). exists k', v'.
    split; [assumption|]. split; [right|]; assumption.
Qed.

(** A batch whose contents can all be embedded gets through the comparison
    loop and the deletions; only a marked key that the new laws lack can stop
    it. *)
Lemma update_laws_nonblank documents (new_laws : dict str) self :
  (∀ k v, (k, v) ∈ new_laws → strip v ≠ []) →
  let existing_laws := get_existing_laws documents in
  let laws := low_similarity_laws self ++ marks existing_laws new_laws in
  ∃ done rest,
    laws = done ++ rest
    ∧ (∀ k, k ∈ done → is_Some (dict_get k new_laws))
    ∧ (update_laws documents new_laws self).2
      = extend self (marks existing_laws new_laws)
          (inserts existing_laws new_laws ++ deletions laws ++ reinserts new_laws done)
    ∧ ((update_laws documents new_laws self).1 = inr () ∧ rest = []
       ∨ ∃ k rest', rest = k :: rest' ∧ dict_get k new_laws = None
           ∧ (update_laws documents new_laws self).1 = inl (RuntimeError (KeyError k))).
Proof.
  intros Hne existing_laws laws.
  destruct (update_laws_any documents new_laws self)
    as [(done & k & v & rest & Hn & Hv & _)|(done & rest & Hl & Hd & Hs & Hr)].
  - exfalso. apply (Hne k v); [|exact Hv]. rewrite Hn. apply elem_of_app. right. left.
  - exists done, rest. split; [exact Hl|]. split; [exact Hd|]. split; [exact Hs|].
    destruct Hr as [Hr | [(k & v & rest' & _ & Hk & Hv & _) | Hr]]; [left; exact Hr| |right; exact Hr].
    exfalso. apply (Hne k v); [|exact Hv]. apply dict_get_Some_elem, Hk.
Qed.

(** X1.  The calls of any run, whether it ends normally or not, are about
    keys of the new laws or about keys that were marked before the run: a
    batch touches no other law of the store. *)
Lemma update_laws_frame documents (new_laws : dict str) self c :
  c ∈ issued self (update_laws documents new_laws self).2 →
  call_key c ∈ dict_keys new_laws ∨ call_key c ∈ low_similarity_laws self.
Proof.
  assert (Hkeys : ∀ k (v : str), (k, v) ∈ new_laws → k ∈ dict_keys new_laws).
  { intros k v H. unfold dict_keys. apply list_elem_of_fmap. exists (k, v). auto. }
  assert (Hmarks : ∀ (ex : dict str) k, k ∈ marks ex new_laws → k ∈ dict_keys new_laws).
  { intros ex k H. apply elem_of_marks in H as (v & H & _). eapply Hkeys, H. }
  destruct (update_laws_any documents new_laws self)
    as [(done & k & v & rest & Hn & Hv & ->)|(done & rest & Hl & Hd & -> & Hr)];
    simpl; rewrite issued_extend.
  - intros H. apply inserts_absent in H as (k' & v' & -> & H & _). left.
    apply (Hkeys k' v'). rewrite Hn. apply elem_of_app. left. exact H.
  - rewrite !elem_of_app. intros [H|[H|H]].
    + apply inserts_absent in H as (k' & v' & -> & H & _). left. eapply Hkeys, H.
    + unfold deletions in H. apply list_elem_of_fmap in H as (k' & -> & H). simpl.
      apply elem_of_app in H as [H|H]; [right; exact H|left; eapply Hmarks, H].
    + apply reinserts_marked in H as (k' & v' & -> & _ & H). left.
      eapply Hkeys, dict_get_Some_elem, H.
Qed.

Lemma update_laws_frame_witness :
  call_key (delete_law_number 5) ∈ dict_keys [(7, law7); (5, law5_new)]
  ∨ call_key (delete_law_number 5) ∈ low_similarity_laws __init__.
Proof.
  apply (update_laws_frame [stored 5 law5_old] [(7, law7); (5, law5_new)] __init__).
  apply list_elem_of_In. vm_compute. right. left. reflexivity.
Defined.

(** ** The decisions of a batch *)

(** X2.  A batch on a worker without marks from earlier batches, the state
    that [__init__] leaves: a key that the snapshot lacks is inserted and not
    deleted; a key with an entry is deleted and inserted again when the
    similarity is at most the threshold, and is the subject of no store call
    when the similarity is above it. *)
Lemma update_laws_decisions documents (new_laws : dict str) self k v :
  low_similarity_laws self = [] →
  NoDup (dict_keys new_laws) →
  (∀ k' v', (k', v') ∈ new_laws → strip v' ≠ []) →
  (k, v) ∈ new_laws →
  let existing_laws := get_existing_laws documents in
  let cs := issued self (update_laws documents new_laws self).2 in
  (update_laws documents new_laws self).1 = inr ()
  ∧ match dict_get k existing_laws with
    | None => append k v (strip v) ∈ cs ∧ delete_law_number k ∉ cs
    | Some old_content =>
      ∃ similarity,
        get_similarity old_content v = inr similarity
        ∧ if Qle_bool similarity threshold
          then delete_law_number k ∈ cs ∧ append k v (strip v) ∈ cs
          else ∀ c, c ∈ cs → call_key c ≠ k
    end.
Proof.
  intros Hlow Hnd Hne Hkv existing_laws cs. unfold cs.
  rewrite update_laws_run; [|exact Hne|rewrite Hlow; intros ? H; inversion H].
  fold existing_laws. rewrite Hlow. simpl. rewrite issued_extend.
  split; [reflexivity|].
  assert (Hone : ∀ v', (k, v') ∈ new_laws → v' = v).
  { intros v' H. apply (dict_get_elem_NoDup _ _ _ Hnd) in H.
    apply (dict_get_elem_NoDup _ _ _ Hnd) in Hkv. congruence. }
  assert (Hm : k ∈ marks existing_laws new_laws ↔ is_marked existing_laws (k, v) = true).
  { rewrite elem_of_marks. split.
    - intros (v' & H & Hm). rewrite <- (Hone v' H). exact Hm.
    - intros H. exists v. auto. }
  destruct (dict_get k existing_laws) as [old_content|] eqn:Ek.
  - exists (1 - inject_Z (Z.of_nat (levenshtein old_content v))
               / inject_Z (Z.of_nat (Nat.max (length v) (length old_content))))%Q.
    assert (Hs := get_similarity_defined old_content v
                    (get_existing_laws_nonempty _ _ _ Ek)).
    split; [exact Hs|].
    unfold is_marked in Hm. simpl in Hm. fold existing_laws in Ek. rewrite Ek, Hs in Hm.
    destruct (Qle_bool _ threshold).
    + assert (Hk : k ∈ marks existing_laws new_laws) by (apply Hm; reflexivity).
      split.
      * apply elem_of_app. right. apply elem_of_app. left. apply elem_of_deletions, Hk.
      * apply elem_of_app. right. apply elem_of_app. right.
        apply elem_of_reinserts; [exact Hk|]. apply dict_get_elem_NoDup; assumption.
    + assert (Hk : k ∉ marks existing_laws new_laws).
      { intros H. apply Hm in H. discriminate. }
      intros c Hc <-. apply elem_of_app in Hc as [Hc|Hc].
      * apply inserts_absent in Hc as (k' & v' & -> & _ & Hc). simpl in Ek.
        fold existing_laws in Ek. congruence.
      * apply elem_of_app in Hc as [Hc|Hc].
        -- unfold deletions in Hc. apply list_elem_of_fmap in Hc as (k' & -> & Hc).
           exact (Hk Hc).
        -- apply reinserts_marked in Hc as (k' & v' & -> & Hc & _). exact (Hk Hc).
  - split.
    + apply elem_of_app. left. apply elem_of_inserts; assumption.
    + intros H. apply elem_of_app in H as [H|H].
      * apply inserts_absent in H as (k' & v' & [=] & _).
      * apply elem_of_app in H as [H|H].
        -- apply elem_of_deletions, Hm in H. unfold is_marked in H. simpl in H.
           fold existing_laws in Ek. rewrite Ek in H. discriminate.
        -- apply reinserts_marked in H as (k' & v' & [=] & _).
Qed.

Lemma update_laws_decisions_witness :
  let run := update_laws [stored 5 law5_old] [(7, law7); (5, law5_new)] __init__ in
  let cs := issued __init__ run.2 in
  run.1 = inr ()
  ∧ ∃ similarity,
      get_similarity law5_old law5_new = inr similarity
      ∧ Qle_bool similarity threshold = true
      ∧ delete_law_number 5 ∈ cs ∧ append 5 law5_new (strip law5_new) ∈ cs.
Proof.
  assert (Hn : NoDup (dict_keys [(7, law7); (5, law5_new)])).
  { apply NoDup_cons. split; [intros H; apply list_elem_of_In in H; simpl in H; lia|].
    apply NoDup_singleton. }
  assert (Hv : ∀ k' (v' : str), (k', v') ∈ [(7, law7); (5, law5_new)] → strip v' ≠ []).
  { intros k' v' Hin. apply list_elem_of_In in Hin.
    destruct Hin as [Hin|[Hin|[]]]; injection Hin as <- <-; vm_compute; discriminate. }
  destruct (update_laws_decisions [stored 5 law5_old] [(7, law7); (5, law5_new)] __init__
              5 law5_new eq_refl Hn Hv ltac:(right; left)) as [H1 H2].
  split; [exact H1|].
  change (dict_get 5 (get_existing_laws [stored 5 law5_old])) with (Some law5_old) in H2.
  destruct H2 as (similarity & Hs & Hif). exists similarity. split; [exact Hs|].
  destruct (Qle_bool similarity threshold) eqn:E.
  - split; [reflexivity|exact Hif].
  - exfalso. vm_compute in Hs. injection Hs as <-. vm_compute in E. discriminate.
Defined.

(** ** The claims about the reconciliation worker *)

(** C1 (the code departs from the claim).  Two batches on one worker.  The
    first finds law 5 changed (similarity 10/22) and marks it.  The second
    brings the text that is now stored: the similarity is 1, above the
    threshold, so the claim has the key skipped with no store call; the mark
    of the first batch is still in [low_similarity_laws], and the second batch
    deletes law 5 and inserts it again. *)
Theorem stale_mark_overrides_skip :
  let first := update_laws [stored 5 law5_old] [(5, law5_new)] __init__ in
  let second := update_laws [stored 5 law5_new] [(5, law5_new)] first.2 in
  first.1 = inr ()
  ∧ low_similarity_laws first.2 = [5]
  ∧ (∃ similarity, get_similarity law5_new law5_new = inr similarity
       ∧ (similarity == 1)%Q ∧ Qle_bool similarity threshold = false)
  ∧ second.1 = inr ()
  ∧ issued first.2 second.2 = [delete_law_number 5; append 5 law5_new law5_new].
Proof.
  cbv zeta. split; [vm_compute; reflexivity|]. split; [vm_compute; reflexivity|].
  split.
  - eexists. split; [vm_compute; reflexivity|]. split; vm_compute; reflexivity.
  - split; vm_compute; reflexivity.
Qed.

(** C2 (amended).  The store calls of a batch come in three runs, in this
    order: during the comparison loop an insert for each key that the snapshot
    lacks; then the deletions; then inserts for marked keys.  A batch that
    returns has made exactly the inserts of the new keys, one deletion for
    every key of [low_similarity_laws], and one insert for each of them: the
    deletions come before the inserts of the marked keys and after the inserts
    of the new keys. *)
Theorem update_laws_phases documents (new_laws : dict str) self :
  let existing_laws := get_existing_laws documents in
  let laws := low_similarity_laws self ++ marks existing_laws new_laws in
  let run := update_laws documents new_laws self in
  ∃ new_inserts deletes again,
    issued self run.2 = new_inserts ++ deletes ++ again
    ∧ (∀ c, c ∈ new_inserts →
         is_delete c = false ∧ dict_get (call_key c) existing_laws = None)
    ∧ (∀ c, c ∈ deletes → is_delete c = true ∧ call_key c ∈ laws)
    ∧ (∀ c, c ∈ again → is_delete c = false ∧ call_key c ∈ laws)
    ∧ (run.1 = inr () →
         new_inserts = inserts existing_laws new_laws
         ∧ deletes = deletions laws
         ∧ again = reinserts new_laws laws).
Proof.
  intros existing_laws laws run. unfold run.
  assert (HA : ∀ items c, c ∈ inserts existing_laws items →
            is_delete c = false ∧ dict_get (call_key c) existing_laws = None).
  { intros items c H. apply inserts_absent in H as (k & v & -> & _ & H). auto. }
  assert (HB : ∀ c, c ∈ deletions laws → is_delete c = true ∧ call_key c ∈ laws).
  { intros c H. unfold deletions in H. apply list_elem_of_fmap in H as (k & -> & H). auto. }
  destruct (update_laws_any documents new_laws self)
    as [(done & k & v & rest & Hn & Hv & ->)|(done & rest & Hl & Hd & Hs & Hr)].
  - exists (inserts existing_laws done), [], []. simpl. rewrite issued_extend, app_nil_r.
    split; [reflexivity|]. split; [apply HA|].
    split; [intros c H; inversion H|]. split; [intros c H; inversion H|]. discriminate.
  - exists (inserts existing_laws new_laws), (deletions laws), (reinserts new_laws done).
    rewrite Hs, issued_extend. split; [reflexivity|]. split; [apply HA|].
    split; [exact HB|]. split.
    + intros c H. apply reinserts_marked in H as (k & v & -> & H & _). split; [reflexivity|].
      simpl. unfold laws, existing_laws. rewrite Hl. apply elem_of_app. left. exact H.
    + intros Hok. destruct Hr as [[_ ->] | [(k & v & rest' & _ & _ & _ & Hr) | (k & rest' & _ & _ & Hr)]].
      * rewrite app_nil_r in Hl. rewrite <- Hl. auto.
      * rewrite Hr in Hok. discriminate.
      * rewrite Hr in Hok. discriminate.
Qed.

Lemma update_laws_phases_witness :
  ∃ new_inserts deletes again,
    issued __init__ (update_laws [stored 5 law5_old] [(7, law7); (5, law5_new)] __init__).2
    = new_inserts ++ deletes ++ again
    ∧ new_inserts = [append 7 law7 law7]
    ∧ deletes = [delete_law_number 5]
    ∧ again = [append 5 law5_new law5_new].
Proof.
  destruct (update_laws_phases [stored 5 law5_old] [(7, law7); (5, law5_new)] __init__)
    as (new_inserts & deletes & again & H & _ & _ & _ & Hok).
  exists new_inserts, deletes, again. split; [exact H|].
  destruct Hok as (-> & -> & ->); [vm_compute; reflexivity|].
  repeat split; vm_compute; reflexivity.
Defined.

(** C2 as stated fails: in this batch law 7 is new and law 5 has changed, and
    the insert of law 7 is issued before the deletion of law 5. *)
Lemma insert_before_deletion :
  ¬ deletions_first
      (issued __init__
         (update_laws [stored 5 law5_old] [(7, law7); (5, law5_new)] __init__).2).
Proof.
  intros H.
  specialize (H 1%nat 0%nat (delete_law_number 5) (append 7 law7 law7)).
  assert (Hlt : (1 < 0)%nat); [|lia].
  apply H; vm_compute; reflexivity.
Qed.

(** C7 (the code departs from the claim).  Two batches on one worker.  The
    first marks law 6.  The second brings law 5 alone, unchanged, while the
    snapshot holds laws 5 and 6: the claim has no store call about key 6; the
    batch deletes law 6, because its mark is still in [low_similarity_laws],
    and then raises [KeyError] on [new_laws[6]], so nothing is inserted in
    its place. *)
Theorem absent_key_deleted_by_stale_mark :
  let first := update_laws [stored 6 law6_old] [(6, law6_new)] __init__ in
  let documents := [stored 5 law5_old; stored 6 law6_new] in
  let second := update_laws documents [(5, law5_old)] first.2 in
  dict_get 6 (get_existing_laws documents) = Some law6_new
  ∧ dict_get 6 [(5, law5_old)] = None
  ∧ issued first.2 second.2 = [delete_law_number 6]
  ∧ second.1 = inl (RuntimeError (KeyError 6)).
Proof. cbv zeta. repeat split; vm_compute; reflexivity. Qed.






(** C9 as stated fails.  The first batch marks law 6.  The second batch
    brings law 8 alone, with a blank content, while the snapshot holds law 6
    only: the comparison loop raises on the empty text before any deletion,
    so the second call does not delete law 6 again, looks nothing up for it,
    and its error wraps a [ValueError], not a [KeyError]. *)
Lemma blank_content_stops_the_second_batch :
  let first := update_laws [stored 6 law6_old] [(6, law6_new)] __init__ in
  let second := update_laws [stored 6 law6_new] [(8, u"  ")] first.2 in
  is_marked (get_existing_laws [stored 6 law6_old]) (6, law6_new) = true
  ∧ low_similarity_laws first.2 = [6]
  ∧ dict_get 6 [(8, u"  ")] = None
  ∧ issued first.2 second.2 = []
  ∧ second.1 = inl (RuntimeError no_content).
Proof. cbv zeta. repeat split; vm_compute; reflexivity. Qed.

(** C10.  An entry of the snapshot that [get_existing_laws] builds has a key
    that is not 0 and a text that is not empty.  Hence, with such a text as
    the old content, the longer of the two lengths is at least 1 and
    [get_similarity] returns a number; on two empty strings it raises
    [ZeroDivisionError], which no run of [update_laws] meets: a run returns,
    or fails on a content that cannot be embedded, or on a marked key that
    the new laws lack. *)
Theorem similarity_never_divides_by_zero documents k (old_content : str) :
  dict_get k (get_existing_laws documents) = Some old_content →
  k ≠ 0
  ∧ old_content ≠ []
  ∧ (∀ new_content : str,
       (1 ≤ Nat.max (length new_content) (length old_content))%nat
       ∧ ∃ similarity, get_similarity old_content new_content = inr similarity)
  ∧ get_similarity [] [] = inl ZeroDivisionError
  ∧ (∀ (new_laws : dict str) self,
       (update_laws documents new_laws self).1 = inr ()
       ∨ (update_laws documents new_laws self).1 = inl (RuntimeError no_content)
       ∨ ∃ k', (update_laws documents new_laws self).1 = inl (RuntimeError (KeyError k'))).
Proof.
  intros Hk.
  assert (Hold := get_existing_laws_nonempty _ _ _ Hk).
  split.
  { intros ->. exact (get_existing_laws_nonzero _ _ Hk). }
  split; [exact Hold|]. split.
  { intros new_content. split.
    - destruct old_content; [congruence|]. simpl. lia.
    - eexists. apply get_similarity_defined, Hold. }
  split; [reflexivity|].
  intros new_laws self.
  destruct (update_laws_any documents new_laws self)
    as [(done & k' & v & rest & _ & _ & ->)|(done & rest & _ & _ & _ & Hr)].
  - right. left. reflexivity.
  - destruct Hr as [[-> _] | [(k' & v & rest' & _ & _ & _ & ->) | (k' & rest' & _ & _ & ->)]]; eauto.
Qed.

Lemma similarity_never_divides_by_zero_witness :
  law5_old ≠ []
  ∧ (∃ similarity, get_similarity law5_old law5_new = inr similarity)
  ∧ get_similarity [] [] = inl ZeroDivisionError.
Proof.
  destruct (similarity_never_divides_by_zero
              [stored 5 law5_old; stored 0 law6_old;
               {| doc_law_number := Some 6; doc_text := Some [] |}]
              5 law5_old)
    as (_ & H1 & H2 & H3 & _).
  - vm_compute. reflexivity.
  - split; [exact H1|]. split; [apply H2|exact H3].
Defined.

(** ** Digital extraction *)

Lemma elem_of_range (a b x : Z) : x ∈ range a b ↔ a ≤ x < b.
Proof.
  unfold range. rewrite list_elem_of_fmap. split.
  - intros (i & -> & H). apply elem_of_seq in H. lia.
  - intros H. exists (Z.to_nat (x - a)). split; [lia|]. apply elem_of_seq. lia.
Qed.

Lemma pages_from_above (pages : list str) (pageno a b : Z) :
  b ≤ pageno → pages_from pageno pages (range a b) = [].
Proof.
  revert pageno. induction pages as [|page pages IH]; intros pageno H; simpl; [reflexivity|].
  rewrite bool_decide_eq_false_2 by (rewrite elem_of_range; lia).
  simpl. apply IH. lia.
Qed.

Lemma pages_from_inside (pages : list str) (pageno a b : Z) :
  a ≤ pageno →
  pages_from pageno pages (range a b) = concat (take (Z.to_nat (b - pageno)) pages).
Proof.
  revert pageno. induction pages as [|page pages IH]; intros pageno H; simpl.
  - rewrite take_nil. reflexivity.
  - destruct (decide (pageno < b)) as [Hlt|Hge].
    + rewrite bool_decide_eq_true_2 by (rewrite elem_of_range; lia).
      replace (Z.to_nat (b - pageno)) with (S (Z.to_nat (b - (pageno + 1)))) by lia.
      simpl. rewrite IH by lia. reflexivity.
    + rewrite bool_decide_eq_false_2 by (rewrite elem_of_range; lia).
      replace (Z.to_nat (b - pageno)) with O by lia.
      simpl. apply pages_from_above. lia.
Qed.

Lemma pages_from_below (pages : list str) (pageno a b : Z) :
  pageno ≤ a →
  pages_from pageno pages (range a b)
  = concat (take (Z.to_nat (b - a)) (drop (Z.to_nat (a - pageno)) pages)).
Proof.
  revert pageno. induction pages as [|page pages IH]; intros pageno H.
  - simpl. rewrite drop_nil, take_nil. reflexivity.
  - destruct (decide (pageno = a)) as [->|Hne].
    + replace (Z.to_nat (a - a)) with O by lia. rewrite drop_0.
      apply pages_from_inside. lia.
    + simpl. rewrite bool_decide_eq_false_2 by (rewrite elem_of_range; lia).
      replace (Z.to_nat (a - pageno)) with (S (Z.to_nat (a - (pageno + 1)))) by lia.
      simpl. apply IH. lia.
Qed.

(** X7.  With both ends of the window true and in order, the pages taken are
    those of zero-based index [start_page] to [end_page - 1]: numbered from 1,
    the window from [start_page + 1] to [end_page]. *)
Lemma extract_text_from_pdf_window (pdf_file : list str) (start_page end_page : Z) :
  0 < start_page < end_page →
  extract_text_from_pdf pdf_file (Some start_page) (Some end_page)
  = page_window pdf_file (start_page + 1) end_page.
Proof.
  intros H. unfold extract_text_from_pdf, page_window, pdfminer_extract_text, truthy.
  replace (start_page =? 0) with false by lia.
  replace (end_page =? 0) with false by lia. simpl.
  destruct (range start_page end_page) as [|p ps] eqn:E.
  - exfalso. assert (Hin : start_page ∈ range start_page end_page)
      by (apply elem_of_range; lia).
    rewrite E in Hin. inversion Hin.
  - rewrite <- E, pages_from_below by lia.
    replace (end_page - (start_page + 1) + 1) with (end_page - start_page) by lia.
    replace (start_page + 1 - 1) with (start_page - 0) by lia. reflexivity.
Qed.

Lemma extract_text_from_pdf_window_witness :
  extract_text_from_pdf three_pages (Some 1) (Some 3) = page_window three_pages 2 3.
Proof. apply (extract_text_from_pdf_window three_pages 1 3). lia. Defined.

(** When either end of the window is [None] or 0 the whole file is taken,
    whatever the other end is. *)
Lemma extract_text_from_pdf_whole (pdf_file : list str) (start_page end_page : option Z) :
  truthy start_page = false ∨ truthy end_page = false →
  extract_text_from_pdf pdf_file start_page end_page = concat pdf_file.
Proof.
  intros H. unfold extract_text_from_pdf.
  destruct start_page as [s|], end_page as [e|]; try reflexivity.
  destruct H as [H|H]; rewrite H; [reflexivity|].
  rewrite andb_false_r. reflexivity.
Qed.

(** C4 (the code departs from the claim).  On a file of three pages and the
    window from page 1 to page 2, the claim has the text of the pages 1 and 2;
    [extract_text_from_pdf] hands [range(1, 2)] to the library as zero-based
    page indices and returns the text of page 2 alone.  (The window is off by
    one at its start for every window in order, [extract_text_from_pdf_window];
    the other half of the claim, the whole file for a window with an end that
    is [None] or 0, holds, [extract_text_from_pdf_whole].) *)
Theorem extract_text_from_pdf_skips_first_page :
  extract_text_from_pdf three_pages (Some 1) (Some 2) = u"Điều 2. B "
  ∧ page_window three_pages 1 2 = u"Điều 1. A Điều 2. B "
  ∧ extract_text_from_pdf three_pages (Some 1) (Some 2) ≠ page_window three_pages 1 2.
Proof.
  split; [vm_compute; reflexivity|]. split; [vm_compute; reflexivity|].
  vm_compute. discriminate.
Qed.

(** ** Segmentation *)

Section segmentation.

Variable decimal : char → option Z.

Lemma dict_keys_set {V} (k k' : Z) (v : V) (d : dict V) :
  k ∈ dict_keys (dict_set k' v d) ↔ k = k' ∨ k ∈ dict_keys d.
Proof.
  unfold dict_keys. induction d as [|[k0 v0] d IH]; simpl.
  - rewrite list_elem_of_singleton. split; [auto|]. intros [H|H]; [exact H|inversion H].
  - destruct (k0 =? k') eqn:E; simpl.
    + apply Z.eqb_eq in E. subst k0. rewrite !elem_of_cons. tauto.
    + rewrite !elem_of_cons, IH. tauto.
Qed.

Lemma finditer_no_marker (text : str) :
  contains_marker decimal text = false → finditer decimal None 0 text = [].
Proof.
  induction text as [|c rest IH]; [reflexivity|].
  intros H. simpl in H. apply orb_false_iff in H as [Hm Hrest].
  apply bool_decide_eq_false in Hm.
  change (finditer decimal None 0 (c :: rest))
    with (match marker decimal (c :: rest) with
          | Some n => finditer decimal (Some [c]) (n - 1) rest
          | None => finditer decimal None 0 rest
          end).
  destruct (marker decimal (c :: rest)) as [n|].
  - exfalso. apply Hm. eauto.
  - apply IH, Hrest.
Qed.

Lemma starts_with_length (key text : str) :
  starts_with key text = true → (length key ≤ length text)%nat.
Proof.
  revert text. induction key as [|k key IH]; intros [|c text]; simpl; try lia; try discriminate.
  intros H. apply andb_true_iff in H as [_ H]. apply IH in H. lia.
Qed.

Lemma digits_then_stop_bound (n : nat) (rest : str) k :
  digits_then_stop n rest = Some k → (1 ≤ k ≤ n)%nat ∧ (k < length rest)%nat.
Proof.
  induction n as [|n IH]; simpl; [discriminate|].
  destruct (bool_decide (rest !! S n = Some 46)) eqn:E.
  - intros [= <-]. apply bool_decide_eq_true in E.
    apply lookup_lt_Some in E. lia.
  - intros H. apply IH in H. lia.
Qed.

(** A marker has at least seven characters, all in the text. *)
Lemma marker_bound (text : str) n :
  marker decimal text = Some n → (7 ≤ n ≤ length text)%nat.
Proof.
  unfold marker. destruct (starts_with marker_head text) eqn:E; [|discriminate].
  apply starts_with_length in E.
  destruct (digits_then_stop _ _) as [k|] eqn:Ek; [|discriminate].
  simpl. intros [= <-]. apply digits_then_stop_bound in Ek.
  rewrite length_drop in Ek. change (length marker_head) with 5%nat in *. lia.
Qed.

Lemma is_group_cons c (text group : str) :
  is_group decimal text group → is_group decimal (c :: text) group.
Proof. intros (i & n & m & H1 & H2 & H3). exists (S i), n, m. auto. Qed.

Lemma finditer_groups (text : str) current inside group :
  (inside ≤ length text)%nat →
  group ∈ finditer decimal current inside text →
  (∃ acc j, current = Some acc ∧ (inside ≤ j)%nat ∧ group = rev acc ++ take j text)
  ∨ is_group decimal text group.
Proof.
  revert current inside.
  induction text as [|c rest IH]; intros current inside Hin Hg.
  - destruct current as [acc|]; simpl in Hg; [|inversion Hg].
    apply list_elem_of_singleton in Hg as ->. left. exists acc, O. simpl in *.
    rewrite app_nil_r. split; [reflexivity|]. split; [lia|reflexivity].
  - assert (Hopen : ∀ n, marker decimal (c :: rest) = Some n →
              group ∈ finditer decimal (Some [c]) (n - 1) rest →
              is_group decimal (c :: rest) group).
    { intros n Hn H. assert (Hb := marker_bound _ _ Hn). simpl in Hb.
      assert (Hlen : (n - 1 ≤ length rest)%nat) by lia.
      destruct (IH _ _ Hlen H) as [(acc & j & [= <-] & Hj & ->)|H'].
      - exists O, n, (S j). simpl. split; [exact Hn|]. split; [lia|reflexivity].
      - apply is_group_cons, H'. }
    destruct current as [acc|].
    + destruct inside as [|inside].
      * change (finditer decimal (Some acc) 0 (c :: rest))
          with (match marker decimal (c :: rest) with
                | Some n => rev acc :: finditer decimal (Some [c]) (n - 1) rest
                | None => finditer decimal (Some (c :: acc)) 0 rest
                end) in Hg.
        destruct (marker decimal (c :: rest)) as [n|] eqn:En.
        -- apply elem_of_cons in Hg as [->|Hg].
           ++ left. exists acc, O. simpl. rewrite app_nil_r. auto.
           ++ right. eapply Hopen; eauto.
        -- assert (Hlen : (0 ≤ length rest)%nat) by lia.
           destruct (IH _ _ Hlen Hg) as [(acc' & j & [= <-] & Hj & ->)|H].
           ++ left. exists acc, (S j). simpl. rewrite <- app_assoc.
              split; [reflexivity|]. split; [lia|reflexivity].
           ++ right. apply is_group_cons, H.
      * change (finditer decimal (Some acc) (S inside) (c :: rest))
          with (finditer decimal (Some (c :: acc)) inside rest) in Hg.
        simpl in Hin. assert (Hlen : (inside ≤ length rest)%nat) by lia.
        destruct (IH _ _ Hlen Hg) as [(acc' & j & [= <-] & Hj & ->)|H].
        -- left. exists acc, (S j). simpl. rewrite <- app_assoc.
           split; [reflexivity|]. split; [lia|reflexivity].
        -- right. apply is_group_cons, H.
    + change (finditer decimal None inside (c :: rest))
        with (match marker decimal (c :: rest) with
              | Some n => finditer decimal (Some [c]) (n - 1) rest
              | None => finditer decimal None 0 rest
              end) in Hg.
      destruct (marker decimal (c :: rest)) as [n|] eqn:En.
      * right. eapply Hopen; eauto.
      * assert (Hlen : (0 ≤ length rest)%nat) by lia.
        destruct (IH _ _ Hlen Hg) as [(acc' & j & [=] & _)|H].
        right. apply is_group_cons, H.
Qed.

Lemma collect_laws_spec (groups : list str) (law_dict : dict str) :
  match collect_laws decimal groups law_dict with
  | inr result =>
    existsb (overlong decimal) groups = false
    ∧ result
      = fold_left
          (λ law_dict group, dict_set (law_number_of decimal group) (strip group) law_dict)
          groups law_dict
  | inl _ => existsb (overlong decimal) groups = true
  end.
Proof.
  revert law_dict. induction groups as [|g groups IH]; intros law_dict.
  - split; reflexivity.
  - cbn [collect_laws existsb fold_left]. unfold read_law_number.
    fold (overlong decimal g). destruct (overlong decimal g); [reflexivity|].
    apply IH.
Qed.

(** The loop raises exactly when some match is too long for [int]. *)
Lemma extract_laws_unfold (text : str) :
  extract_laws_from_text decimal text
  = if existsb (overlong decimal) (finditer decimal None 0 text) then []
    else fold_left
           (λ law_dict group, dict_set (law_number_of decimal group) (strip group) law_dict)
           (finditer decimal None 0 text) [].
Proof.
  unfold extract_laws_from_text.
  pose proof (collect_laws_spec (finditer decimal None 0 text) []) as H.
  destruct (collect_laws decimal (finditer decimal None 0 text) []) as [e|result].
  - rewrite H. reflexivity.
  - destruct H as [-> ->]. reflexivity.
Qed.

Lemma extract_laws_keys (text : str) k :
  k ∈ dict_keys (extract_laws_from_text decimal text) →
  ∃ group, group ∈ finditer decimal None 0 text ∧ k = law_number_of decimal group.
Proof.
  rewrite extract_laws_unfold.
  destruct (existsb (overlong decimal) (finditer decimal None 0 text));
    [intros H; inversion H|].
  assert (G : ∀ groups (acc : dict str),
    k ∈ dict_keys (fold_left
      (λ law_dict group, dict_set (law_number_of decimal group) (strip group) law_dict)
      groups acc) →
    k ∈ dict_keys acc ∨ ∃ group, group ∈ groups ∧ k = law_number_of decimal group).
  { induction groups as [|g groups IH]; intros acc H; simpl in H; [left; exact H|].
    apply IH in H as [H|(g' & H1 & H2)].
    - apply dict_keys_set in H as [->|H]; [right|left; exact H].
      exists g. split; [left|reflexivity].
    - right. exists g'. split; [right; exact H1|exact H2]. }
  intros H. apply G in H as [H|H]; [inversion H|exact H].
Qed.

Lemma int_nonnegative (values : list Z) :
  Forall (λ v, 0 ≤ v) values → 0 ≤ int values.
Proof.
  unfold int.
  assert (G : ∀ n, 0 ≤ n → Forall (λ v, 0 ≤ v) values →
                0 ≤ fold_left (λ n v, 10 * n + v) values n).
  { induction values as [|v values IH]; intros n Hn Hv; simpl; [exact Hn|].
    apply Forall_cons in Hv as [Hv Hvs]. apply IH; [lia|exact Hvs]. }
  apply G. lia.
Qed.

Lemma digits_values (text : str) :
  (∀ c v, decimal c = Some v → 0 ≤ v) → Forall (λ v, 0 ≤ v) (digits decimal text).
Proof.
  intros H. induction text as [|c text IH]; simpl; [constructor|].
  destruct (decimal c) as [v|] eqn:E; [|constructor].
  constructor; [eapply H, E|exact IH].
Qed.

Lemma digits_ext (decimal' : char → option Z) (text : str) :
  (∀ c, c ∈ text → decimal c = decimal' c) → digits decimal text = digits decimal' text.
Proof.
  induction text as [|c text IH]; intros H; simpl; [reflexivity|].
  rewrite <- (H c) by left. destruct (decimal c); [|reflexivity].
  rewrite IH; [reflexivity|]. intros c' Hc'. apply H. right. exact Hc'.
Qed.

Lemma marker_ext (decimal' : char → option Z) (text : str) :
  (∀ c, c ∈ text → decimal c = decimal' c) → marker decimal text = marker decimal' text.
Proof.
  intros H. unfold marker. rewrite (digits_ext decimal'); [reflexivity|].
  intros c Hc. apply H. eapply subseteq_drop, Hc.
Qed.

Lemma finditer_ext (decimal' : char → option Z) (text : str) current inside :
  (∀ c, c ∈ text → decimal c = decimal' c) →
  finditer decimal current inside text = finditer decimal' current inside text.
Proof.
  revert current inside. induction text as [|c rest IH]; intros current inside H;
    [reflexivity|].
  assert (Hrest : ∀ c', c' ∈ rest → decimal c' = decimal' c').
  { intros c' Hc'. apply H. right. exact Hc'. }
  simpl. rewrite <- (marker_ext decimal' (c :: rest) H).
  destruct current as [acc|]; [destruct inside|];
    try destruct (marker decimal (c :: rest)); rewrite ?IH by exact Hrest; reflexivity.
Qed.

Lemma is_group_chars (text group : str) c :
  is_group decimal text group → c ∈ group → c ∈ text.
Proof.
  intros (i & n & m & _ & _ & ->) H.
  eapply subseteq_drop, subseteq_take, H.
Qed.

Lemma extract_laws_ext (decimal' : char → option Z) (text : str) :
  (∀ c, c ∈ text → decimal c = decimal' c) →
  extract_laws_from_text decimal text = extract_laws_from_text decimal' text.
Proof.
  intros H. unfold extract_laws_from_text.
  rewrite <- (finditer_ext decimal' text None 0 H).
  assert (Hg : ∀ group, group ∈ finditer decimal None 0 text →
            read_law_number decimal group = read_law_number decimal' group).
  { intros group Hin. unfold read_law_number. rewrite (digits_ext decimal'); [reflexivity|].
    intros c Hc. apply H.
    apply finditer_groups in Hin as [(acc & j & [=] & _)|Hin]; [|simpl; lia].
    eapply is_group_chars; [exact Hin|]. eapply subseteq_drop, Hc. }
  assert (Hc : collect_laws decimal (finditer decimal None 0 text) []
               = collect_laws decimal' (finditer decimal None 0 text) []).
  { revert Hg. generalize (finditer decimal None 0 text). generalize ([] : dict str).
    intros acc groups. revert acc. induction groups as [|g groups IH]; intros acc Hg;
      [reflexivity|].
    cbn [collect_laws]. rewrite (Hg g) by left.
    destruct (read_law_number decimal' g); [reflexivity|].
    apply IH. intros g' Hg'. apply Hg. right. exact Hg'. }
  rewrite Hc. reflexivity.
Qed.

End segmentation.

(** C5.  The text "Điều 1. A Điều 2. B", in which 1 and 2 are the only
    digits, is segmented into the two laws 1 and 2 with these texts.  A text
    in which no boundary marker starts is segmented into the empty
    dictionary, and [process_file] on a file with such a text raises: a
    [RuntimeError] that wraps the [ValueError] of the failed split (of the
    missing text when the text is empty), so that no dictionary, not even a
    partial one, is returned. *)
Theorem segmentation_example_and_empty (decimal : char → option Z) :
  (∀ c, c ∈ u"Điều 1. A Điều 2. B" → decimal c = ascii_decimal c) →
  extract_laws_from_text decimal (u"Điều 1. A Điều 2. B")
  = [(1, u"Điều 1. A"); (2, u"Điều 2. B")]
  ∧ ∀ text : str,
      contains_marker decimal text = false →
      extract_laws_from_text decimal text = []
      ∧ ∀ word pdf_file ocr_text file_type start_page end_page min_word,
          extract_text pdf_file ocr_text file_type start_page end_page = text →
          ∃ message,
            process_file word decimal pdf_file ocr_text file_type
              start_page end_page min_word
            = inl (RuntimeError (ValueError message)).
Proof.
  intros Hd. split.
  - rewrite (extract_laws_ext decimal ascii_decimal _ Hd). vm_compute. reflexivity.
  - intros text Hno.
    assert (He : extract_laws_from_text decimal text = []).
    { unfold extract_laws_from_text. rewrite finditer_no_marker by exact Hno. reflexivity. }
    split; [exact He|].
    intros word pdf_file ocr_text file_type start_page end_page min_word Ht.
    unfold process_file. rewrite Ht.
    destruct (bool_decide (text = [])); [eexists; reflexivity|].
    rewrite He. simpl. eexists. reflexivity.
Qed.

Lemma segmentation_example_and_empty_witness :
  extract_laws_from_text ascii_decimal (u"Điều 1. A Điều 2. B")
  = [(1, u"Điều 1. A"); (2, u"Điều 2. B")]
  ∧ extract_laws_from_text ascii_decimal (u"Chương I. Quy định chung, Điều 1 và 2") = []
  ∧ ∃ message,
      process_file latin_word ascii_decimal
        [u"Chương I. Quy định chung, "; u"Điều 1 và 2"] [] PDF (Some 0) None 512
      = inl (RuntimeError (ValueError message)).
Proof.
  destruct (segmentation_example_and_empty ascii_decimal) as [H1 H2].
  - intros c _. reflexivity.
  - split; [exact H1|].
    destruct (H2 (u"Chương I. Quy định chung, Điều 1 và 2")) as [H3 H4].
    + vm_compute. reflexivity.
    + split; [exact H3|]. apply H4. vm_compute. reflexivity.
Defined.

(** C8 (amended).  Every key of the dictionary that segmentation returns is a
    non-negative integer: the value that [int] gives to the digits behind
    "Điều " in a match, and a match starts where a boundary marker starts. *)
Theorem law_numbers_are_natural (decimal : char → option Z) (text : str) k :
  (∀ c v, decimal c = Some v → 0 ≤ v) →
  k ∈ dict_keys (extract_laws_from_text decimal text) →
  0 ≤ k
  ∧ ∃ group, is_group decimal text group ∧ k = law_number_of decimal group.
Proof.
  intros Hd Hk. apply extract_laws_keys in Hk as (group & Hg & ->). split.
  - unfold law_number_of. apply int_nonnegative, digits_values, Hd.
  - exists group. split; [|reflexivity].
    apply finditer_groups in Hg as [(acc & j & [=] & _)|Hg]; [exact Hg|simpl; lia].
Qed.

Lemma law_numbers_are_natural_witness :
  0 ≤ 12
  ∧ ∃ group, is_group ascii_decimal (u"Lời nói đầu. Điều 12. Hiệu lực") group
             ∧ 12 = law_number_of ascii_decimal group.
Proof.
  apply (law_numbers_are_natural ascii_decimal (u"Lời nói đầu. Điều 12. Hiệu lực") 12).
  - intros c v. unfold ascii_decimal.
    destruct ((48 <=? c) && (c <=? 57)) eqn:E; [|discriminate].
    intros [= <-]. lia.
  - vm_compute. left.
Defined.

(** C8 as stated fails: the marker "Điều 0." gives the key 0, which is not
    strictly positive. *)
Lemma zero_is_a_law_number :
  ¬ ∀ k, k ∈ dict_keys (extract_laws_from_text ascii_decimal (u"Điều 0. Giải thích từ ngữ"))
         → 0 < k.
Proof.
  intros H. specialize (H 0). assert (Hlt : 0 < 0); [|lia].
  apply H. vm_compute. left.
Qed.

(** ** The tone table *)

Lemma index_of_lookup (c : char) (l : list char) j :
  index_of c l = Some j → l !! j = Some c.
Proof.
  revert j. induction l as [|x l IH]; intros j; simpl; [discriminate|].
  destruct (x =? c) eqn:E.
  - apply Z.eqb_eq in E. intros [= <-]. simpl. congruence.
  - destruct (index_of c l) as [j'|]; [|discriminate].
    intros [= <-]. simpl. apply IH. reflexivity.
Qed.

Lemma find_vowel_lookup (c : char) (rows : list (list char * str)) i j :
  find_vowel c rows = Some (i, j) → ∃ r, rows !! i = Some r ∧ r.1 !! j = Some c.
Proof.
  revert i. induction rows as [|row rows IH]; intros i; simpl; [discriminate|].
  destruct (index_of c row.1) as [j'|] eqn:E.
  - intros [= <- <-]. exists row. split; [reflexivity|]. apply index_of_lookup, E.
  - destruct (find_vowel c rows) as [[i' j']|]; [|discriminate].
    intros [= <- <-]. simpl. apply IH. reflexivity.
Qed.

(** A key of [vowels_to_ids] sits in the table at its row and column. *)
Lemma vowels_to_ids_table (c : char) row col :
  vowels_to_ids c = Some (row, col) → table_at row col = Some c.
Proof.
  intros H. apply find_vowel_lookup in H as (r & Hr & Hc).
  unfold table_at. rewrite Hr. simpl. exact Hc.
Qed.

Lemma table_at_bounds row col c :
  table_at row col = Some c → (row < 12)%nat ∧ (col < 6)%nat.
Proof.
  unfold table_at. intros H.
  destruct (vowels_table !! row) as [r|] eqn:Hr; [|discriminate]. simpl in H.
  apply lookup_lt_Some in Hr as Hrow. split; [exact Hrow|].
  apply lookup_lt_Some in H.
  do 12 (destruct row as [|row]; [injection Hr as <-; exact H|]).
  simpl in Hrow. lia.
Qed.

(** The vowels of the table are pairwise distinct: each is the key of its
    own place. *)
Lemma table_at_ids row col c :
  table_at row col = Some c → vowels_to_ids c = Some (row, col).
Proof.
  intros H. destruct (table_at_bounds _ _ _ H) as [Hrow Hcol].
  do 12 (destruct row as [|row];
         [do 6 (destruct col as [|col]; [injection H as <-; reflexivity|]); lia|]).
  lia.
Qed.

Lemma table_at_defined row col :
  (row < 12)%nat → (col < 6)%nat → is_Some (table_at row col).
Proof.
  intros Hrow Hcol.
  do 12 (destruct row as [|row];
         [do 6 (destruct col as [|col]; [eexists; reflexivity|]); lia|]).
  lia.
Qed.

Lemma vowels_to_ids_bounds (c : char) row col :
  vowels_to_ids c = Some (row, col) → (row < 12)%nat ∧ (col < 6)%nat.
Proof. intros H. eapply table_at_bounds, vowels_to_ids_table, H. Qed.

(** ** [standardize_word_typing] *)

Lemma base_vowel (c : char) row col :
  vowels_to_ids c = Some (row, col) → table_at row 0 = Some (base c).
Proof.
  intros H. unfold base. rewrite H.
  destruct (vowels_to_ids_bounds _ _ _ H) as [Hrow _].
  destruct (table_at_defined row 0 Hrow) as [b Hb]; [lia|]. rewrite Hb. reflexivity.
Qed.

Lemma base_plain_vowel (c : char) row :
  vowels_to_ids c = Some (row, O) → base c = c.
Proof.
  intros H. assert (Hb := base_vowel _ _ _ H).
  apply vowels_to_ids_table in H. congruence.
Qed.

Lemma base_other (c : char) : vowels_to_ids c = None → base c = c.
Proof. intros H. unfold base. rewrite H. reflexivity. Qed.

Lemma base_ids (c : char) row col :
  vowels_to_ids c = Some (row, col) → vowels_to_ids (base c) = Some (row, O).
Proof. intros H. apply table_at_ids. eapply base_vowel, H. Qed.

Lemma set_item_middle (pre rest : str) (c c' : char) :
  set_item (pre ++ c :: rest) (length pre) c' = Some (pre ++ c' :: rest).
Proof.
  unfold set_item.
  replace (length pre <? length (pre ++ c :: rest))%nat with true
    by (symmetry; apply Nat.ltb_lt; rewrite length_app; simpl; lia).
  rewrite insert_app_r_alt by lia. rewrite Nat.sub_diag. reflexivity.
Qed.

(** The first loop resets the vowels, remembers the last tone mark and
    collects the indices of the vowels. *)
Lemma scan_vowels_spec (todo pre : str) tone_mark (positions : list nat) :
  scan_vowels (length pre) todo (pre ++ todo) tone_mark positions
  = Some (pre ++ map base todo, tone_after tone_mark todo,
          positions ++ positions_from (length pre) todo).
Proof.
  revert pre tone_mark positions.
  induction todo as [|c todo IH]; intros pre tone_mark positions.
  - simpl. rewrite !app_nil_r. reflexivity.
  - assert (Hnext : ∀ c' tone_mark' positions',
      scan_vowels (S (length pre)) todo (pre ++ c' :: todo) tone_mark' positions'
      = Some (pre ++ c' :: map base todo, tone_after tone_mark' todo,
              positions' ++ positions_from (S (length pre)) todo)).
    { intros c' tone_mark' positions'.
      replace (S (length pre)) with (length (pre ++ [c'])) by (rewrite length_app; simpl; lia).
      replace (pre ++ c' :: todo) with ((pre ++ [c']) ++ todo) by (rewrite <- app_assoc; reflexivity).
      rewrite IH, <- app_assoc. reflexivity. }
    simpl. unfold is_vowel.
    destruct (vowels_to_ids c) as [[row col]|] eqn:E.
    + rewrite bool_decide_eq_true_2 by eauto.
      destruct col as [|col]; simpl.
      * rewrite Hnext, (base_plain_vowel _ _ E), <- app_assoc. reflexivity.
      * rewrite (base_vowel _ _ _ E). simpl. rewrite set_item_middle. simpl.
        rewrite Hnext, <- app_assoc. reflexivity.
    + rewrite bool_decide_eq_false_2 by (intros [? ?]; discriminate).
      rewrite Hnext, (base_other _ E). reflexivity.
Qed.

(** The collected indices are those of the vowels. *)
Lemma elem_of_positions_from (word0 : str) idx pos :
  pos ∈ positions_from idx word0 ↔
  ∃ c, (idx ≤ pos)%nat ∧ word0 !! (pos - idx)%nat = Some c ∧ is_vowel c = true.
Proof.
  revert idx. induction word0 as [|c word0 IH]; intros idx; simpl.
  - split; [intros H; inversion H|intros (c & _ & H & _); discriminate].
  - assert (Hrest : pos ∈ positions_from (S idx) word0 ↔
      ∃ c', (S idx ≤ pos)%nat ∧ (c :: word0) !! (pos - idx)%nat = Some c' ∧ is_vowel c' = true).
    { rewrite IH. split; intros (c' & Hle & Hl & Hv); exists c'; (split; [exact Hle|]);
        (split; [|exact Hv]).
      - replace (pos - idx)%nat with (S (pos - S idx)) by lia. exact Hl.
      - replace (pos - idx)%nat with (S (pos - S idx)) in Hl by lia. exact Hl. }
    destruct (is_vowel c) eqn:Ev.
    + rewrite elem_of_cons, Hrest. split.
      * intros [->|(c' & Hle & Hl & Hv)].
        -- exists c. rewrite Nat.sub_diag. auto.
        -- exists c'. split; [lia|]. auto.
      * intros (c' & Hle & Hl & Hv). destruct (decide (pos = idx)) as [->|Hne]; [left; reflexivity|].
        right. exists c'. split; [lia|]. auto.
    + rewrite Hrest. split.
      * intros (c' & Hle & Hl & Hv). exists c'. split; [lia|]. auto.
      * intros (c' & Hle & Hl & Hv). exists c'. split; [|auto].
        destruct (decide (pos = idx)) as [->|Hne]; [|lia].
        rewrite Nat.sub_diag in Hl. simpl in Hl. congruence.
Qed.

Lemma is_vowel_ids (c : char) :
  is_vowel c = true → ∃ row col, vowels_to_ids c = Some (row, col).
Proof.
  unfold is_vowel. intros H. apply bool_decide_eq_true in H as [[row col] H]. eauto.
Qed.

(** At a collected index the reset word has a vowel without tone mark. *)
Lemma position_vowel (word0 : str) pos :
  pos ∈ positions_from 0 word0 →
  ∃ c row, map base word0 !! pos = Some c ∧ vowels_to_ids c = Some (row, O).
Proof.
  intros H. apply elem_of_positions_from in H as (c & _ & Hl & Hv).
  rewrite Nat.sub_0_r in Hl. apply is_vowel_ids in Hv as (row & col & Hv).
  exists (base c), row. rewrite list_lookup_fmap, Hl. split; [reflexivity|].
  eapply base_ids, Hv.
Qed.

Lemma tone_after_bound (word0 : str) tone_mark :
  (tone_mark < 6)%nat → (tone_after tone_mark word0 < 6)%nat.
Proof.
  revert tone_mark. induction word0 as [|c word0 IH]; intros tone_mark H; simpl; [exact H|].
  destruct (vowels_to_ids c) as [[row [|col]]|] eqn:E; try (apply IH, H).
  apply IH. apply vowels_to_ids_bounds in E. lia.
Qed.

Lemma put_tone_spec (chars : str) pos tone_mark c row :
  chars !! pos = Some c → vowels_to_ids c = Some (row, O) → (tone_mark < 6)%nat →
  put_tone chars pos tone_mark = Some (toned chars pos tone_mark).
Proof.
  intros Hc Hids Ht. unfold put_tone, toned. rewrite Hc. simpl. rewrite Hids. simpl.
  destruct (vowels_to_ids_bounds _ _ _ Hids) as [Hrow _].
  destruct (table_at_defined row tone_mark Hrow Ht) as [v Hv]. rewrite Hv. simpl.
  unfold set_item. apply lookup_lt_Some in Hc.
  replace (pos <? length chars)%nat with true by (symmetry; apply Nat.ltb_lt; exact Hc).
  reflexivity.
Qed.

Lemma prioritize_spec (chars : str) tone_mark (positions : list nat) :
  (tone_mark < 6)%nat →
  (∀ pos, pos ∈ positions → ∃ c row, chars !! pos = Some c ∧ vowels_to_ids c = Some (row, O)) →
  prioritize chars tone_mark positions
  = Some ((λ pos, toned chars pos tone_mark) <$> find (has_priority chars) positions).
Proof.
  intros Ht. induction positions as [|pos positions IH]; intros H; simpl; [reflexivity|].
  destruct (H pos) as (c & row & Hc & Hids); [left|].
  unfold has_priority at 1. rewrite Hc. simpl. rewrite Hids. simpl.
  destruct ((row =? 4)%nat || (row =? 8)%nat).
  - rewrite (put_tone_spec _ _ _ _ _ Hc Hids Ht). reflexivity.
  - apply IH. intros pos' Hpos'. apply H. right. exact Hpos'.
Qed.

(** [standardize_word_typing] raises nothing, and returns the reset word with
    the tone mark on the chosen vowel. *)
Lemma standardize_word_typing_spec (word0 : str) :
  standardize_word_typing word0 = Some (standardized word0).
Proof.
  unfold standardize_word_typing, standardized, tone_position.
  change (scan_vowels 0 word0 word0 0 [])
    with (scan_vowels (length (@nil Z)) word0 ([] ++ word0) 0 []).
  rewrite (scan_vowels_spec word0 [] 0 []). simpl.
  assert (Ht : (tone_after 0 word0 < 6)%nat) by (apply tone_after_bound; lia).
  assert (Hp := position_vowel word0).
  destruct (positions_from 0 word0) as [|p0 positions] eqn:E; [reflexivity|].
  destruct positions as [|p1 positions].
  - simpl. destruct (Hp p0) as (c & row & Hc & Hids); [left|].
    apply (put_tone_spec _ _ _ _ _ Hc Hids Ht).
  - replace (length (p0 :: p1 :: positions) <? 2)%nat with false by reflexivity.
    rewrite prioritize_spec by (exact Ht || exact Hp).
    destruct (find (has_priority (map base word0)) (p0 :: p1 :: positions)); [reflexivity|].
    simpl. destruct (Hp p1) as (c & row & Hc & Hids); [right; left|].
    apply (put_tone_spec _ _ _ _ _ Hc Hids Ht).
Qed.

Lemma base_base (c : char) : base (base c) = base c.
Proof.
  destruct (vowels_to_ids c) as [[row col]|] eqn:E.
  - eapply base_plain_vowel, base_ids, E.
  - rewrite (base_other _ E). apply base_other, E.
Qed.

Lemma is_vowel_base (c : char) : is_vowel (base c) = is_vowel c.
Proof.
  unfold is_vowel. destruct (vowels_to_ids c) as [[row col]|] eqn:E.
  - rewrite (base_ids _ _ _ E). rewrite !bool_decide_eq_true_2 by eauto. reflexivity.
  - rewrite (base_other _ E), E. reflexivity.
Qed.

Lemma positions_from_base (word0 : str) idx :
  positions_from idx (map base word0) = positions_from idx word0.
Proof.
  revert idx. induction word0 as [|c word0 IH]; intros idx; simpl; [reflexivity|].
  rewrite is_vowel_base, IH. reflexivity.
Qed.

Lemma tone_after_app (l1 l2 : str) tone_mark :
  tone_after tone_mark (l1 ++ l2) = tone_after (tone_after tone_mark l1) l2.
Proof.
  revert tone_mark. induction l1 as [|c l1 IH]; intros tone_mark; simpl; [reflexivity|].
  destruct (vowels_to_ids c) as [[row [|col]]|]; apply IH.
Qed.

(** A reset word carries no tone mark. *)
Lemma tone_after_base (word0 : str) tone_mark :
  tone_after tone_mark (map base word0) = tone_mark.
Proof.
  induction word0 as [|c word0 IH]; simpl; [reflexivity|].
  destruct (vowels_to_ids c) as [[row col]|] eqn:E.
  - rewrite (base_ids _ _ _ E). exact IH.
  - rewrite (base_other _ E), E. exact IH.
Qed.

Lemma tone_after_no_vowel (word0 : str) idx tone_mark :
  positions_from idx word0 = [] → tone_after tone_mark word0 = tone_mark.
Proof.
  revert idx. induction word0 as [|c word0 IH]; intros idx; simpl; [reflexivity|].
  unfold is_vowel. destruct (vowels_to_ids c) as [[row col]|] eqn:Ec.
  - rewrite bool_decide_eq_true_2 by eauto. discriminate.
  - rewrite bool_decide_eq_false_2 by (intros [? ?]; discriminate). apply IH.
Qed.

(** The word that takes the tone mark [tone_mark] at the vowel at [pos]. *)
Lemma toned_spec (word0 : str) pos tone_mark :
  pos ∈ positions_from 0 word0 → (tone_mark < 6)%nat →
  ∃ b row v,
    map base word0 !! pos = Some b
    ∧ vowels_to_ids b = Some (row, O)
    ∧ table_at row tone_mark = Some v
    ∧ toned (map base word0) pos tone_mark = <[pos := v]> (map base word0).
Proof.
  intros Hpos Ht. destruct (position_vowel _ _ Hpos) as (b & row & Hb & Hids).
  destruct (vowels_to_ids_bounds _ _ _ Hids) as [Hrow _].
  destruct (table_at_defined row tone_mark Hrow Ht) as [v Hv].
  exists b, row, v. split; [exact Hb|]. split; [exact Hids|]. split; [exact Hv|].
  unfold toned. rewrite Hb. simpl. rewrite Hids, Hv. reflexivity.
Qed.

Lemma tone_position_elem (chars : str) (positions : list nat) pos :
  tone_position chars positions = Some pos → pos ∈ positions.
Proof.
  unfold tone_position. destruct (length positions <? 2)%nat.
  - destruct positions; simpl; [discriminate|]. intros [= ->]. left.
  - destruct (find (has_priority chars) positions) as [p|] eqn:E.
    + intros [= <-]. apply find_some in E as [E _]. apply list_elem_of_In, E.
    + intros H. eapply list_elem_of_lookup_2, H.
Qed.

(** Standardising a word a second time changes nothing. *)
Lemma standardized_idempotent (word0 : str) :
  standardized (standardized word0) = standardized word0.
Proof.
  assert (Ht : (tone_after 0 word0 < 6)%nat) by (apply tone_after_bound; lia).
  assert (G : map base (standardized word0) = map base word0
              ∧ tone_after 0 (standardized word0) = tone_after 0 word0).
  { unfold standardized.
    destruct (tone_position (map base word0) (positions_from 0 word0)) as [pos|] eqn:E.
    - apply tone_position_elem in E.
      destruct (toned_spec _ _ _ E Ht) as (b & row & v & Hb & Hids & Hv & ->).
      assert (Hvb : base v = b).
      { apply table_at_ids in Hv. apply base_vowel in Hv.
        apply vowels_to_ids_table in Hids. congruence. }
      split.
      + rewrite list_fmap_insert, Hvb.
        rewrite <- list_fmap_compose.
        rewrite (list_fmap_ext (base ∘ base) base word0) by
          (intros; apply base_base).
        apply list_insert_id, Hb.
      + apply lookup_lt_Some in Hb as Hlt.
        rewrite insert_take_drop by exact Hlt.
        rewrite <- fmap_take, <- fmap_drop, tone_after_app, tone_after_base.
        simpl. rewrite (table_at_ids _ _ _ Hv).
        destruct (tone_after 0 word0); apply tone_after_base.
    - split.
      + rewrite <- list_fmap_compose.
        apply list_fmap_ext. intros. apply base_base.
      + rewrite tone_after_base.
        unfold tone_position in E.
        destruct (positions_from 0 word0) as [|p0 [|p1 ps]] eqn:Ep; [|discriminate|].
        * symmetry. eapply tone_after_no_vowel, Ep.
        * exfalso. change (length (p0 :: p1 :: ps) <? 2)%nat with false in E.
          cbv iota in E.
          destruct (find (has_priority (map base word0)) (p0 :: p1 :: ps)); discriminate. }
  destruct G as [Gb Gt].
  unfold standardized at 1. rewrite Gb, Gt.
  rewrite <- (positions_from_base (standardized word0)), Gb, positions_from_base.
  reflexivity.
Qed.

Lemma length_standardized (word0 : str) : length (standardized word0) = length word0.
Proof.
  unfold standardized, toned.
  destruct (tone_position _ _); [|apply length_map].
  destruct (_ ≫= vowels_to_ids) as [[row col]|]; [|apply length_map].
  destruct (table_at row _); [|apply length_map].
  rewrite length_insert. apply length_map.
Qed.

Lemma elem_of_concat_2 {A} (x : A) (l : list A) (ls : list (list A)) :
  x ∈ l → l ∈ ls → x ∈ concat ls.
Proof.
  intros Hx. induction ls as [|l0 ls IH]; intros Hl; [inversion Hl|].
  simpl. apply elem_of_app. apply elem_of_cons in Hl as [<-|Hl]; [left|right]; auto.
Qed.

Lemma is_vowel_table_chars (c : char) : is_vowel c = true → c ∈ table_chars.
Proof.
  intros H. apply is_vowel_ids in H as (row & col & H).
  apply find_vowel_lookup in H as (r & Hr & Hc).
  unfold table_chars. apply (elem_of_concat_2 _ r.1).
  - eapply list_elem_of_lookup_2, Hc.
  - apply list_elem_of_fmap. exists r. split; [reflexivity|].
    eapply list_elem_of_lookup_2, Hr.
Qed.

Lemma elem_of_insert_inv {A} (l : list A) i x y :
  y ∈ <[i := x]> l → y = x ∨ y ∈ l.
Proof.
  destruct (decide (i < length l)%nat) as [Hlt|Hge].
  - rewrite insert_take_drop by exact Hlt. rewrite elem_of_app, elem_of_cons.
    intros [H|[H|H]]; [right|left; exact H|right].
    + eapply subseteq_take, H.
    + eapply subseteq_drop, H.
  - rewrite list_insert_ge by lia. auto.
Qed.

(** A character of a standardised word is one of the word or a vowel of the
    table. *)
Lemma elem_of_standardized (word0 : str) c :
  c ∈ standardized word0 → c ∈ word0 ∨ c ∈ table_chars.
Proof.
  assert (Hbase : c ∈ map base word0 → c ∈ word0 ∨ c ∈ table_chars).
  { intros H. apply list_elem_of_fmap in H as (c0 & -> & H).
    destruct (vowels_to_ids c0) as [[row col]|] eqn:E.
    - right. apply is_vowel_table_chars. rewrite is_vowel_base. unfold is_vowel.
      apply bool_decide_eq_true. eauto.
    - left. rewrite (base_other _ E). exact H. }
  unfold standardized, toned.
  destruct (tone_position _ _) as [pos|]; [|exact Hbase].
  destruct (_ ≫= vowels_to_ids) as [[row col]|]; [|exact Hbase].
  destruct (table_at row _) as [v|] eqn:Ev; [|exact Hbase].
  intros H. apply elem_of_insert_inv in H as [->|H]; [|exact (Hbase H)].
  right. apply is_vowel_table_chars. unfold is_vowel. apply bool_decide_eq_true.
  rewrite (table_at_ids _ _ _ Ev). eauto.
Qed.

(** ** Splitting and joining *)

Lemma split_word_like (text : str) : Forall word_like (split text).
Proof.
  induction text as [|c rest IH]; [constructor|].
  simpl. destruct (isspace c) eqn:Ec; [exact IH|].
  destruct rest as [|c' rest'].
  - repeat constructor; [discriminate|exact Ec].
  - destruct (isspace c') eqn:Ec'.
    + constructor; [|exact IH]. repeat constructor; [discriminate|exact Ec].
    + destruct (split (c' :: rest')) as [|w ws]; [repeat constructor; [discriminate|exact Ec]|].
      apply Forall_cons in IH as [[_ Hw] Hws].
      constructor; [|exact Hws]. split; [discriminate|]. constructor; assumption.
Qed.


Lemma split_space (c : char) (text : str) :
  isspace c = true → split (c :: text) = split text.
Proof. intros H. simpl. rewrite H. reflexivity. Qed.

Lemma split_word_app (w t : str) :
  word_like w → split (w ++ 32 :: t) = w :: split t.
Proof.
  intros [Hne Hw]. induction w as [|c w IH]; [congruence|].
  apply Forall_cons in Hw as [Hc Hw].
  destruct w as [|c' w'].
  - simpl. rewrite Hc. reflexivity.
  - assert (Hc' : isspace c' = false) by (apply Forall_cons in Hw as [? _]; assumption).
    change (split ((c :: c' :: w') ++ 32 :: t))
      with (if isspace c then split ((c' :: w') ++ 32 :: t)
            else if isspace c' then [c] :: split ((c' :: w') ++ 32 :: t)
                 else match split ((c' :: w') ++ 32 :: t) with
                      | w :: ws => (c :: w) :: ws
                      | [] => [[c]]
                      end).
    rewrite Hc, Hc', IH by (discriminate || exact Hw). reflexivity.
Qed.

Lemma split_word (w : str) : word_like w → split w = [w].
Proof.
  intros [Hne Hw]. induction w as [|c w IH]; [congruence|].
  apply Forall_cons in Hw as [Hc Hw].
  destruct w as [|c' w'].
  - simpl. rewrite Hc. reflexivity.
  - assert (Hc' : isspace c' = false) by (apply Forall_cons in Hw as [? _]; assumption).
    change (split (c :: c' :: w'))
      with (if isspace c then split (c' :: w')
            else if isspace c' then [c] :: split (c' :: w')
                 else match split (c' :: w') with
                      | w :: ws => (c :: w) :: ws
                      | [] => [[c]]
                      end).
    rewrite Hc, Hc', IH by (discriminate || exact Hw). reflexivity.
Qed.

Lemma join_cons2 (sep w w2 : str) (ws : list str) :
  join sep (w :: w2 :: ws) = w ++ sep ++ join sep (w2 :: ws).
Proof. reflexivity. Qed.

(** Splitting the words joined by single blanks gives the words back. *)
Lemma split_join (ws : list str) :
  Forall word_like ws → split (join [32] ws) = ws.
Proof.
  induction ws as [|w ws IH]; intros H; [reflexivity|].
  apply Forall_cons in H as [Hw Hws]. destruct ws as [|w2 ws].
  - simpl. apply split_word, Hw.
  - rewrite join_cons2.
    change ([32] ++ join [32] (w2 :: ws)) with (32 :: join [32] (w2 :: ws)).
    rewrite split_word_app by exact Hw.
    rewrite IH by exact Hws. reflexivity.
Qed.


(** ** The steps of the normaliser on a text that they leave alone *)










Lemma find_none_all {A} (f : A → bool) (l : list A) :
  Forall (λ x, f x = false) l → find f l = None.
Proof.
  induction 1 as [|x l Hx _ IH]; simpl; [reflexivity|]. rewrite Hx. exact IH.
Qed.


(** ** The normaliser *)

Section normaliser.

Variable word : char → bool.

Lemma mapM_standardize (ws : list str) :
  mapM standardize_word_typing ws = Some (map standardized ws).
Proof.
  apply mapM_Some_2. induction ws as [|w ws IH]; constructor; [|exact IH].
  apply standardize_word_typing_spec.
Qed.

(** [text_preprocess] raises nothing: this is what it returns. *)
Lemma text_preprocess_spec (text : str) :
  text_preprocess word text
  = Some (remove_unnecessary_characters word
            (join [32] (map standardized
               (split (convert_unicode (remove_html_tags text)))))).
Proof.
  unfold text_preprocess, standardize_sentence_typing.
  rewrite mapM_standardize. reflexivity.
Qed.

(** The lower-case letters of ASCII are word characters. *)
Hypothesis word_lower : ∀ c, 97 ≤ c ≤ 122 → word c = true.







End normaliser.




(** ** The length filter *)

Lemma filter_items_spec (word : char → bool) (items : list (Z * str)) (min_length : Z)
    (filtered : dict str) :
  NoDup (dict_keys items) →
  ∃ result,
    filter_items word items min_length filtered = Some result
    ∧ ∀ k, dict_get k result
           = match dict_get k items with
             | Some content =>
               if min_length <=? count_words_in_text content
               then text_preprocess word content
               else dict_get k filtered
             | None => dict_get k filtered
             end.
Proof.
  revert filtered. induction items as [|[k0 c0] items IH]; intros filtered Hnd.
  - exists filtered. split; reflexivity.
  - apply NoDup_cons in Hnd as [Hk0 Hnd].
    assert (Hnone : dict_get k0 items = None) by (apply dict_get_None_keys, Hk0).
    simpl filter_items. destruct (min_length <=? count_words_in_text c0) eqn:E.
    + rewrite text_preprocess_spec. simpl.
      destruct (IH (dict_set k0 (remove_unnecessary_characters word
                      (join [32] (map standardized
                         (split (convert_unicode (remove_html_tags c0)))))) filtered) Hnd)
        as (result & Hr & Hget).
      exists result. split; [exact Hr|]. intros k. rewrite Hget. simpl.
      destruct (k0 =? k) eqn:Ek.
      * apply Z.eqb_eq in Ek. subst k. rewrite Hnone, dict_get_set, Z.eqb_refl, E.
        rewrite text_preprocess_spec. reflexivity.
      * rewrite dict_get_set, Ek. destruct (dict_get k items); reflexivity.
    + destruct (IH filtered Hnd) as (result & Hr & Hget).
      exists result. split; [exact Hr|]. intros k. rewrite Hget. simpl.
      destruct (k0 =? k) eqn:Ek; [|reflexivity].
      apply Z.eqb_eq in Ek. subst k. rewrite Hnone, E. reflexivity.
Qed.

(** C6.  [filter_laws_by_length] returns a dictionary that has, for every
    key, the normalised text of the law when the count of the words of its raw
    text (the parts between white space) is at least [min_word], and no entry
    otherwise: a law of exactly [min_word] words stays, a law of
    [min_word - 1] words goes, and [text_preprocess] is applied to the raw
    text of the laws that stay. *)
Theorem filter_laws_by_length_on_raw_text (word : char → bool) (laws : dict str)
    (min_word : Z) :
  NoDup (dict_keys laws) →
  ∃ filtered,
    filter_laws_by_length word laws min_word = Some filtered
    ∧ (∀ k, dict_get k laws = None → dict_get k filtered = None)
    ∧ ∀ k content,
        dict_get k laws = Some content →
        dict_get k filtered
        = (if min_word <=? count_words_in_text content
           then text_preprocess word content else None)
        ∧ (count_words_in_text content = min_word →
             dict_get k filtered = text_preprocess word content)
        ∧ (count_words_in_text content = min_word - 1 → dict_get k filtered = None).
Proof.
  intros Hnd. destruct (filter_items_spec word laws min_word [] Hnd) as (filtered & Hf & Hget).
  exists filtered. split; [exact Hf|]. split.
  - intros k Hk. rewrite Hget, Hk. reflexivity.
  - intros k content Hk. rewrite Hget, Hk. split; [reflexivity|]. split.
    + intros ->. rewrite Z.leb_refl. reflexivity.
    + intros E. replace (min_word <=? count_words_in_text content) with false by lia.
      reflexivity.
Qed.

Lemma filter_laws_by_length_on_raw_text_witness :
  count_words_in_text (u"Điều 1. Phạm vi,đối tượng") = 5
  ∧ text_preprocess latin_word (u"Điều 1. Phạm vi,đối tượng")
    = Some (u"Điều 1 Phạm vi đối tượng")
  ∧ count_words_in_text (u"Điều 1 Phạm vi đối tượng") = 6
  ∧ ∃ filtered,
      filter_laws_by_length latin_word
        [(1, u"Điều 1. Phạm vi,đối tượng"); (2, u"Điều 2. Giải thích")] 5
      = Some filtered
      ∧ dict_get 1 filtered = Some (u"Điều 1 Phạm vi đối tượng")
      ∧ dict_get 2 filtered = None.
Proof.
  split; [vm_compute; reflexivity|]. split; [vm_compute; reflexivity|].
  split; [vm_compute; reflexivity|].
  destruct (filter_laws_by_length_on_raw_text latin_word
              [(1, u"Điều 1. Phạm vi,đối tượng"); (2, u"Điều 2. Giải thích")] 5)
    as (filtered & Hf & _ & Hget).
  - unfold dict_keys. simpl. apply NoDup_cons. split; [|apply NoDup_singleton].
    intros H. apply list_elem_of_singleton in H. discriminate.
  - exists filtered. split; [exact Hf|]. split.
    + destruct (Hget 1 (u"Điều 1. Phạm vi,đối tượng")) as (_ & H & _); [reflexivity|].
      rewrite H by (vm_compute; reflexivity). vm_compute. reflexivity.
    + destruct (Hget 2 (u"Điều 2. Giải thích")) as (_ & _ & H); [reflexivity|].
      apply H. vm_compute. reflexivity.
Defined.

(** * Further properties *)

(** ** The similarity *)

Lemma next_row_length a (t : str) (prev : list nat) left :
  length prev = S (length t) → length (next_row a t prev left) = length t.
Proof.
  revert prev left. induction t as [|b t IH]; intros prev left H; [reflexivity|].
  destruct prev as [|diag [|up prev']]; simpl in H; try lia.
  simpl. f_equal. apply IH. simpl. lia.
Qed.

Lemma next_row_bound a (t : str) (prev : list nat) left i j0 :
  (∀ j d, prev !! j = Some d → (d ≤ Nat.max i (j0 + j))%nat) →
  ∀ j d, next_row a t prev left !! j = Some d → (d ≤ Nat.max (S i) (S (j0 + j)))%nat.
Proof.
  revert prev left j0. induction t as [|b t IH]; intros prev left j0 Hp j d H.
  - destruct prev; simpl in H; rewrite lookup_nil in H; discriminate.
  - destruct prev as [|diag [|up prev']]; simpl in H; try (rewrite lookup_nil in H; discriminate).
    destruct j as [|j]; simpl in H.
    + injection H as <-. pose proof (Hp O diag eq_refl) as Hd.
      destruct (a =? b), diag; lia.
    + apply (IH _ _ (S j0)) in H.
      * replace (j0 + S j)%nat with (S j0 + j)%nat by lia. exact H.
      * intros j' d' H'. specialize (Hp (S j') d' H').
        replace (S j0 + j')%nat with (j0 + S j')%nat by lia. exact Hp.
Qed.

Lemma next_row_diagonal a (t : str) (prev : list nat) left j :
  t !! j = Some a → prev !! j = Some O → length prev = S (length t) →
  next_row a t prev left !! j = Some O.
Proof.
  revert prev left j. induction t as [|b t IH]; intros prev left j Ht Hp Hl.
  - rewrite lookup_nil in Ht. discriminate.
  - destruct prev as [|diag [|up prev']]; simpl in Hl; try lia.
    destruct j as [|j]; simpl in *.
    + injection Ht as ->. injection Hp as ->. rewrite Z.eqb_refl. reflexivity.
    + apply IH; [exact Ht|exact Hp|simpl; lia].
Qed.

Lemma levenshtein_rows_length (s t : str) (row : list nat) :
  length row = S (length t) →
  length (fold_left (λ row a, S (List.hd O row) :: next_row a t row (S (List.hd O row))) s row)
  = S (length t).
Proof.
  revert row. induction s as [|a s IH]; intros row H; [exact H|].
  simpl. apply IH. simpl. rewrite next_row_length; [reflexivity|exact H].
Qed.

Lemma levenshtein_rows_bound (s t : str) (row : list nat) i :
  (∀ j d, row !! j = Some d → (d ≤ Nat.max i j)%nat) →
  ∀ j d,
    fold_left (λ row a, S (List.hd O row) :: next_row a t row (S (List.hd O row))) s row !! j
    = Some d →
    (d ≤ Nat.max (length s + i) j)%nat.
Proof.
  revert row i. induction s as [|a s IH]; intros row i Hrow j d H; [exact (Hrow j d H)|].
  simpl in H. apply (IH _ (S i)) in H; [simpl; lia|].
  intros j' d' H'. destruct j' as [|j']; simpl in H'.
  - injection H' as <-. destruct row as [|d0 row]; simpl; [lia|].
    specialize (Hrow O d0 eq_refl). lia.
  - apply (next_row_bound _ _ _ _ i O) in H'; [exact H'|].
    intros j2 d2 H2. exact (Hrow j2 d2 H2).
Qed.

Lemma last_lookup_length {A} (l : list A) (d : A) n :
  length l = S n → l !! n = Some (List.last l d).
Proof.
  revert n. induction l as [|x l IH]; intros n H; [discriminate|].
  destruct l as [|y l].
  - simpl in H. assert (n = O) by lia. subst. reflexivity.
  - destruct n as [|n]; [simpl in H; lia|].
    change (List.last (x :: y :: l) d) with (List.last (y :: l) d).
    simpl. apply IH. simpl in *. lia.
Qed.

Lemma levenshtein_bound (s t : str) :
  (levenshtein s t ≤ Nat.max (length s) (length t))%nat.
Proof.
  unfold levenshtein, levenshtein_rows.
  pose proof (levenshtein_rows_length s t (seq 0 (S (length t)))) as Hl.
  rewrite length_seq in Hl. specialize (Hl eq_refl).
  pose proof (last_lookup_length _ O _ Hl) as Hlast.
  apply (levenshtein_rows_bound s t _ O) in Hlast; [lia|].
  intros j d H. apply lookup_seq in H. lia.
Qed.

Lemma levenshtein_rows_diagonal (p q : str) (row : list nat) :
  length row = S (length (p ++ q)) → row !! length p = Some O →
  fold_left (λ row a, S (List.hd O row) :: next_row a (p ++ q) row (S (List.hd O row))) q row
    !! length (p ++ q) = Some O.
Proof.
  revert p row. induction q as [|a q IH]; intros p row Hl Hp.
  - simpl. rewrite app_nil_r. exact Hp.
  - simpl. replace (p ++ a :: q) with ((p ++ [a]) ++ q) by (rewrite <- app_assoc; reflexivity).
    apply IH.
    + simpl. rewrite next_row_length; [reflexivity|].
      rewrite Hl. rewrite <- app_assoc. reflexivity.
    + rewrite length_app. simpl. replace (length p + 1)%nat with (S (length p)) by lia.
      simpl. apply next_row_diagonal.
      * rewrite <- app_assoc. simpl. apply list_lookup_middle. reflexivity.
      * exact Hp.
      * rewrite Hl. rewrite <- app_assoc. reflexivity.
Qed.

Lemma levenshtein_identical (s : str) : levenshtein s s = O.
Proof.
  unfold levenshtein, levenshtein_rows.
  pose proof (levenshtein_rows_length s s (seq 0 (S (length s)))) as Hl.
  rewrite length_seq in Hl. specialize (Hl eq_refl).
  pose proof (last_lookup_length _ O _ Hl) as Hlast.
  pose proof (levenshtein_rows_diagonal [] s (seq 0 (S (length s)))) as Hd.
  simpl app in Hd. rewrite length_seq in Hd. specialize (Hd eq_refl eq_refl).
  rewrite Hd in Hlast. injection Hlast as Heq. symmetry. exact Heq.
Qed.

(** X3.  [get_similarity] is defined as soon as one of the two texts is not
    empty, and its value lies between 0 and 1: the edit distance is never
    more than the length of the longer text. *)
Theorem get_similarity_range (old_content new_content : str) :
  old_content ≠ [] ∨ new_content ≠ [] →
  ∃ similarity,
    get_similarity old_content new_content = inr similarity
    ∧ (0 <= similarity)%Q ∧ (similarity <= 1)%Q.
Proof.
  intros Hne. unfold get_similarity.
  pose proof (levenshtein_bound old_content new_content) as Hb.
  destruct (Nat.max (length new_content) (length old_content)) as [|n] eqn:En.
  - exfalso. destruct Hne as [Hne|Hne]; apply Hne.
    + destruct old_content; [reflexivity|simpl in En; lia].
    + destruct new_content; [reflexivity|simpl in En; lia].
  - simpl Nat.eqb. cbv iota. eexists. split; [reflexivity|].
    assert (Hd : (levenshtein old_content new_content ≤ S n)%nat) by lia.
    generalize dependent (levenshtein old_content new_content). intros d _ Hd.
    unfold Qle, Qminus, Qplus, Qopp, Qdiv, Qmult, Qinv, inject_Z. simpl.
    split; lia.
Qed.

Lemma get_similarity_range_witness :
  ∃ similarity,
    get_similarity law5_old law5_new = inr similarity
    ∧ (0 <= similarity)%Q ∧ (similarity <= 1)%Q.
Proof. apply get_similarity_range. left. vm_compute. discriminate. Defined.

Lemma get_similarity_identical (content : str) :
  content ≠ [] →
  ∃ similarity,
    get_similarity content content = inr similarity
    ∧ (similarity == 1)%Q ∧ Qle_bool similarity threshold = false.
Proof.
  intros Hne. unfold get_similarity. rewrite levenshtein_identical.
  destruct (Nat.max (length content) (length content)) as [|n] eqn:En.
  - exfalso. apply Hne. destruct content; [reflexivity|simpl in En; lia].
  - simpl Nat.eqb. cbv iota. eexists. split; [reflexivity|].
    split.
    + unfold Qeq, Qminus, Qplus, Qopp, Qdiv, Qmult, Qinv, inject_Z. simpl. lia.
    + apply not_true_is_false. intros H. apply Qle_bool_imp_le in H.
      unfold threshold, Qle, Qminus, Qplus, Qopp, Qdiv, Qmult, Qinv, inject_Z in H.
      simpl in H. lia.
Qed.

(** ** Further properties of the reconciliation worker *)

Lemma is_marked_identical documents k (content : str) :
  dict_get k (get_existing_laws documents) = Some content →
  is_marked (get_existing_laws documents) (k, content) = false.
Proof.
  intros H. unfold is_marked. simpl. rewrite H.
  destruct (get_similarity_identical content) as (q & -> & _ & Hq); [|exact Hq].
  eapply get_existing_laws_nonempty, H.
Qed.

Lemma compare_loop_unchanged documents (items : list (Z * str)) self :
  (∀ k v, (k, v) ∈ items → dict_get k (get_existing_laws documents) = Some v) →
  for_each items (compare_law (get_existing_laws documents)) self = (inr (), self).
Proof.
  induction items as [|[k v] items IH]; intros H; [reflexivity|].
  rewrite for_each_cons.
  assert (Hk : dict_get k (get_existing_laws documents) = Some v) by (apply H; left).
  rewrite compare_law_run.
  - cbn [marks inserts]. rewrite is_marked_identical by exact Hk. rewrite Hk.
    rewrite extend_nil. apply IH. intros k' v' Hin. apply H. right. exact Hin.
  - intros old_content Ho. eapply get_existing_laws_nonempty, Ho.
  - rewrite Hk. discriminate.
Qed.

(** X4.  Submitting again what the store holds changes nothing: on a worker
    without marks, a batch in which every law has the text that the snapshot
    has for its number ends normally, issues no store call and leaves the
    worker as it was. *)
Theorem update_laws_unchanged_is_noop documents (new_laws : dict str) self :
  low_similarity_laws self = [] →
  (∀ k v, (k, v) ∈ new_laws → dict_get k (get_existing_laws documents) = Some v) →
  update_laws documents new_laws self = (inr (), self).
Proof.
  intros Hlow H. rewrite update_laws_unfold, compare_loop_unchanged by exact H.
  rewrite delete_low_similarity_laws_run, Hlow. cbn [deletions map].
  rewrite extend_nil, Hlow. reflexivity.
Qed.

Lemma update_laws_unchanged_is_noop_witness :
  update_laws [stored 5 law5_old; stored 6 law6_old] [(6, law6_old); (5, law5_old)] __init__
  = (inr (), __init__).
Proof.
  apply update_laws_unchanged_is_noop; [reflexivity|].
  intros k v Hin. apply list_elem_of_In in Hin.
  destruct Hin as [Hin|[Hin|[]]]; injection Hin as <- <-; reflexivity.
Defined.

(** X5.  A blank content stops the batch where it stands and nothing is
    undone: when the comparison loop reaches a law whose number the snapshot
    lacks and whose content is blank, [update_laws] raises the
    [RuntimeError] of [embed_and_save]; the inserts and the marks of the
    items before it stay, and no deletion has been issued. *)
Theorem update_laws_blank_content_aborts documents (done : list (Z * str)) k (v : str)
    (rest : list (Z * str)) self :
  (∀ k' v', (k', v') ∈ done → strip v' ≠ []) →
  dict_get k (get_existing_laws documents) = None →
  strip v = [] →
  let existing_laws := get_existing_laws documents in
  let run := update_laws documents (done ++ (k, v) :: rest) self in
  run.1 = inl (RuntimeError no_content)
  ∧ low_similarity_laws run.2 = low_similarity_laws self ++ marks existing_laws done
  ∧ issued self run.2 = inserts existing_laws done
  ∧ ∀ c, c ∈ issued self run.2 → is_delete c = false.
Proof.
  intros Hdone Hk Hv existing_laws run. subst existing_laws run.
  assert (Hrun : update_laws documents (done ++ (k, v) :: rest) self
                 = (inl (RuntimeError no_content),
                    extend self (marks (get_existing_laws documents) done)
                      (inserts (get_existing_laws documents) done))).
  { rewrite update_laws_unfold, for_each_app. rewrite compare_loop_run.
    - rewrite for_each_cons. unfold compare_law. rewrite Hk.
      rewrite embed_and_save_blank by exact Hv. reflexivity.
    - intros k' old_content Ho. eapply get_existing_laws_nonempty, Ho.
    - exact Hdone. }
  rewrite Hrun. cbn [fst snd]. rewrite issued_extend.
  split; [reflexivity|]. split; [reflexivity|]. split; [reflexivity|].
  intros c Hc. apply inserts_absent in Hc as (k' & v' & -> & _). reflexivity.
Qed.

Lemma update_laws_blank_content_aborts_witness :
  let run := update_laws [stored 5 law5_old] [(7, law7); (5, law5_new); (8, u"  ")] __init__ in
  run.1 = inl (RuntimeError no_content)
  ∧ low_similarity_laws run.2 = [5]
  ∧ issued __init__ run.2 = [append 7 law7 law7]
  ∧ ∀ c, c ∈ issued __init__ run.2 → is_delete c = false.
Proof.
  apply (update_laws_blank_content_aborts [stored 5 law5_old] [(7, law7); (5, law5_new)]
           8 (u"  ") [] __init__).
  - intros k' v' Hin. apply list_elem_of_In in Hin.
    destruct Hin as [Hin|[Hin|[]]]; injection Hin as <- <-; vm_compute; discriminate.
  - reflexivity.
  - reflexivity.
Defined.

Lemma get_existing_laws_snoc documents doc :
  get_existing_laws (documents ++ [doc])
  = match doc_law_number doc, doc_text doc with
    | Some law_number, Some text =>
      if negb (law_number =? 0) && negb (bool_decide (text = []))
      then dict_set law_number text (get_existing_laws documents)
      else get_existing_laws documents
    | _, _ => get_existing_laws documents
    end.
Proof. unfold get_existing_laws. rewrite fold_left_app. reflexivity. Qed.

Lemma get_existing_laws_snoc_same documents k (text : str) :
  k ≠ 0 → text ≠ [] →
  dict_get k (get_existing_laws (documents ++ [stored k text])) = Some text.
Proof.
  intros Hk Ht. rewrite get_existing_laws_snoc. cbn [stored doc_law_number doc_text].
  apply Z.eqb_neq in Hk. rewrite Hk. rewrite bool_decide_eq_false_2 by exact Ht.
  cbn [negb andb]. rewrite dict_get_set, Z.eqb_refl. reflexivity.
Qed.

Lemma get_existing_laws_snoc_other documents doc k :
  k ≠ 0 → (∀ text' : str, text' ≠ [] → doc ≠ stored k text') →
  dict_get k (get_existing_laws (documents ++ [doc]))
  = dict_get k (get_existing_laws documents).
Proof.
  intros Hk Hdoc. rewrite get_existing_laws_snoc.
  destruct doc as [[k'|] [t'|]]; cbn [doc_law_number doc_text]; try reflexivity.
  destruct (negb (k' =? 0) && negb (bool_decide (t' = []))) eqn:Hvalid; [|reflexivity].
  apply andb_true_iff in Hvalid as [_ Ht'].
  apply negb_true_iff, bool_decide_eq_false in Ht'.
  rewrite dict_get_set. destruct (k' =? k) eqn:Ekk; [|reflexivity].
  apply Z.eqb_eq in Ekk. subst k'. exfalso. exact (Hdoc t' Ht' eq_refl).
Qed.

Lemma stored_or_other doc k :
  (∃ text' : str, text' ≠ [] ∧ doc = stored k text')
  ∨ (∀ text' : str, text' ≠ [] → doc ≠ stored k text').
Proof.
  destruct doc as [[k'|] [t'|]]; try (right; intros text' _; discriminate).
  destruct (decide (k' = k)) as [->|Hk]; [|right; intros text' _ [= ? ?]; congruence].
  destruct (decide (t' = [])) as [->|Ht].
  - right. intros text' Hne [= ?]. congruence.
  - left. exists t'. split; [exact Ht|reflexivity].
Qed.

(** X6.  The snapshot of [get_existing_laws] maps a law number to the text
    of the last stored object that has this number and a text: the number is
    not 0, the text is not empty, and no later object with a text that is not
    empty has the number. *)
Theorem get_existing_laws_latest documents k (text : str) :
  dict_get k (get_existing_laws documents) = Some text ↔
  k ≠ 0 ∧ text ≠ []
  ∧ ∃ before after,
      documents = before ++ stored k text :: after
      ∧ ∀ text' : str, text' ≠ [] → stored k text' ∉ after.
Proof.
  split.
  - intros H. assert (Hk : k ≠ 0).
    { intros ->. exact (get_existing_laws_nonzero _ _ H). }
    assert (Ht : text ≠ []) by (eapply get_existing_laws_nonempty, H).
    split; [exact Hk|]. split; [exact Ht|].
    induction documents as [|doc documents IH] using rev_ind; [discriminate|].
    destruct (stored_or_other doc k) as [(text' & Hne & ->)|Hother].
    + rewrite get_existing_laws_snoc_same in H by assumption. injection H as ->.
      exists documents, []. split; [reflexivity|]. intros t _ Hin. inversion Hin.
    + rewrite get_existing_laws_snoc_other in H.
      * destruct (IH H) as (before & after & -> & Hafter).
        exists before, (after ++ [doc]). rewrite <- app_assoc. split; [reflexivity|].
        intros text' Hne Hin. apply elem_of_app in Hin as [Hin|Hin];
          [exact (Hafter text' Hne Hin)|].
        apply list_elem_of_singleton in Hin. exact (Hother text' Hne (eq_sym Hin)).
      * exact Hk.
      * exact Hother.
  - intros (Hk & Ht & before & after & -> & Hafter).
    induction after as [|doc after IH] using rev_ind.
    + apply get_existing_laws_snoc_same; assumption.
    + rewrite app_comm_cons, app_assoc, get_existing_laws_snoc_other.
      * apply IH. intros text' Hne Hin. apply (Hafter text' Hne), elem_of_app. left. exact Hin.
      * exact Hk.
      * intros text' Hne ->. apply (Hafter text' Hne), elem_of_app. right. left.
Qed.

(** ** White space at the ends of a text *)

Lemma lstrip_spec (l : str) :
  ∃ n, (n ≤ length l)%nat ∧ lstrip l = drop n l
       ∧ Forall (λ c, isspace c = true) (take n l)
       ∧ ∀ c t, drop n l = c :: t → isspace c = false.
Proof.
  induction l as [|c l IH].
  - exists O. split; [reflexivity|]. split; [reflexivity|]. split; [constructor|discriminate].
  - simpl. destruct (isspace c) eqn:E.
    + destruct IH as (n & Hn & Hl & Hs & Hh). exists (S n). simpl.
      split; [lia|]. split; [exact Hl|]. split; [constructor; assumption|exact Hh].
    + exists O. simpl. split; [lia|]. split; [reflexivity|]. split; [constructor|].
      intros c' t [= <- _]. exact E.
Qed.

Lemma lstrip_fixed (l : str) :
  (∀ c t, l = c :: t → isspace c = false) → lstrip l = l.
Proof.
  destruct l as [|c l]; [reflexivity|]. intros H. simpl. rewrite (H c l eq_refl). reflexivity.
Qed.


Lemma lstrip_all_space (l : str) :
  lstrip l = [] ↔ Forall (λ c, isspace c = true) l.
Proof.
  induction l as [|c l IH]; [split; [constructor|reflexivity]|].
  simpl. destruct (isspace c) eqn:E.
  - rewrite IH. split; [intros H; constructor; assumption|].
    intros H. inversion H. assumption.
  - split; [discriminate|]. intros H. inversion H. congruence.
Qed.

Lemma strip_spec (l : str) :
  ∃ n m, strip l = take m (drop n l)
    ∧ Forall (λ c, isspace c = true) (take n l)
    ∧ Forall (λ c, isspace c = true) (drop m (drop n l))
    ∧ (∀ c t, strip l = c :: t → isspace c = false)
    ∧ (∀ c t, rev (strip l) = c :: t → isspace c = false)
    ∧ (∀ j c, drop n l !! j = Some c → isspace c = false → (j < m)%nat).
Proof.
  unfold strip.
  destruct (lstrip_spec l) as (n & Hn & Hl & Hs & Hh). rewrite Hl.
  set (a := drop n l) in *.
  destruct (lstrip_spec (rev a)) as (k & Hk & Hr & Hsr & Hhr). rewrite Hr.
  rewrite length_rev in Hk.
  assert (Hform : rev (drop k (rev a)) = take (length a - k) a).
  { rewrite skipn_rev, rev_involutive. reflexivity. }
  assert (Hsp : Forall (λ c, isspace c = true) (drop (length a - k) a)).
  { rewrite firstn_rev in Hsr. apply Forall_forall. intros c Hc.
    rewrite Forall_forall in Hsr. apply Hsr. apply list_elem_of_In. rewrite <- in_rev.
    apply list_elem_of_In. exact Hc. }
  exists n, (length a - k)%nat. rewrite Hform.
  split; [reflexivity|]. split; [exact Hs|]. split; [exact Hsp|].
  split; [|split].
  - intros c t H. destruct (length a - k)%nat as [|m]; [discriminate|].
    destruct a as [|c' a']; [discriminate|]. simpl in H. injection H as <- _.
    exact (Hh c' a' eq_refl).
  - intros c t H. rewrite <- Hform, rev_involutive in H. exact (Hhr c t H).
  - intros j c Hj Hc. destruct (decide (j < length a - k)%nat) as [|Hge]; [assumption|].
    exfalso. rewrite Forall_forall in Hsp.
    assert (Hin : c ∈ drop (length a - k) a).
    { apply list_elem_of_lookup.
      exists (j - (length a - k))%nat. rewrite lookup_drop.
      replace (length a - k + (j - (length a - k)))%nat with j by lia. exact Hj. }
    specialize (Hsp c Hin). congruence.
Qed.

Lemma strip_all_space (l : str) :
  strip l = [] ↔ Forall (λ c, isspace c = true) l.
Proof.
  split.
  - intros H. destruct (strip_spec l) as (n & m & Hf & Hs1 & Hs2 & _).
    rewrite H in Hf. rewrite <- (take_drop n l). apply Forall_app. split; [exact Hs1|].
    rewrite <- (take_drop m (drop n l)), <- Hf. exact Hs2.
  - intros H. unfold strip. apply lstrip_all_space in H. rewrite H. reflexivity.
Qed.

Lemma elem_of_strip (l : str) c : c ∈ strip l → c ∈ l.
Proof.
  destruct (strip_spec l) as (n & m & -> & _). intros H.
  apply subseteq_take, subseteq_drop in H. exact H.
Qed.

Lemma elem_of_strip_nonspace (l : str) c :
  c ∈ l → isspace c = false → c ∈ strip l.
Proof.
  intros Hin Hc. destruct (strip_spec l) as (n & m & -> & Hs1 & _ & _ & _ & Hj).
  rewrite <- (take_drop n l) in Hin. apply elem_of_app in Hin as [Hin|Hin].
  - rewrite Forall_forall in Hs1. apply Hs1 in Hin. congruence.
  - apply list_elem_of_lookup in Hin as [j Hin].
    apply list_elem_of_lookup. exists j. rewrite lookup_take_lt; [exact Hin|].
    exact (Hj j c Hin Hc).
Qed.

Lemma strip_fixed (l : str) :
  (∀ c t, l = c :: t → isspace c = false) →
  (∀ c t, rev l = c :: t → isspace c = false) →
  strip l = l.
Proof.
  intros H1 H2. unfold strip. rewrite (lstrip_fixed l H1), (lstrip_fixed (rev l) H2).
  apply rev_involutive.
Qed.

Lemma strip_idempotent (l : str) : strip (strip l) = strip l.
Proof.
  destruct (strip_spec l) as (n & m & _ & _ & _ & H1 & H2 & _).
  apply strip_fixed; assumption.
Qed.

(** ** Further properties of the page readers *)

Lemma pages_from_single (pages : list str) (pageno i : Z) :
  pageno ≤ i →
  pages_from pageno pages [i] = default [] (pages !! Z.to_nat (i - pageno)).
Proof.
  revert pageno. induction pages as [|page pages IH]; intros pageno H; [reflexivity|].
  simpl. destruct (decide (pageno = i)) as [->|Hne].
  - rewrite bool_decide_eq_true_2 by (apply list_elem_of_singleton; reflexivity).
    replace (Z.to_nat (i - i)) with O by lia. simpl.
    assert (Hrest : ∀ (l : list str) p, i < p → pages_from p l [i] = []).
    { clear. induction l as [|x l IH]; intros p Hp; [reflexivity|]. simpl.
      rewrite bool_decide_eq_false_2; [apply IH; lia|].
      intros Hin. apply list_elem_of_singleton in Hin. lia. }
    rewrite Hrest by lia. apply app_nil_r.
  - rewrite bool_decide_eq_false_2
      by (intros Hin; apply list_elem_of_singleton in Hin; congruence).
    replace (Z.to_nat (i - pageno)) with (S (Z.to_nat (i - (pageno + 1)))) by lia.
    simpl. apply IH. lia.
Qed.

Lemma range_cons (a b : Z) : a < b → range a b = a :: range (a + 1) b.
Proof.
  intros H. unfold range.
  replace (Z.to_nat (b - a)) with (S (Z.to_nat (b - (a + 1)))) by lia.
  simpl. f_equal; [lia|]. rewrite <- seq_shift, map_map.
  apply map_ext. intros i. lia.
Qed.

Lemma range_nil (a b : Z) : b ≤ a → range a b = [].
Proof. intros H. unfold range. replace (Z.to_nat (b - a)) with O by lia. reflexivity. Qed.

Lemma pages_of_range (pdf_file : list str) (n : nat) (a : Z) :
  0 ≤ a →
  map (λ page_num, pdfminer_extract_text pdf_file (Some [page_num - 1]))
      (range (a + 1) (a + 1 + Z.of_nat n))
  = map (λ i, default [] (pdf_file !! i)) (seq (Z.to_nat a) n).
Proof.
  revert a. induction n as [|n IH]; intros a Ha.
  - rewrite range_nil by lia. reflexivity.
  - rewrite range_cons by lia. cbn [map seq]. f_equal.
    + unfold pdfminer_extract_text. rewrite pages_from_single by lia. f_equal. f_equal. lia.
    + replace (a + 1 + Z.of_nat (S n)) with (a + 1 + 1 + Z.of_nat n) by lia.
      rewrite (IH (a + 1)) by lia. f_equal. f_equal. lia.
Qed.

Lemma pages_default_concat (pdf_file : list str) (k n : nat) :
  concat (map (λ i, default [] (pdf_file !! i)) (seq k n)) = concat (take n (drop k pdf_file)).
Proof.
  revert k. induction n as [|n IH]; intros k; [reflexivity|].
  simpl. rewrite IH. destruct (pdf_file !! k) as [page|] eqn:E.
  - rewrite (drop_S _ _ _ E). reflexivity.
  - apply lookup_ge_None in E. rewrite !drop_ge by lia. rewrite take_nil. reflexivity.
Qed.

Lemma pages_default_inside (pdf_file : list str) (k n : nat) :
  (k + n ≤ length pdf_file)%nat →
  map (λ i, default [] (pdf_file !! i)) (seq k n) = take n (drop k pdf_file).
Proof.
  revert k. induction n as [|n IH]; intros k H; [reflexivity|].
  simpl. rewrite IH by lia. destruct (pdf_file !! k) as [page|] eqn:E.
  - rewrite (drop_S _ _ _ E). reflexivity.
  - apply lookup_ge_None in E. lia.
Qed.

(** X8.  [extract_text_by_page] reads the window as it is written, pages
    numbered from 1 and both ends included: for a window in order that starts
    at page 1 or later it returns one text per page of the window, together
    the text of the pages [start_page] to [end_page]; the texts are those of
    the pages when the window lies within the file. *)
Theorem extract_text_by_page_window (pdf_file : list str) (start_page end_page : Z) :
  1 ≤ start_page ≤ end_page →
  ∃ page_texts,
    extract_text_by_page pdf_file start_page (Some end_page) = inr page_texts
    ∧ length page_texts = Z.to_nat (end_page - start_page + 1)
    ∧ concat page_texts = page_window pdf_file start_page end_page
    ∧ (end_page ≤ Z.of_nat (length pdf_file) →
       page_texts
       = take (Z.to_nat (end_page - start_page + 1)) (drop (Z.to_nat (start_page - 1)) pdf_file)).
Proof.
  intros H. unfold extract_text_by_page, truthy.
  replace (end_page =? 0) with false by lia. cbn [negb].
  change (default 0 (Some end_page)) with end_page.
  replace (start_page <? 1) with false by lia.
  replace (end_page <? start_page) with false by lia. cbn [orb].
  eexists. split; [reflexivity|].
  assert (Hmap :
    map (λ page_num, pdfminer_extract_text pdf_file (Some [page_num - 1]))
        (range start_page (end_page + 1))
    = map (λ i, default [] (pdf_file !! i))
          (seq (Z.to_nat (start_page - 1)) (Z.to_nat (end_page - start_page + 1)))).
  { rewrite <- pages_of_range by lia. f_equal. f_equal; lia. }
  rewrite Hmap.
  split; [rewrite length_map, length_seq; reflexivity|].
  split; [apply pages_default_concat|].
  intros Hend. apply pages_default_inside. lia.
Qed.

Lemma extract_text_by_page_window_witness :
  ∃ page_texts,
    extract_text_by_page three_pages 1 (Some 2) = inr page_texts
    ∧ length page_texts = 2%nat
    ∧ concat page_texts = page_window three_pages 1 2
    ∧ (2 ≤ 3 → page_texts = [u"Điều 1. A "; u"Điều 2. B "]).
Proof. apply (extract_text_by_page_window three_pages 1 2). lia. Defined.

(** X9.  Without an end page, or with the end page 0, [extract_text_by_page]
    reads to the last page of the file: from a start page within the file it
    returns the texts of the pages from there on, and it raises the
    [ValueError] of the range check when the start page is less than 1 or
    behind the last page, as it is for every start page on a file without
    pages. *)
Theorem extract_text_by_page_open_end (pdf_file : list str) (start_page : Z)
    (end_page : option Z) :
  truthy end_page = false →
  extract_text_by_page pdf_file start_page end_page
  = if (1 <=? start_page) && (start_page <=? Z.of_nat (length pdf_file))
    then inr (drop (Z.to_nat (start_page - 1)) pdf_file)
    else inl (ValueError "Invalid page range."%string).
Proof.
  intros Hend. unfold extract_text_by_page. rewrite Hend.
  destruct ((1 <=? start_page) && (start_page <=? Z.of_nat (length pdf_file))) eqn:E.
  - apply andb_true_iff in E as [E1 E2].
    replace (start_page <? 1) with false by lia.
    replace (Z.of_nat (length pdf_file) <? start_page) with false by lia. cbn [orb].
    f_equal.
    assert (Hmap :
      map (λ page_num, pdfminer_extract_text pdf_file (Some [page_num - 1]))
          (range start_page (Z.of_nat (length pdf_file) + 1))
      = map (λ i, default [] (pdf_file !! i))
            (seq (Z.to_nat (start_page - 1))
                 (length pdf_file - Z.to_nat (start_page - 1)))).
    { rewrite <- pages_of_range by lia. f_equal. f_equal; lia. }
    rewrite Hmap, pages_default_inside by lia.
    apply take_ge. rewrite length_drop. lia.
  - apply andb_false_iff in E.
    replace ((start_page <? 1) || (Z.of_nat (length pdf_file) <? start_page)) with true;
      [reflexivity|]. symmetry. apply orb_true_iff. lia.
Qed.

Lemma extract_text_by_page_open_end_witness :
  extract_text_by_page three_pages 2 None = inr [u"Điều 2. B "; u"Điều 3. C"]
  ∧ extract_text_by_page three_pages 4 (Some 0) = inl (ValueError "Invalid page range."%string)
  ∧ extract_text_by_page [] 1 None = inl (ValueError "Invalid page range."%string).
Proof.
  split; [|split].
  - apply (extract_text_by_page_open_end three_pages 2 None). reflexivity.
  - apply (extract_text_by_page_open_end three_pages 4 (Some 0)). reflexivity.
  - apply (extract_text_by_page_open_end [] 1 None). reflexivity.
Defined.

Lemma elem_of_concat_inv {A} (x : A) (ls : list (list A)) :
  x ∈ concat ls → ∃ l, x ∈ l ∧ l ∈ ls.
Proof.
  induction ls as [|l ls IH]; simpl; intros H; [inversion H|].
  apply elem_of_app in H as [H|H].
  - exists l. split; [exact H|left].
  - destruct (IH H) as (l' & H1 & H2). exists l'. split; [exact H1|right; exact H2].
Qed.

(** X10.  [is_pdf_scanned] answers [True] exactly when the text layer of the
    file has no character but white space. *)
Theorem is_pdf_scanned_iff_blank (pdf_file : list str) :
  is_pdf_scanned pdf_file = true ↔
  ∀ page c, page ∈ pdf_file → c ∈ page → isspace c = true.
Proof.
  unfold is_pdf_scanned, pdfminer_extract_text.
  rewrite bool_decide_eq_true, strip_all_space, Forall_forall. split.
  - intros H page c Hp Hc. apply H. eapply elem_of_concat_2; eassumption.
  - intros H c Hc. apply elem_of_concat_inv in Hc as (page & Hc & Hp). exact (H page c Hp Hc).
Qed.

(** *** The whole file *)

(** X11.  Short of a window with two ends that are not 0 and in order,
    [extract_text_from_pdf] returns the text of the whole file: when an end is
    [None] or 0, and also when the end page is not behind the start page,
    since the library reads every page for an empty range of pages. *)
Theorem extract_text_from_pdf_whole_file (pdf_file : list str) (start_page end_page : option Z) :
  (∀ s e, start_page = Some s → end_page = Some e → s = 0 ∨ e = 0 ∨ e ≤ s) →
  extract_text_from_pdf pdf_file start_page end_page = concat pdf_file.
Proof.
  intros H. destruct start_page as [s|], end_page as [e|]; try reflexivity.
  destruct (H s e eq_refl eq_refl) as [->|[->|Hle]].
  - reflexivity.
  - unfold extract_text_from_pdf, truthy. cbn. rewrite andb_false_r. reflexivity.
  - unfold extract_text_from_pdf.
    destruct (truthy (Some s) && truthy (Some e)); [|reflexivity].
    rewrite range_nil by exact Hle. reflexivity.
Qed.

Lemma extract_text_from_pdf_whole_file_witness :
  extract_text_from_pdf three_pages (Some 0) (Some 2) = concat three_pages
  ∧ extract_text_from_pdf three_pages (Some 2) None = concat three_pages
  ∧ extract_text_from_pdf three_pages (Some 3) (Some 2) = concat three_pages.
Proof.
  split; [|split]; apply extract_text_from_pdf_whole_file; intros s e [= <-]; try discriminate;
    intros [= <-]; lia.
Defined.

(** ** Further properties of the segmentation *)

Lemma dict_keys_set_inv {V} (k k' : Z) (v : V) (d : dict V) :
  k ∈ dict_keys (dict_set k' v d) → k = k' ∨ k ∈ dict_keys d.
Proof.
  unfold dict_keys. induction d as [|[k0 v0] d IH]; simpl.
  - intros H. apply list_elem_of_singleton in H. left. exact H.
  - destruct (k0 =? k') eqn:E; simpl; intros H.
    + apply Z.eqb_eq in E. subst k0. right. exact H.
    + apply elem_of_cons in H as [->|H]; [right; left|].
      destruct (IH H) as [->|H']; [left; reflexivity|right; right; exact H'].
Qed.

Lemma dict_set_NoDup {V} (k : Z) (v : V) (d : dict V) :
  NoDup (dict_keys d) → NoDup (dict_keys (dict_set k v d)).
Proof.
  unfold dict_keys. induction d as [|[k' v'] d IH]; simpl; intros H.
  - apply NoDup_singleton.
  - apply NoDup_cons in H as [Hk' Hd]. destruct (k' =? k) eqn:E; simpl.
    + apply Z.eqb_eq in E. subst k'. apply NoDup_cons. split; assumption.
    + apply NoDup_cons. split; [|apply IH, Hd].
      intros Hin. apply (dict_keys_set_inv k' k v d) in Hin as [Hin|Hin].
      * apply Z.eqb_neq in E. congruence.
      * exact (Hk' Hin).
Qed.

Section units.

Variable decimal : char → option Z.

Lemma finditer_concat_open (text : str) acc inside :
  concat (finditer decimal (Some acc) inside text) = rev acc ++ text.
Proof.
  revert acc inside. induction text as [|c rest IH]; intros acc inside.
  - simpl. rewrite !app_nil_r. reflexivity.
  - cbn [finditer]. destruct inside as [|n].
    + destruct (marker decimal (c :: rest)) as [n|].
      * simpl. rewrite IH. reflexivity.
      * rewrite IH. simpl. rewrite <- app_assoc. reflexivity.
    + rewrite IH. simpl. rewrite <- app_assoc. reflexivity.
Qed.

(** X12.  The matches of the segmentation pattern tile the text from its
    first boundary marker to its end: put one behind the other they are that
    part of the text, with nothing left out and nothing repeated; what stands
    before the first marker belongs to no match. *)
Theorem finditer_tiles_from_first_marker (text : str) :
  concat (finditer decimal None 0 text) = from_first_marker decimal text.
Proof.
  induction text as [|c rest IH]; [reflexivity|].
  cbn [finditer from_first_marker].
  destruct (marker decimal (c :: rest)) as [n|] eqn:E.
  - rewrite bool_decide_eq_true_2 by (eexists; reflexivity).
    rewrite finditer_concat_open. reflexivity.
  - rewrite bool_decide_eq_false_2 by (intros [? ?]; discriminate). exact IH.
Qed.

Lemma extract_laws_fold (groups : list str) (law_dict : dict str) k :
  dict_get k
    (fold_left (λ law_dict group, dict_set (law_number_of decimal group) (strip group) law_dict)
       groups law_dict)
  = match last (filter (λ group, law_number_of decimal group = k) groups) with
    | Some group => Some (strip group)
    | None => dict_get k law_dict
    end.
Proof.
  revert law_dict. induction groups as [|g groups IH] using rev_ind; intros law_dict.
  - reflexivity.
  - rewrite fold_left_app, filter_app. cbn [fold_left]. rewrite dict_get_set.
    rewrite filter_cons, filter_nil.
    destruct (decide (law_number_of decimal g = k)) as [Hk|Hk].
    + rewrite last_snoc. apply Z.eqb_eq in Hk. rewrite Hk. reflexivity.
    + rewrite app_nil_r. apply Z.eqb_neq in Hk. rewrite Hk. apply IH.
Qed.


Lemma extract_laws_NoDup (text : str) :
  NoDup (dict_keys (extract_laws_from_text decimal text)).
Proof.
  rewrite extract_laws_unfold.
  destruct (existsb (overlong decimal) (finditer decimal None 0 text)); [apply NoDup_nil_2|].
  generalize (finditer decimal None 0 text). intros groups.
  assert (H : NoDup (dict_keys ([] : dict str))) by apply NoDup_nil_2.
  revert H. generalize ([] : dict str). induction groups as [|g groups IH]; intros d H.
  - exact H.
  - simpl. apply IH, dict_set_NoDup, H.
Qed.

End units.

Section unit_texts.

Variable decimal : char → option Z.

Lemma digits_then_stop_lookup (n : nat) (rest : str) k :
  digits_then_stop n rest = Some k → rest !! k = Some 46.
Proof.
  induction n as [|n IH]; [discriminate|].
  cbn [digits_then_stop]. destruct (bool_decide (rest !! S n = Some 46)) eqn:E.
  - intros [= <-]. apply bool_decide_eq_true in E. exact E.
  - exact IH.
Qed.

Lemma digits_lookup (rest : str) j :
  (j < length (digits decimal rest))%nat →
  ∃ c, rest !! j = Some c ∧ is_Some (decimal c).
Proof.
  revert j. induction rest as [|c rest IH]; intros j H; [simpl in H; lia|].
  simpl in H. destruct (decimal c) as [v|] eqn:E; [|simpl in H; lia].
  destruct j as [|j].
  - exists c. split; [reflexivity|]. rewrite E. eexists. reflexivity.
  - simpl in H. apply IH. lia.
Qed.

Lemma digits_take (rest : str) j :
  (length (digits decimal rest) ≤ j)%nat →
  digits decimal (take j rest) = digits decimal rest.
Proof.
  revert j. induction rest as [|c rest IH]; intros j H; [rewrite take_nil; reflexivity|].
  simpl in H. destruct (decimal c) as [v|] eqn:E.
  - destruct j as [|j]; [simpl in H; lia|]. simpl. rewrite E. f_equal. apply IH.
    simpl in H. lia.
  - destruct j as [|j]; simpl; rewrite E; reflexivity.
Qed.

Lemma digits_then_stop_take (n : nat) (rest : str) j :
  (n < j)%nat → digits_then_stop n (take j rest) = digits_then_stop n rest.
Proof.
  induction n as [|n IH]; intros H; [reflexivity|].
  cbn [digits_then_stop]. rewrite lookup_take_lt by lia. rewrite IH by lia. reflexivity.
Qed.

Lemma starts_with_take (key text : str) m :
  (length key ≤ m)%nat → starts_with key (take m text) = starts_with key text.
Proof.
  revert text m. induction key as [|k key IH]; intros text m H; [destruct (take m text), text; reflexivity|].
  destruct m as [|m]; [simpl in H; lia|]. destruct text as [|c text]; [reflexivity|].
  simpl. rewrite IH by (simpl in H; lia). reflexivity.
Qed.

Lemma marker_stop (text : str) n :
  marker decimal text = Some n →
  ∃ k, n = (length marker_head + k + 1)%nat
       ∧ (k ≤ length (digits decimal (drop (length marker_head) text)))%nat
       ∧ text !! (length marker_head + k)%nat = Some 46
       ∧ text !! O = Some 272.
Proof.
  unfold marker. destruct (starts_with marker_head text) eqn:Es; [|discriminate].
  destruct (digits_then_stop _ _) as [k|] eqn:Ed; [|discriminate].
  intros [= <-]. exists k. split; [reflexivity|].
  pose proof (digits_then_stop_bound _ _ _ Ed) as [Hb _].
  apply digits_then_stop_lookup in Ed. rewrite lookup_drop in Ed.
  split; [lia|]. split; [exact Ed|].
  destruct text as [|c text]; [discriminate|].
  change marker_head with (272 :: [105; 7873; 117; 32]) in Es. cbn [starts_with] in Es.
  apply andb_true_iff in Es as [Ec _]. apply Z.eqb_eq in Ec. subst c. reflexivity.
Qed.

Lemma marker_take (text : str) n m :
  decimal 46 = None →
  marker decimal text = Some n → (n ≤ m)%nat →
  marker decimal (take m text) = Some n
  ∧ law_number_of decimal (take m text) = law_number_of decimal text.
Proof.
  intros Hstop Hm Hnm.
  destruct (marker_stop text n Hm) as (k & -> & Hk & H46 & _).
  set (rest := drop (length marker_head) text) in *.
  assert (Hlen : length (digits decimal rest) = k).
  { destruct (decide (k < length (digits decimal rest))%nat) as [Hlt|]; [|lia].
    exfalso. destruct (digits_lookup rest k Hlt) as (c & Hc & [v Hv]).
    unfold rest in Hc. rewrite lookup_drop in Hc. rewrite H46 in Hc.
    injection Hc as <-. congruence. }
  assert (Hdrop : drop (length marker_head) (take m text)
                  = take (m - length marker_head) rest).
  { unfold rest. rewrite take_drop_commute. f_equal. f_equal. lia. }
  assert (Hdig : digits decimal (take (m - length marker_head) rest) = digits decimal rest).
  { apply digits_take. lia. }
  split.
  - unfold marker in *. rewrite starts_with_take by lia.
    destruct (starts_with marker_head text); [|discriminate].
    rewrite Hdrop, Hdig. fold rest in Hm. rewrite Hlen in *.
    rewrite digits_then_stop_take by lia. exact Hm.
  - unfold law_number_of. rewrite Hdrop, Hdig. reflexivity.
Qed.

Lemma strip_group (text group : str) :
  is_group decimal text group →
  ∃ i n m, marker decimal (drop i text) = Some n ∧ (n ≤ m)%nat
    ∧ (m ≤ length (drop i text))%nat
    ∧ strip group = take m (drop i text)
    ∧ (∃ m', (m ≤ m')%nat ∧ group = take m' (drop i text)).
Proof.
  intros (i & n & m & Hm & Hnm & ->).
  destruct (marker_stop _ _ Hm) as (k & Hn & _ & H46 & H0).
  pose proof (marker_bound decimal _ _ Hm) as [_ Hlen].
  set (t := drop i text) in *.
  destruct (strip_spec (take m t)) as (a & b & Hs & Ha & _ & _ & _ & Hj).
  assert (a = O) as ->.
  { destruct a as [|a]; [reflexivity|]. exfalso.
    rewrite Forall_forall in Ha.
    assert (Hin : 272 ∈ take (S a) (take m t)).
    { apply list_elem_of_lookup. exists O. rewrite !lookup_take_lt by lia. exact H0. }
    apply Ha in Hin. vm_compute in Hin. discriminate. }
  rewrite drop_0 in Hs, Hj.
  assert (Hb : (n ≤ b)%nat).
  { assert (length marker_head + k < b)%nat; [|lia].
    apply (Hj _ 46); [|reflexivity]. rewrite lookup_take_lt by lia. exact H46. }
  exists i, n, (Nat.min (Nat.min b m) (length t)). fold t.
  split; [exact Hm|]. split; [lia|]. split; [lia|]. split.
  - rewrite Hs, take_take.
    destruct (decide (Nat.min b m ≤ length t)%nat).
    + f_equal. lia.
    + rewrite !take_ge by lia. reflexivity.
  - exists m. split; [lia|reflexivity].
Qed.

(** X14.  Every text that [extract_laws_from_text] files under a number
    begins with its own boundary marker, the number in that marker is the key
    of the entry, and the text has no white space at its ends.  (The full
    stop is taken not to be a decimal digit.) *)
Theorem extracted_unit_starts_with_its_marker (text : str) k (content : str) :
  decimal 46 = None →
  dict_get k (extract_laws_from_text decimal text) = Some content →
  is_Some (marker decimal content)
  ∧ law_number_of decimal content = k
  ∧ strip content = content
  ∧ is_group decimal text content.
Proof.
  intros Hstop H. rewrite extract_laws_unfold in H.
  destruct (existsb (overlong decimal) (finditer decimal None 0 text)); [discriminate|].
  rewrite extract_laws_fold in H.
  destruct (last _) as [group|] eqn:El; [|discriminate]. injection H as <-.
  apply last_Some_elem_of in El. apply list_elem_of_filter in El as [Hk Hin].
  apply (finditer_groups decimal) in Hin; [|lia].
  destruct Hin as [(acc & j & Hacc & _)|Hg]; [discriminate|].
  destruct (strip_group text group Hg) as (i & n & m & Hm & Hnm & Hlen & Hs & m' & Hm' & Hgroup).
  destruct (marker_take _ _ m Hstop Hm Hnm) as [Hmark Hnum].
  destruct (marker_take _ _ m' Hstop Hm ltac:(lia)) as [_ Hnum'].
  rewrite Hs. split; [rewrite Hmark; eexists; reflexivity|].
  split; [rewrite Hnum, <- Hnum', <- Hgroup; exact Hk|].
  split; [rewrite <- Hs; apply strip_idempotent|].
  exists i, n, m. auto.
Qed.

End unit_texts.

Lemma extracted_unit_starts_with_its_marker_witness :
  is_Some (marker ascii_decimal (u"Điều 12. Hiệu lực"))
  ∧ law_number_of ascii_decimal (u"Điều 12. Hiệu lực") = 12
  ∧ strip (u"Điều 12. Hiệu lực") = u"Điều 12. Hiệu lực"
  ∧ is_group ascii_decimal (u"Lời nói đầu. Điều 12. Hiệu lực  ") (u"Điều 12. Hiệu lực").
Proof.
  apply (extracted_unit_starts_with_its_marker ascii_decimal
           (u"Lời nói đầu. Điều 12. Hiệu lực  ") 12 (u"Điều 12. Hiệu lực"));
    reflexivity.
Defined.

(** *** The order of the filtered units *)

Lemma dict_set_fresh {V} (k : Z) (v : V) (d : dict V) :
  k ∉ dict_keys d → dict_set k v d = d ++ [(k, v)].
Proof.
  unfold dict_keys. induction d as [|[k' v'] d IH]; intros H; [reflexivity|].
  simpl in *. apply not_elem_of_cons in H as [Hk H].
  replace (k' =? k) with false by (symmetry; apply Z.eqb_neq; congruence).
  rewrite IH by exact H. reflexivity.
Qed.

Lemma filter_items_order (word : char → bool) (items : list (Z * str)) (min_length : Z)
    (filtered : dict str) :
  NoDup (dict_keys filtered ++ dict_keys items) →
  filter_items word items min_length filtered
  = (λ rest, filtered ++ rest)
    <$> mapM (λ item : Z * str, pair item.1 <$> text_preprocess word item.2)
             (List.filter (λ item : Z * str, min_length <=? count_words_in_text item.2) items).
Proof.
  revert filtered. induction items as [|[k content] items IH]; intros filtered Hn.
  - simpl. rewrite app_nil_r. reflexivity.
  - cbn [filter_items List.filter snd].
    assert (Hk : k ∉ dict_keys filtered).
    { apply NoDup_app in Hn as (_ & Hn & _). intros Hin. apply (Hn k Hin). left. }
    destruct (min_length <=? count_words_in_text content).
    + rewrite text_preprocess_spec. cbn [mbind option_bind].
      rewrite IH.
      * rewrite dict_set_fresh by exact Hk.
        cbn [mapM fst snd]. rewrite text_preprocess_spec. cbn [fmap option_fmap option_map mbind option_bind].
        destruct (mapM _ _) as [rest|]; cbn; [|reflexivity].
        rewrite <- app_assoc. reflexivity.
      * rewrite dict_set_fresh by exact Hk. unfold dict_keys in *.
        rewrite fmap_app, <- app_assoc. exact Hn.
    + apply IH. apply NoDup_app in Hn as (H1 & H2 & H3). apply NoDup_app.
      split; [exact H1|]. split.
      * intros x Hx Hin. apply (H2 x Hx). right. exact Hin.
      * apply NoDup_cons in H3 as [_ H3]. exact H3.
Qed.

(** X15.  [filter_laws_by_length] keeps the order of the units: its result
    is the list of the units of at least [min_length] words, in the order of
    the dictionary it was given, each under its number and with its text
    normalised. *)
Theorem filter_laws_by_length_keeps_order (word : char → bool) (laws : dict str)
    (min_length : Z) :
  NoDup (dict_keys laws) →
  filter_laws_by_length word laws min_length
  = mapM (λ item : Z * str, pair item.1 <$> text_preprocess word item.2)
         (List.filter (λ item : Z * str, min_length <=? count_words_in_text item.2) laws).
Proof.
  intros H. unfold filter_laws_by_length. rewrite filter_items_order by exact H.
  destruct (mapM _ _); reflexivity.
Qed.

Lemma filter_laws_by_length_keeps_order_witness :
  filter_laws_by_length latin_word
    [(3, u"Điều 3. Ba bốn"); (1, u"Điều 1."); (2, u"Điều 2. Hai ba")] 3
  = Some [(3, u"Điều 3 Ba bốn"); (2, u"Điều 2 Hai ba")].
Proof.
  rewrite filter_laws_by_length_keeps_order; [vm_compute; reflexivity|].
  apply NoDup_cons. split; [intros H; apply list_elem_of_In in H; simpl in H; lia|].
  apply NoDup_cons. split; [intros H; apply list_elem_of_In in H; simpl in H; lia|].
  apply NoDup_singleton.
Defined.

(** ** Further properties of the normaliser *)

(** X16.  [standardize_word_typing] never raises, and a second pass changes
    nothing: its result is a word that it returns as it is. *)
Theorem standardize_word_typing_idempotent (word0 : str) :
  ∃ result,
    standardize_word_typing word0 = Some result
    ∧ standardize_word_typing result = Some result.
Proof.
  exists (standardized word0). split; [apply standardize_word_typing_spec|].
  rewrite standardize_word_typing_spec, standardized_idempotent. reflexivity.
Qed.

Lemma is_toned_base (c : char) : is_toned (base c) = false.
Proof.
  unfold is_toned. destruct (vowels_to_ids c) as [[row col]|] eqn:E.
  - rewrite (base_ids _ _ _ E). reflexivity.
  - rewrite (base_other _ E), E. reflexivity.
Qed.

Lemma base_table (row col : nat) (v b : char) :
  table_at row col = Some v → table_at row 0 = Some b → base v = b.
Proof.
  intros Hv Hb. unfold base. rewrite (table_at_ids _ _ _ Hv), Hb. reflexivity.
Qed.

(** X17.  [standardize_word_typing] only moves the tone mark: the result has
    the length of the word, it is the word once the tone marks are taken off
    both, and at most one of its characters bears a tone mark. *)
Theorem standardize_word_typing_moves_the_tone (word0 : str) :
  ∃ result,
    standardize_word_typing word0 = Some result
    ∧ length result = length word0
    ∧ map base result = map base word0
    ∧ ∀ i j ci cj,
        result !! i = Some ci → result !! j = Some cj →
        is_toned ci = true → is_toned cj = true → i = j.
Proof.
  exists (standardized word0). split; [apply standardize_word_typing_spec|].
  split; [apply length_standardized|].
  assert (Hplain : ∀ i c, map base word0 !! i = Some c → is_toned c = false).
  { intros i c H. rewrite list_lookup_fmap in H.
    destruct (word0 !! i); [|discriminate]. injection H as <-. apply is_toned_base. }
  unfold standardized.
  destruct (tone_position (map base word0) (positions_from 0 word0)) as [pos|] eqn:Ep.
  - apply tone_position_elem in Ep.
    destruct (toned_spec word0 pos (tone_after 0 word0) Ep) as (b & row & v & Hb & Hrow & Hv & ->).
    { apply tone_after_bound. lia. }
    split.
    + rewrite list_fmap_insert.
      rewrite (base_table _ _ _ _ Hv (vowels_to_ids_table _ _ _ Hrow)).
      rewrite <- list_fmap_compose.
      rewrite (list_fmap_ext (base ∘ base) base word0) by (intros; apply base_base).
      apply list_insert_id, Hb.
    + assert (Hpos : ∀ i c, <[pos := v]> (map base word0) !! i = Some c →
                            is_toned c = true → i = pos).
      { intros i c Hi Hc. destruct (decide (i = pos)) as [|Hne]; [assumption|].
        rewrite list_lookup_insert_ne in Hi by congruence.
        rewrite (Hplain i c Hi) in Hc. discriminate. }
      intros i j ci cj Hi Hj Hci Hcj.
      rewrite (Hpos i ci Hi Hci), (Hpos j cj Hj Hcj). reflexivity.
  - split.
    + rewrite <- list_fmap_compose. apply list_fmap_ext. intros. apply base_base.
    + intros i j ci cj Hi _ Hci. rewrite (Hplain i ci Hi) in Hci. discriminate.
Qed.

(** *** Tags *)

Lemma elem_of_remove_tags (text : str) in_tag c :
  c ∈ remove_tags in_tag text → c ∈ text.
Proof.
  revert in_tag. induction text as [|d rest IH]; intros in_tag H; [exact H|].
  cbn [remove_tags] in H. destruct in_tag.
  - right. exact (IH _ H).
  - destruct ((d =? 60) && bool_decide (62 ∈ rest)).
    + right. exact (IH _ H).
    + apply elem_of_cons in H as [->|H]; [left|right; exact (IH _ H)].
Qed.

Lemma remove_tags_twice (text : str) in_tag :
  remove_tags false (remove_tags in_tag text) = remove_tags in_tag text.
Proof.
  revert in_tag. induction text as [|c rest IH]; intros in_tag; [reflexivity|].
  cbn [remove_tags]. destruct in_tag; [apply IH|].
  destruct ((c =? 60) && bool_decide (62 ∈ rest)) eqn:E; [apply IH|].
  cbn [remove_tags]. rewrite IH.
  replace ((c =? 60) && bool_decide (62 ∈ remove_tags false rest)) with false; [reflexivity|].
  symmetry. apply andb_false_iff. apply andb_false_iff in E as [E|E]; [left; exact E|].
  right. apply bool_decide_eq_false. apply bool_decide_eq_false in E.
  intros H. apply E. eapply elem_of_remove_tags, H.
Qed.

(** X18.  [remove_html_tags] leaves no tag behind: taking out the tags of a
    text brings no new tag about, so that a second pass returns its input;
    and the pass only takes characters out. *)
Theorem remove_html_tags_idempotent (text : str) :
  remove_html_tags (remove_html_tags text) = remove_html_tags text
  ∧ ∀ c, c ∈ remove_html_tags text → c ∈ text.
Proof.
  split; [apply remove_tags_twice|]. intros c. apply elem_of_remove_tags.
Qed.

(** *** Decomposed letters *)

Lemma conversion_entries (entry : str * str) :
  entry ∈ conversion_dict →
  ∃ k1 k2 v, entry = ([k1; k2], [v]) ∧ k2 ∈ tone_marks ∧ (v ∉ tone_marks)
    ∧ ∀ entry', entry' ∈ conversion_dict → List.hd 0 (fst entry') ≠ v.
Proof.
  intros H. apply list_elem_of_In in H.
  assert (Hall : forallb (λ entry : str * str,
             match entry with
             | ([k1; k2], [v]) =>
               bool_decide (k2 ∈ tone_marks) && negb (bool_decide (v ∈ tone_marks))
               && forallb (λ entry' : str * str, negb (List.hd 0 (fst entry') =? v)) conversion_dict
             | _ => false
             end) conversion_dict = true) by (vm_compute; reflexivity).
  rewrite forallb_forall in Hall. specialize (Hall entry H).
  destruct entry as [[|k1 [|k2 [|? ?]]] [|v [|? ?]]]; try discriminate.
  apply andb_true_iff in Hall as [Hall H3]. apply andb_true_iff in Hall as [H1 H2].
  exists k1, k2, v. split; [reflexivity|].
  split; [apply bool_decide_eq_true in H1; exact H1|].
  split; [apply negb_true_iff, bool_decide_eq_false in H2; exact H2|].
  intros entry' Hin. rewrite forallb_forall in H3.
  apply list_elem_of_In, H3 in Hin. apply negb_true_iff, Z.eqb_neq in Hin. exact Hin.
Qed.

Lemma find_key_Some (c : char) (rest : str) key value :
  find (λ entry : str * str, starts_with entry.1 (c :: rest)) conversion_dict = Some (key, value) →
  ∃ k2 rest' v,
    rest = k2 :: rest' ∧ key = [c; k2] ∧ value = [v] ∧ k2 ∈ tone_marks
    ∧ ∀ entry', entry' ∈ conversion_dict → List.hd 0 (fst entry') ≠ v.
Proof.
  intros H. apply find_some in H as [Hin Hs]. apply list_elem_of_In in Hin.
  destruct (conversion_entries _ Hin) as (k1 & k2 & v & [= -> ->] & Hk2 & _ & Hv).
  cbn [fst starts_with] in Hs. apply andb_true_iff in Hs as [H1 Hs].
  apply Z.eqb_eq in H1. subst k1. destruct rest as [|c2 rest']; [discriminate|].
  cbn [starts_with] in Hs. apply andb_true_iff in Hs as [H2 _].
  apply Z.eqb_eq in H2. subst k2.
  exists c2, rest', v. auto.
Qed.

Lemma find_key_head (c : char) (rest : str) :
  (∀ entry, entry ∈ conversion_dict → List.hd 0 (fst entry) ≠ c) →
  find (λ entry : str * str, starts_with entry.1 (c :: rest)) conversion_dict = None.
Proof.
  intros H. apply find_none_all. apply Forall_forall. intros entry Hin.
  specialize (H entry Hin).
  destruct (conversion_entries _ Hin) as (k1 & k2 & v & -> & _).
  cbn [fst starts_with List.hd] in *. apply andb_false_iff. left. apply Z.eqb_neq. exact H.
Qed.

Lemma find_key_next (c : char) (rest rest' : str) :
  (head rest' = head rest ∨ ∃ v, head rest' = Some v ∧ v ∉ tone_marks) →
  find (λ entry : str * str, starts_with entry.1 (c :: rest)) conversion_dict = None →
  find (λ entry : str * str, starts_with entry.1 (c :: rest')) conversion_dict = None.
Proof.
  intros Hh Hnone. apply find_none_all. apply Forall_forall. intros entry Hin.
  destruct (conversion_entries _ Hin) as (k1 & k2 & v & -> & Hk2 & _).
  cbn [fst starts_with]. destruct (k1 =? c) eqn:E1; [|reflexivity]. cbn [andb].
  destruct rest' as [|c2 t']; [reflexivity|]. cbn [starts_with].
  destruct (k2 =? c2) eqn:E2; [|reflexivity]. exfalso.
  apply Z.eqb_eq in E2. subst c2. destruct Hh as [Hh|(v' & [= <-] & Hv')]; [|exact (Hv' Hk2)].
  destruct rest as [|c2 t]; [discriminate|]. injection Hh as <-.
  apply list_elem_of_In in Hin. apply (find_none _ _ Hnone) in Hin.
  cbn [fst starts_with] in Hin. rewrite E1, Z.eqb_refl in Hin. discriminate.
Qed.

Lemma convert_from_key (c k2 : char) (rest : str) key v :
  find (λ entry : str * str, starts_with entry.1 (c :: k2 :: rest)) conversion_dict
  = Some (key, [v]) → key = [c; k2] →
  convert_from 0 (c :: k2 :: rest) = v :: convert_from 0 rest.
Proof. intros H ->. cbn [convert_from]. rewrite H. reflexivity. Qed.

Lemma convert_from_other (c : char) (rest : str) :
  find (λ entry : str * str, starts_with entry.1 (c :: rest)) conversion_dict = None →
  convert_from 0 (c :: rest) = c :: convert_from 0 rest.
Proof. intros H. cbn [convert_from]. rewrite H. reflexivity. Qed.

Lemma convert_from_head (text : str) :
  head (convert_from 0 text) = head text
  ∨ ∃ v, head (convert_from 0 text) = Some v ∧ v ∉ tone_marks.
Proof.
  destruct text as [|c rest]; [left; reflexivity|].
  destruct (find (λ entry : str * str, starts_with entry.1 (c :: rest)) conversion_dict)
    as [[key value]|] eqn:E.
  - right. pose proof E as E'. apply find_some in E' as [Hin _].
    apply list_elem_of_In in Hin.
    destruct (conversion_entries _ Hin) as (k1 & k2 & v & [= -> ->] & _ & Hv & _).
    destruct (find_key_Some _ _ _ _ E) as (k2' & rest' & v' & -> & Hk & _).
    rewrite (convert_from_key _ _ _ _ _ E Hk). exists v. split; [reflexivity|exact Hv].
  - left. rewrite (convert_from_other _ _ E). reflexivity.
Qed.

Lemma convert_from_twice (n : nat) (text : str) :
  (length text ≤ n)%nat →
  convert_from 0 (convert_from 0 text) = convert_from 0 text.
Proof.
  revert text. induction n as [|n IH]; intros text Hlen.
  - destruct text; [reflexivity|simpl in Hlen; lia].
  - destruct text as [|c rest]; [reflexivity|].
    destruct (find (λ entry : str * str, starts_with entry.1 (c :: rest)) conversion_dict)
      as [[key value]|] eqn:E.
    + destruct (find_key_Some _ _ _ _ E) as (k2 & rest' & v & -> & Hk & -> & _ & Hv).
      rewrite (convert_from_key _ _ _ _ _ E Hk).
      rewrite convert_from_other by (apply find_key_head, Hv).
      rewrite IH by (simpl in Hlen; lia). reflexivity.
    + rewrite (convert_from_other _ _ E).
      rewrite convert_from_other.
      * rewrite IH by (simpl in Hlen; lia). reflexivity.
      * eapply find_key_next; [apply convert_from_head|exact E].
Qed.

(** X19.  [convert_unicode] leaves no decomposed letter behind: composing the
    pairs of a letter and a combining tone mark brings no new pair about, so
    that a second pass returns its input. *)
Theorem convert_unicode_idempotent (text : str) :
  convert_unicode (convert_unicode text) = convert_unicode text.
Proof. apply (convert_from_twice (length text)). reflexivity. Qed.

(** *** Runs of white space *)

Lemma length_squeeze (text : str) in_run : (length (squeeze in_run text) ≤ length text)%nat.
Proof.
  revert in_run. induction text as [|c rest IH]; intros in_run; [reflexivity|].
  cbn [squeeze]. destruct (regex_space c), in_run; simpl;
    try (specialize (IH true); lia); specialize (IH false); lia.
Qed.

Lemma elem_of_squeeze (text : str) in_run c :
  c ∈ squeeze in_run text → c = 32 ∨ c ∈ text.
Proof.
  revert in_run. induction text as [|d rest IH]; intros in_run H; [right; exact H|].
  cbn [squeeze] in H. destruct (regex_space d).
  - destruct in_run.
    + destruct (IH _ H) as [->|H']; [left; reflexivity|right; right; exact H'].
    + apply elem_of_cons in H as [->|H]; [left; reflexivity|].
      destruct (IH _ H) as [->|H']; [left; reflexivity|right; right; exact H'].
  - apply elem_of_cons in H as [->|H]; [right; left|].
    destruct (IH _ H) as [->|H']; [left; reflexivity|right; right; exact H'].
Qed.

Lemma elem_of_squeeze_other (text : str) in_run c :
  c ∈ text → regex_space c = false → c ∈ squeeze in_run text.
Proof.
  revert in_run. induction text as [|d rest IH]; intros in_run H Hc; [exact H|].
  cbn [squeeze]. apply elem_of_cons in H as [<-|H].
  - rewrite Hc. left.
  - destruct (regex_space d); [destruct in_run|]; try right; apply IH; assumption.
Qed.

Lemma squeeze_twice (text : str) in_run in_run' :
  (in_run' = true → in_run = true) →
  squeeze in_run' (squeeze in_run text) = squeeze in_run text.
Proof.
  revert in_run in_run'. induction text as [|c rest IH]; intros in_run in_run' H; [reflexivity|].
  cbn [squeeze]. destruct (regex_space c) eqn:Ec.
  - destruct in_run.
    + apply IH. reflexivity.
    + destruct in_run'; [discriminate (H eq_refl)|].
      cbn [squeeze]. change (regex_space 32) with true. cbv iota.
      rewrite IH by reflexivity. reflexivity.
  - cbn [squeeze]. rewrite Ec. rewrite IH by discriminate. reflexivity.
Qed.

Lemma squeeze_app (p q : str) in_run :
  ∃ in_run', squeeze in_run (p ++ q) = squeeze in_run p ++ squeeze in_run' q.
Proof.
  revert in_run. induction p as [|c p IH]; intros in_run; [exists in_run; reflexivity|].
  simpl. destruct (regex_space c); [destruct in_run|].
  - apply IH.
  - destruct (IH true) as [b ->]. exists b. reflexivity.
  - destruct (IH false) as [b ->]. exists b. reflexivity.
Qed.

Lemma squeeze_fixed_tail (c : char) (text : str) :
  squeeze false (c :: text) = c :: text → squeeze false text = text.
Proof.
  cbn [squeeze]. destruct (regex_space c); [|intros [= H]; exact H].
  intros [= _ H]. destruct text as [|d rest]; [reflexivity|].
  cbn [squeeze] in *. destruct (regex_space d); [|exact H].
  exfalso. pose proof (length_squeeze rest true) as Hl. rewrite H in Hl. simpl in Hl. lia.
Qed.

Lemma squeeze_fixed_drop (text : str) n :
  squeeze false text = text → squeeze false (drop n text) = drop n text.
Proof.
  revert text. induction n as [|n IH]; intros text H; [rewrite drop_0; exact H|].
  destruct text as [|c rest]; [reflexivity|]. simpl. apply IH.
  eapply squeeze_fixed_tail, H.
Qed.

Lemma squeeze_fixed_take (text : str) n :
  squeeze false text = text → squeeze false (take n text) = take n text.
Proof.
  intros H. destruct (squeeze_app (take n text) (drop n text) false) as [b Hb].
  rewrite take_drop, H in Hb.
  pose proof (length_squeeze (take n text) false) as H1.
  pose proof (length_squeeze (drop n text) b) as H2.
  assert (Hlen : length (squeeze false (take n text)) = length (take n text)).
  { apply (f_equal length) in Hb. rewrite <- (take_drop n text) in Hb at 1.
    rewrite !length_app in Hb. lia. }
  rewrite <- (take_drop n text) in Hb at 1.
  apply app_inj_1 in Hb as [Hb _]; [symmetry; exact Hb|symmetry; exact Hlen].
Qed.

Lemma squeeze_fixed_strip (text : str) :
  squeeze false text = text → squeeze false (strip text) = strip text.
Proof.
  intros H. destruct (strip_spec text) as (n & m & -> & _).
  apply squeeze_fixed_take, squeeze_fixed_drop, H.
Qed.

Section characters.

Variable word : char → bool.

Lemma kept_blank : kept word 32 = true.
Proof. reflexivity. Qed.

Lemma remove_unnecessary_kept (text : str) c :
  c ∈ remove_unnecessary_characters word text → kept word c = true.
Proof.
  unfold remove_unnecessary_characters. intros H.
  apply elem_of_strip, elem_of_squeeze in H as [->|H]; [apply kept_blank|].
  apply list_elem_of_fmap in H as (d & -> & _).
  destruct (kept word d) eqn:E; [exact E|apply kept_blank].
Qed.

Lemma remove_unnecessary_fixed (text : str) :
  (∀ c, c ∈ text → kept word c = true) →
  squeeze false text = text → strip text = text →
  remove_unnecessary_characters word text = text.
Proof.
  intros Hk Hs Ht. unfold remove_unnecessary_characters.
  replace (map (λ c, if kept word c then c else 32) text) with text.
  - rewrite Hs. exact Ht.
  - rewrite <- (map_id text) at 1. apply map_ext_in. intros c Hc.
    apply list_elem_of_In, Hk in Hc. rewrite Hc. reflexivity.
Qed.

Lemma remove_unnecessary_shape (text : str) :
  let result := remove_unnecessary_characters word text in
  (∀ c, c ∈ result → kept word c = true)
  ∧ squeeze false result = result
  ∧ strip result = result.
Proof.
  split; [apply remove_unnecessary_kept|]. split.
  - apply squeeze_fixed_strip, squeeze_twice. discriminate.
  - apply strip_idempotent.
Qed.

(** X20.  [remove_unnecessary_characters] is idempotent: its result holds
    only characters that it keeps, no run of white space but single blanks
    and no white space at its ends, and a text of this shape is returned as
    it is. *)
Theorem remove_unnecessary_characters_idempotent (text : str) :
  remove_unnecessary_characters word (remove_unnecessary_characters word text)
  = remove_unnecessary_characters word text.
Proof.
  destruct (remove_unnecessary_shape text) as (H1 & H2 & H3).
  apply remove_unnecessary_fixed; assumption.
Qed.

(** X21.  What [text_preprocess] returns, for every input: a text made of
    characters of the kept class only, in which white space occurs as single
    blanks and not at the ends, and which the last step of the pipeline
    returns as it is. *)
Theorem text_preprocess_output_shape (text : str) :
  ∃ normalised,
    text_preprocess word text = Some normalised
    ∧ (∀ c, c ∈ normalised → kept word c = true)
    ∧ squeeze false normalised = normalised
    ∧ strip normalised = normalised
    ∧ remove_unnecessary_characters word normalised = normalised.
Proof.
  eexists. split; [apply text_preprocess_spec|].
  match goal with |- context [remove_unnecessary_characters word ?t] =>
    destruct (remove_unnecessary_shape t) as (H1 & H2 & H3) end.
  split; [exact H1|]. split; [exact H2|]. split; [exact H3|].
  apply remove_unnecessary_fixed; assumption.
Qed.

End characters.

(** *** Sentences *)

Lemma table_chars_nonspace (c : char) : c ∈ table_chars → isspace c = false.
Proof.
  intros H. apply list_elem_of_In in H.
  assert (Hall : forallb (λ c, negb (isspace c)) table_chars = true)
    by (vm_compute; reflexivity).
  rewrite forallb_forall in Hall. apply negb_true_iff, Hall, H.
Qed.

Lemma standardized_word_like (w : str) : word_like w → word_like (standardized w).
Proof.
  intros [Hne Hsp]. split.
  - intros H. apply (f_equal length) in H. rewrite length_standardized in H.
    destruct w; [congruence|discriminate].
  - apply Forall_forall. intros c Hc. apply elem_of_standardized in Hc as [Hc|Hc].
    + rewrite Forall_forall in Hsp. exact (Hsp c Hc).
    + exact (table_chars_nonspace c Hc).
Qed.

Lemma standardized_words_like (text : str) :
  Forall word_like (map standardized (split text)).
Proof.
  apply Forall_forall. intros w Hw. apply list_elem_of_fmap in Hw as (w0 & -> & Hw0).
  apply standardized_word_like.
  pose proof (split_word_like text) as H. rewrite Forall_forall in H. exact (H w0 Hw0).
Qed.

(** X22.  [standardize_sentence_typing] never raises, keeps the number of
    words, and is idempotent: its result is the standardized words of the
    text with one blank between them, and splitting that result gives these
    words back. *)
Theorem standardize_sentence_typing_idempotent (text : str) :
  ∃ result,
    standardize_sentence_typing text = Some result
    ∧ mapM standardize_word_typing (split text) = Some (split result)
    ∧ count_words_in_text result = count_words_in_text text
    ∧ standardize_sentence_typing result = Some result.
Proof.
  pose proof (standardized_words_like text) as Hw.
  exists (join [32] (map standardized (split text))).
  assert (Hs : ∀ t, standardize_sentence_typing t
                    = Some (join [32] (map standardized (split t)))).
  { intros t. unfold standardize_sentence_typing. rewrite mapM_standardize. reflexivity. }
  split; [apply Hs|]. rewrite split_join by exact Hw.
  split; [apply mapM_standardize|]. split.
  - unfold count_words_in_text. rewrite split_join by exact Hw.
    rewrite length_map. reflexivity.
  - rewrite Hs, split_join by exact Hw. rewrite map_map. f_equal. f_equal.
    apply map_ext. apply standardized_idempotent.
Qed.

(** ** Further properties of [process_file] *)

Section processing.

Variable word : char → bool.
Variable decimal : char → option Z.







End processing.

(** *** A scanned file read as text *)

Lemma elem_of_pages_from (pages : list str) pageno pagenos c :
  c ∈ pages_from pageno pages pagenos → c ∈ concat pages.
Proof.
  revert pageno. induction pages as [|page rest IH]; intros pageno H; [exact H|].
  simpl in *. apply elem_of_app in H as [H|H].
  - destruct (bool_decide (pageno ∈ pagenos)); [|inversion H].
    apply elem_of_app. left. exact H.
  - apply elem_of_app. right. exact (IH _ H).
Qed.

Lemma elem_of_extract_text_from_pdf (pdf_file : list str) start_page end_page c :
  c ∈ extract_text_from_pdf pdf_file start_page end_page → c ∈ concat pdf_file.
Proof.
  unfold extract_text_from_pdf, pdfminer_extract_text.
  destruct start_page as [s|], end_page as [e|]; try (intros H; exact H).
  destruct (truthy (Some s) && truthy (Some e)); [|intros H; exact H].
  destruct (range s e); [intros H; exact H|]. apply elem_of_pages_from.
Qed.

Lemma blank_no_marker (decimal : char → option Z) (text : str) :
  (∀ c, c ∈ text → isspace c = true) → contains_marker decimal text = false.
Proof.
  induction text as [|c rest IH]; intros H; [reflexivity|].
  cbn [contains_marker]. rewrite IH by (intros d Hd; apply H; right; exact Hd).
  rewrite orb_false_r. apply bool_decide_eq_false. intros [n Hn].
  destruct (marker_stop decimal _ _ Hn) as (_ & _ & _ & _ & H0).
  injection H0 as ->. specialize (H 272 ltac:(left)). discriminate.
Qed.

(** X24.  A file that [is_pdf_scanned] takes for scanned gives nothing when it
    is processed as a text file: whatever the window and the least length,
    [process_file] with the type [pdf] raises its [RuntimeError], for want of
    text or of a boundary marker. *)
Theorem scanned_file_processed_as_text_fails (word : char → bool)
    (decimal : char → option Z) (pdf_file : list str) (ocr_text : str)
    (start_page end_page : option Z) (min_word : Z) :
  is_pdf_scanned pdf_file = true →
  ∃ message,
    process_file word decimal pdf_file ocr_text PDF start_page end_page min_word
    = inl (RuntimeError (ValueError message)).
Proof.
  intros H. unfold is_pdf_scanned, pdfminer_extract_text in H.
  apply bool_decide_eq_true, strip_all_space in H. rewrite Forall_forall in H.
  unfold process_file, extract_text.
  destruct (bool_decide (extract_text_from_pdf pdf_file start_page end_page = []));
    [eexists; reflexivity|].
  assert (He : extract_laws_from_text decimal
                 (extract_text_from_pdf pdf_file start_page end_page) = []).
  { unfold extract_laws_from_text. rewrite (finditer_no_marker decimal); [reflexivity|].
    apply blank_no_marker. intros c Hc. apply H. eapply elem_of_extract_text_from_pdf, Hc. }
  rewrite He. rewrite bool_decide_eq_true_2 by reflexivity. eexists. reflexivity.
Qed.

Lemma scanned_file_processed_as_text_fails_witness :
  ∃ message,
    process_file latin_word ascii_decimal [u"  "; [10; 12]] (u"Điều 1. A") PDF (Some 1) None 0
    = inl (RuntimeError (ValueError message)).
Proof.
  apply (scanned_file_processed_as_text_fails latin_word ascii_decimal [u"  "; [10; 12]]).
  reflexivity.
Defined.

(** ** Storing, and the two pipelines *)

Lemma add_objects_run (objects : list (Z * str)) (before : list str) (self : WeaviateClient) :
  add_objects (length before) objects (before ++ map snd objects) self
  = (inr (),
     {| offset := offset self;
        batch := batch self
                 ++ numbered (offset self + Z.of_nat (length before) + 1) objects |}).
Proof.
  revert before self. induction objects as [|[k t] objects IH]; intros before self.
  - simpl. rewrite app_nil_r. destruct self. reflexivity.
  - cbn [add_objects map snd].
    rewrite bool_decide_eq_false_2 by (destruct before; discriminate).
    rewrite list_lookup_middle by reflexivity. cbn [fmap option_fmap option_map].
    replace (before ++ t :: map snd objects) with ((before ++ [t]) ++ map snd objects)
      by (rewrite <- app_assoc; reflexivity).
    replace (S (length before)) with (length (before ++ [t]))
      by (rewrite length_app; simpl; lia).
    rewrite IH. cbn [offset batch numbered]. rewrite <- app_assoc, length_app.
    cbn [length app].
    replace (offset self + Z.of_nat (length before + 1) + 1)
      with (offset self + Z.of_nat (length before) + 1 + 1) by lia.
    reflexivity.
Qed.


Lemma embedding_data_run (filtered_text : dict str) (self : WeaviateClient) :
  List.filter not_blank filtered_text ≠ [] →
  embedding_data filtered_text self
  = (inr (), {| offset := offset self;
                batch := batch self
                         ++ numbered (offset self + 1) (List.filter not_blank filtered_text) |}).
Proof.
  intros Hne. unfold embedding_data.
  rewrite bool_decide_eq_false_2 by (intros ->; apply Hne; reflexivity).
  change (List.filter (λ item : Z * str, negb (bool_decide (strip item.2 = []))) filtered_text)
    with (List.filter not_blank filtered_text).
  generalize dependent (List.filter not_blank filtered_text). intros objects Hne.
  unfold save_data.
  rewrite (bool_decide_eq_false_2 (map snd objects = []))
    by (destruct objects; [congruence|discriminate]).
  rewrite (bool_decide_eq_false_2 (objects = [])) by exact Hne.
  cbn [orb]. unfold insert_objects.
  pose proof (add_objects_run objects [] self) as Hrun. cbn [length app] in Hrun.
  rewrite Hrun.
  replace (offset self + Z.of_nat 0 + 1) with (offset self + 1) by lia. reflexivity.
Qed.

Lemma embedding_data_blank (filtered_text : dict str) (self : WeaviateClient) :
  List.filter not_blank filtered_text = [] →
  embedding_data filtered_text self
  = if bool_decide (filtered_text = [])
    then (inl (RuntimeError (ValueError "No text provided for embedding"%string)), self)
    else (inl (RuntimeError (RuntimeError
                (ValueError "No embeddings or objects provided for saving."%string))), self).
Proof.
  intros He. unfold embedding_data.
  destruct (bool_decide (filtered_text = [])); [reflexivity|].
  change (List.filter (λ item : Z * str, negb (bool_decide (strip item.2 = []))) filtered_text)
    with (List.filter not_blank filtered_text).
  rewrite He. reflexivity.
Qed.

(** X25.  [embedding_data] stores the entries whose content is not blank, in
    the order of the dictionary, each with its content as it stands and
    under the identifiers that follow [self.offset]; it raises when the
    dictionary has no entry, and when it has entries but all are blank; the
    vector of an object is always there, and [self.offset] is what it was. *)
Theorem embedding_data_stores_what_is_not_blank (filtered_text : dict str)
    (self : WeaviateClient) :
  let objects := List.filter not_blank filtered_text in
  embedding_data filtered_text self
  = if bool_decide (filtered_text = [])
    then (inl (RuntimeError (ValueError "No text provided for embedding"%string)), self)
    else if bool_decide (objects = [])
    then (inl (RuntimeError (RuntimeError
                (ValueError "No embeddings or objects provided for saving."%string))), self)
    else (inr (), {| offset := offset self;
                     batch := batch self ++ numbered (offset self + 1) objects |}).
Proof.
  intros objects. subst objects.
  destruct (bool_decide (List.filter not_blank filtered_text = [])) eqn:E.
  - apply bool_decide_eq_true in E. rewrite (embedding_data_blank _ _ E).
    destruct (bool_decide (filtered_text = [])); reflexivity.
  - apply bool_decide_eq_false in E. rewrite (embedding_data_run _ _ E).
    rewrite bool_decide_eq_false_2; [reflexivity|].
    intros ->. apply E. reflexivity.
Qed.

Lemma numbered_lookup (objects : list (Z * str)) doc_id i o :
  numbered doc_id objects !! i = Some o → obj_doc_id o = doc_id + Z.of_nat i.
Proof.
  revert doc_id i. induction objects as [|[k t] objects IH]; intros doc_id i H.
  - destruct i; discriminate.
  - destruct i as [|i]; simpl in H.
    + injection H as <-. simpl. lia.
    + apply IH in H. lia.
Qed.

(** X26.  [insert_objects] never moves [self.offset] on, so that every
    upload numbers its objects from the same identifier: after two
    [embedding_data] calls that both store, the objects at the same place of
    the two uploads have the same [doc_id], the source of their identifier
    in the store. *)
Theorem embedding_data_reuses_doc_ids (filtered1 filtered2 : dict str)
    (self : WeaviateClient) :
  let first := embedding_data filtered1 self in
  let second := embedding_data filtered2 first.2 in
  first.1 = inr () → second.1 = inr () →
  ∃ added1 added2,
    batch first.2 = batch self ++ added1
    ∧ batch second.2 = batch first.2 ++ added2
    ∧ added1 ≠ [] ∧ added2 ≠ []
    ∧ offset second.2 = offset self
    ∧ ∀ i o1 o2, added1 !! i = Some o1 → added2 !! i = Some o2 →
                 obj_doc_id o1 = obj_doc_id o2.
Proof.
  intros first second. subst first second. intros H1 H2.
  destruct (decide (List.filter not_blank filtered1 = [])) as [E1|E1].
  { rewrite (embedding_data_blank _ _ E1) in H1.
    destruct (bool_decide (filtered1 = [])); discriminate. }
  rewrite (embedding_data_run _ _ E1) in H2 |- *. cbn [fst snd batch offset] in *.
  destruct (decide (List.filter not_blank filtered2 = [])) as [E2|E2].
  { rewrite (embedding_data_blank _ _ E2) in H2.
    destruct (bool_decide (filtered2 = [])); discriminate. }
  rewrite (embedding_data_run _ _ E2). cbn [fst snd batch offset].
  eexists _, _. split; [reflexivity|]. split; [reflexivity|].
  split; [destruct (List.filter not_blank filtered1) as [|[? ?] ?]; [congruence|discriminate]|].
  split; [destruct (List.filter not_blank filtered2) as [|[? ?] ?]; [congruence|discriminate]|].
  split; [reflexivity|].
  intros i o1 o2 Ho1 Ho2. apply numbered_lookup in Ho1, Ho2. congruence.
Qed.

Lemma embedding_data_reuses_doc_ids_witness :
  let first := embedding_data [(1, u"Điều 1 A"); (2, u"Điều 2 B")] WeaviateClient__init__ in
  let second := embedding_data [(3, u"Điều 3 C")] first.2 in
  ∃ added1 added2,
    batch first.2 = batch WeaviateClient__init__ ++ added1
    ∧ batch second.2 = batch first.2 ++ added2
    ∧ added1 ≠ [] ∧ added2 ≠ []
    ∧ offset second.2 = offset WeaviateClient__init__
    ∧ ∀ i o1 o2, added1 !! i = Some o1 → added2 !! i = Some o2 →
                 obj_doc_id o1 = obj_doc_id o2.
Proof.
  apply (embedding_data_reuses_doc_ids [(1, u"Điều 1 A"); (2, u"Điều 2 B")]
           [(3, u"Điều 3 C")] WeaviateClient__init__); reflexivity.
Defined.

(** *** What leaves [process_file] *)

Lemma starts_with_app (key text : str) :
  starts_with key text = true → text = key ++ drop (length key) text.
Proof.
  revert text. induction key as [|k key IH]; intros text H; [reflexivity|].
  destruct text as [|c text]; [discriminate|]. simpl in H.
  apply andb_true_iff in H as [Hk H]. apply Z.eqb_eq in Hk. subst c.
  simpl. f_equal. apply IH, H.
Qed.

Lemma remove_tags_other (c : char) (text : str) :
  c ≠ 60 → remove_tags false (c :: text) = c :: remove_tags false text.
Proof. intros H. cbn [remove_tags]. apply Z.eqb_neq in H. rewrite H. reflexivity. Qed.

Lemma elem_of_join_head (sep w : str) (ws : list str) c :
  c ∈ w → c ∈ join sep (w :: ws).
Proof.
  intros H. destruct ws as [|w2 ws]; [exact H|].
  rewrite join_cons2. apply elem_of_app. left. exact H.
Qed.

Lemma filter_not_blank_all (filtered_text : dict str) :
  (∀ k v, (k, v) ∈ filtered_text → strip v ≠ []) →
  List.filter not_blank filtered_text = filtered_text.
Proof.
  induction filtered_text as [|[k v] rest IH]; intros Hv; [reflexivity|].
  cbn [List.filter]. unfold not_blank at 1. cbn [snd].
  rewrite bool_decide_eq_false_2 by (apply (Hv k v); left). cbn [negb].
  f_equal. apply IH. intros k' v' Hin. apply (Hv k' v'). right. exact Hin.
Qed.

Section storable.

Variable word : char → bool.
Variable decimal : char → option Z.
Hypothesis word_i : word 105 = true.

Lemma text_preprocess_marker_head (content : str) :
  starts_with marker_head content = true →
  ∃ normalised, text_preprocess word content = Some normalised ∧ 105 ∈ normalised.
Proof.
  intros H. apply starts_with_app in H. rewrite H.
  generalize (drop (length marker_head) content). intros rest.
  change marker_head with [272; 105; 7873; 117; 32]. cbn [app].
  eexists. split; [apply text_preprocess_spec|].
  unfold remove_html_tags. rewrite !remove_tags_other by discriminate.
  generalize (remove_tags false rest). intros t.
  unfold convert_unicode.
  rewrite (convert_from_other 272) by (vm_compute; reflexivity).
  rewrite (convert_from_other 105) by (vm_compute; reflexivity).
  rewrite (convert_from_other 7873) by (vm_compute; reflexivity).
  rewrite (convert_from_other 117) by (vm_compute; reflexivity).
  rewrite (convert_from_other 32) by (vm_compute; reflexivity).
  generalize (convert_from 0 t). intros t'.
  change (272 :: 105 :: 7873 :: 117 :: 32 :: t') with ([272; 105; 7873; 117] ++ 32 :: t').
  rewrite split_word_app by (split; [discriminate|repeat constructor]).
  cbn [map]. change (standardized [272; 105; 7873; 117]) with [272; 105; 7873; 117].
  unfold remove_unnecessary_characters.
  apply elem_of_strip_nonspace; [|reflexivity].
  apply elem_of_squeeze_other; [|reflexivity].
  apply list_elem_of_fmap. exists 105. split.
  - unfold kept. rewrite word_i. rewrite orb_true_r. reflexivity.
  - apply elem_of_join_head. right. left.
Qed.

Lemma marker_starts_with (text : str) n :
  marker decimal text = Some n → starts_with marker_head text = true.
Proof. unfold marker. destruct (starts_with marker_head text); [reflexivity|discriminate]. Qed.

Lemma extract_laws_marker_head (text : str) k (content : str) :
  dict_get k (extract_laws_from_text decimal text) = Some content →
  starts_with marker_head content = true.
Proof.
  rewrite extract_laws_unfold.
  destruct (existsb (overlong decimal) (finditer decimal None 0 text)); [discriminate|].
  rewrite extract_laws_fold. intros H.
  destruct (last _) as [group|] eqn:El; [|discriminate]. injection H as <-.
  apply last_Some_elem_of in El. apply list_elem_of_filter in El as [_ Hin].
  apply (finditer_groups decimal) in Hin; [|lia].
  destruct Hin as [(acc & j & Hacc & _)|Hg]; [discriminate|].
  destruct (strip_group decimal text group Hg) as (i & n & m & Hm & Hnm & _ & -> & _).
  pose proof (marker_bound decimal _ _ Hm) as [Hn _].
  rewrite starts_with_take by (change (length marker_head) with 5%nat; lia).
  eapply marker_starts_with, Hm.
Qed.

Lemma elem_of_dict_set {V} (k k' : Z) (v v' : V) (d : dict V) :
  (k, v) ∈ dict_set k' v' d → (k, v) = (k', v') ∨ (k, v) ∈ d.
Proof.
  induction d as [|[k0 v0] d IH]; simpl.
  - intros H. apply list_elem_of_singleton in H. left. exact H.
  - destruct (k0 =? k'); intros H.
    + apply elem_of_cons in H as [H|H]; [left; exact H|right; right; exact H].
    + apply elem_of_cons in H as [->|H]; [right; left|].
      destruct (IH H) as [H'|H']; [left; exact H'|right; right; exact H'].
Qed.

Lemma filter_items_elem (items : list (Z * str)) (min_length : Z)
    (filtered result : dict str) k (v : str) :
  filter_items word items min_length filtered = Some result →
  (k, v) ∈ result →
  (k, v) ∈ filtered
  ∨ ∃ content, (k, content) ∈ items ∧ text_preprocess word content = Some v.
Proof.
  revert filtered. induction items as [|[k0 c0] items IH]; intros filtered Hr Hin.
  - injection Hr as <-. left. exact Hin.
  - cbn [filter_items] in Hr. destruct (min_length <=? count_words_in_text c0).
    + destruct (text_preprocess word c0) as [t|] eqn:Et; [|discriminate].
      cbn in Hr. destruct (IH _ Hr Hin) as [H|(content & H1 & H2)].
      * apply elem_of_dict_set in H as [[= -> ->]|H]; [|left; exact H].
        right. exists c0. split; [left|exact Et].
      * right. exists content. split; [right; exact H1|exact H2].
    + destruct (IH _ Hr Hin) as [H|(content & H1 & H2)]; [left; exact H|].
      right. exists content. split; [right; exact H1|exact H2].
Qed.

Lemma filter_items_NoDup (items : list (Z * str)) (min_length : Z)
    (filtered result : dict str) :
  filter_items word items min_length filtered = Some result →
  NoDup (dict_keys filtered) → NoDup (dict_keys result).
Proof.
  revert filtered. induction items as [|[k0 c0] items IH]; intros filtered Hr Hn.
  - injection Hr as <-. exact Hn.
  - cbn [filter_items] in Hr. destruct (min_length <=? count_words_in_text c0).
    + destruct (text_preprocess word c0) as [t|]; [|discriminate].
      cbn in Hr. apply (IH _ Hr). apply dict_set_NoDup, Hn.
    + apply (IH _ Hr Hn).
Qed.

Lemma process_file_storable (pdf_file : list str) (ocr_text : str)
    (file_type : FileType) (start_page end_page : option Z) (min_word : Z)
    (filtered_text : dict str) :
  process_file word decimal pdf_file ocr_text file_type start_page end_page min_word
  = inr filtered_text →
  NoDup (dict_keys filtered_text)
  ∧ ∀ k v, (k, v) ∈ filtered_text → 105 ∈ v ∧ strip v ≠ [].
Proof.
  intros H. unfold process_file in H.
  repeat match type of H with
         | context [bool_decide ?P] => destruct (bool_decide P); [discriminate|]
         end.
  set (laws := extract_laws_from_text decimal _) in H.
  destruct (filter_laws_by_length word laws min_word) as [filtered|] eqn:Ef; [|discriminate].
  injection H as <-. unfold filter_laws_by_length in Ef. split.
  - apply (filter_items_NoDup _ _ _ _ Ef). apply NoDup_nil_2.
  - intros k v Hin.
    destruct (filter_items_elem _ _ _ _ _ _ Ef Hin) as [H|(content & Hc & Hv)];
      [inversion H|].
    assert (Hget : dict_get k laws = Some content).
    { apply dict_get_elem_NoDup; [apply extract_laws_NoDup|exact Hc]. }
    apply extract_laws_marker_head in Hget.
    destruct (text_preprocess_marker_head content Hget) as (normalised & Hn & Hi).
    rewrite Hn in Hv. injection Hv as <-. split; [exact Hi|].
    intros Hs. apply (elem_of_strip_nonspace _ 105) in Hi; [|reflexivity].
    rewrite Hs in Hi. inversion Hi.
Qed.

(** X27.  What [process_file] returns can be stored as it is: the numbers of
    its entries are pairwise distinct, and no content is blank, since the
    normalised text of a unit still has the [i] of its boundary marker.  (The
    class of word characters is taken to hold the letter [i].) *)
Theorem process_file_output_is_storable (pdf_file : list str) (ocr_text : str)
    (file_type : FileType) (start_page end_page : option Z) (min_word : Z)
    (filtered_text : dict str) :
  process_file word decimal pdf_file ocr_text file_type start_page end_page min_word
  = inr filtered_text →
  NoDup (dict_keys filtered_text)
  ∧ (∀ k v, (k, v) ∈ filtered_text → strip v ≠ [])
  ∧ List.filter not_blank filtered_text = filtered_text.
Proof.
  intros H. destruct (process_file_storable _ _ _ _ _ _ _ H) as [Hn Hv].
  assert (Hv' : ∀ k v, (k, v) ∈ filtered_text → strip v ≠ [])
    by (intros k v Hin; exact (proj2 (Hv k v Hin))).
  split; [exact Hn|]. split; [exact Hv'|]. apply filter_not_blank_all, Hv'.
Qed.

(** X28.  The pipeline of the endpoint [/update]: what [process_file] returns
    never makes [update_laws] fail on a worker without marks.  The batch ends
    normally; it inserts the laws whose number the snapshot lacks, then
    deletes and inserts again the laws that it marked. *)
Theorem process_file_then_update_laws (pdf_file : list str) (ocr_text : str)
    (file_type : FileType) (start_page end_page : option Z) (min_word : Z)
    (filtered_text : dict str) documents self :
  process_file word decimal pdf_file ocr_text file_type start_page end_page min_word
  = inr filtered_text →
  low_similarity_laws self = [] →
  let existing_laws := get_existing_laws documents in
  let laws := marks existing_laws filtered_text in
  update_laws documents filtered_text self
  = (inr (),
     extend self laws
       (inserts existing_laws filtered_text ++ deletions laws ++ reinserts filtered_text laws)).
Proof.
  intros H Hlow existing_laws laws.
  destruct (process_file_storable _ _ _ _ _ _ _ H) as [_ Hv].
  pose proof (update_laws_run documents filtered_text self) as Hrun.
  rewrite Hlow in Hrun. cbn [app] in Hrun. apply Hrun.
  - intros k v Hin. exact (proj2 (Hv k v Hin)).
  - intros k Hin. inversion Hin.
Qed.

(** X29.  The pipeline of the endpoint [/upload]: [embedding_data] stores
    every entry of what [process_file] returns, none being blank, under the
    identifiers that follow the offset of the client; it raises only when
    the length filter has left no entry. *)
Theorem process_file_then_embedding_data (pdf_file : list str) (ocr_text : str)
    (file_type : FileType) (start_page end_page : option Z) (min_word : Z)
    (filtered_text : dict str) (client : WeaviateClient) :
  process_file word decimal pdf_file ocr_text file_type start_page end_page min_word
  = inr filtered_text →
  embedding_data filtered_text client
  = if bool_decide (filtered_text = [])
    then (inl (RuntimeError (ValueError "No text provided for embedding"%string)), client)
    else (inr (), {| offset := offset client;
                     batch := batch client ++ numbered (offset client + 1) filtered_text |}).
Proof.
  intros H. destruct (process_file_storable _ _ _ _ _ _ _ H) as [_ Hv].
  assert (Hall : List.filter not_blank filtered_text = filtered_text).
  { apply filter_not_blank_all. intros k v Hin. exact (proj2 (Hv k v Hin)). }
  destruct (bool_decide (filtered_text = [])) eqn:E.
  - apply bool_decide_eq_true in E. subst filtered_text. reflexivity.
  - apply bool_decide_eq_false in E.
    rewrite embedding_data_run by (rewrite Hall; exact E). rewrite Hall. reflexivity.
Qed.

End storable.

Lemma process_file_output_is_storable_witness :
  NoDup (dict_keys [(1, u"Điều 1 A"); (2, u"Điều 2 B"); (3, u"Điều 3 C")])
  ∧ (∀ k v, (k, v) ∈ [(1, u"Điều 1 A"); (2, u"Điều 2 B"); (3, u"Điều 3 C")] → strip v ≠ [])
  ∧ List.filter not_blank [(1, u"Điều 1 A"); (2, u"Điều 2 B"); (3, u"Điều 3 C")]
    = [(1, u"Điều 1 A"); (2, u"Điều 2 B"); (3, u"Điều 3 C")].
Proof.
  apply (process_file_output_is_storable latin_word ascii_decimal eq_refl
           three_pages [] PDF None None 3).
  vm_compute. reflexivity.
Defined.

Lemma process_file_then_update_laws_witness :
  update_laws [stored 1 (u"Điều 1 A"); stored 2 (u"Điều 2. Nội dung khác hẳn")]
    [(1, u"Điều 1 A"); (2, u"Điều 2 B"); (3, u"Điều 3 C")] __init__
  = (inr (),
     {| low_similarity_laws := [2];
        weaviate_instance :=
          [append 3 (u"Điều 3 C") (u"Điều 3 C"); delete_law_number 2;
           append 2 (u"Điều 2 B") (u"Điều 2 B")] |}).
Proof.
  apply (process_file_then_update_laws latin_word ascii_decimal eq_refl
           three_pages [] PDF None None 3
           [(1, u"Điều 1 A"); (2, u"Điều 2 B"); (3, u"Điều 3 C")]
           [stored 1 (u"Điều 1 A"); stored 2 (u"Điều 2. Nội dung khác hẳn")] __init__).
  - vm_compute. reflexivity.
  - reflexivity.
Defined.

Lemma process_file_then_embedding_data_witness :
  embedding_data [(1, u"Điều 1 A"); (2, u"Điều 2 B"); (3, u"Điều 3 C")] WeaviateClient__init__
  = (inr (),
     {| offset := 0;
        batch := [add_object 1 (u"Điều 1 A") 1 (Some (u"Điều 1 A"));
                  add_object 2 (u"Điều 2 B") 2 (Some (u"Điều 2 B"));
                  add_object 3 (u"Điều 3 C") 3 (Some (u"Điều 3 C"))] |}).
Proof.
  apply (process_file_then_embedding_data latin_word ascii_decimal eq_refl
           three_pages [] PDF None None 3
           [(1, u"Điều 1 A"); (2, u"Điều 2 B"); (3, u"Điều 3 C")] WeaviateClient__init__).
  vm_compute. reflexivity.
Defined.
